(** * MathRec: Pythagorean N-tuple generators

    A shallow embedding of [ptuples.cpp] (the exhaustive odometer search) and
    of [Experimental/qkptuples.cpp] (the substitution-growth search), with the
    properties their specification states.

    Conventions of the embedding.
    - [mpz_t] values are [Z]; GMP's functions are the corresponding [Z]
      functions ([mpz_sqrt] is [Z.sqrt] on non-negative input and aborts on a
      negative one, [mpz_gcd] is [Z.gcd], [mpz_cmp] is [Z.compare]).
    - [long] and [unsigned long] are 64 bits wide; where a C expression is
      evaluated in one of them its wrap-around is written out.
    - An [mpz_t*] array together with its element count is a [list Z]: every
      place of the source that stores an array in an entry stores its
      allocated length as [a_count] with it, and a moved-from entry
      ([a_count = 0], [a = NULL]) is the empty list.  A [struct ttable]
      (count and entry array) is a [list tentry].
    - A C loop is [while_loop] or, when it counts up to a bound fixed before
      it starts, [for_range].  [while_loop] takes a bound on the number of
      iterations; a run that needs more is [Timeout], never a value.
      Reading or writing outside an array and GMP's abort are [Fault].
      [PtuplesRaw] repeats the odometer of [ptuples.cpp] with the loads from
      its square table as the machine does them, without a check of the
      index.
    - [calloc] and [realloc] always succeed. *)

From Stdlib Require Import ZArith Lia String Ascii.
From stdpp Require Import base list list_numbers sorting.

Local Open Scope Z_scope.

(** ** Outcomes of a run *)

Inductive outcome (A : Type) : Type :=
| Ret (x : A)
| Fault
| Timeout.
Arguments Ret {A} x.
Arguments Fault {A}.
Arguments Timeout {A}.

Definition bind {A B} (m : outcome A) (k : A → outcome B) : outcome B :=
  match m with
  | Ret x => k x
  | Fault => Fault
  | Timeout => Timeout
  end.

Notation "'do' x <- m ; k" := (bind m (fun x => k))
  (at level 10, x pattern, m at level 100, k at level 200).

(** [while (cond) body], and [for (...; cond; step)] with the step at the
    end of the body. *)
Fixpoint while_loop {St : Type} (fuel : nat) (cond : St → outcome bool)
    (body : St → outcome St) (s : St) : outcome St :=
  match fuel with
  | O => Timeout
  | S fuel' =>
      do c <- cond s;
      if c : bool then do s' <- body s; while_loop fuel' cond body s' else Ret s
  end.

(** [for (i = start; i < start + n; i++) body], where the body does not
    assign [i] or the bound. *)
Fixpoint for_range {St : Type} (n : nat) (start : Z)
    (body : Z → St → outcome St) (s : St) : outcome St :=
  match n with
  | O => Ret s
  | S n' => do s' <- body start s; for_range n' (start + 1) body s'
  end.

(** A loop over the entries of an array, in index order. *)
Fixpoint for_each {A St : Type} (l : list A) (body : A → St → outcome St) (s : St) : outcome St :=
  match l with
  | [] => Ret s
  | x :: l' => do s' <- body x s; for_each l' body s'
  end.

(** ** Machine integers and GMP *)

Definition two64 : Z := 2 ^ 64.

(** Conversion to [unsigned long] / [uint64_t]. *)
Definition to_u64 (z : Z) : Z := z mod two64.

(** The value of a [long] after two's complement wrap-around. *)
Definition to_s64 (z : Z) : Z := (z + 2 ^ 63) mod two64 - 2 ^ 63.

(** [mpz_get_ui]: the least significant 64 bits of the absolute value. *)
Definition mpz_get_ui (z : Z) : Z := Z.abs z mod two64.

(** [mpz_sqrt]: the truncated square root; GMP aborts on a negative operand. *)
Definition mpz_sqrt (z : Z) : outcome Z :=
  if z <? 0 then Fault else Ret (Z.sqrt z).

(** [mpz_perfect_square_p]; 0 and 1 count as squares, negative numbers do not. *)
Definition mpz_perfect_square_p (z : Z) : bool :=
  (0 <=? z) && (Z.sqrt z * Z.sqrt z =? z).

(** [mpz_cdiv_q_2exp (q, n, 1)]: n / 2 rounded up. *)
Definition mpz_cdiv_q_2exp_1 (n : Z) : Z := - ((- n) / 2).

(** [p[i]] for an array of [length l] elements. *)
Definition arr_get {A} (l : list A) (i : Z) : outcome A :=
  if i <? 0 then Fault
  else match l !! Z.to_nat i with
       | Some x => Ret x
       | None => Fault
       end.

(** [p[i] = x]. *)
Definition arr_set {A} (l : list A) (i : Z) (x : A) : outcome (list A) :=
  if (0 <=? i) && (i <? Z.of_nat (length l)) then Ret (<[Z.to_nat i := x]> l)
  else Fault.

(** ** The tuple table (the same text in the two programs) *)

(** [struct tentry]: the a-values (array and count) and the hypotenuse. *)
Record tentry : Type := mk_tentry { a : list Z; b : Z }.

(** [struct ttable]: the entries, in array order. *)
Definition ttable : Type := list tentry.

Definition a_count (e : tentry) : Z := Z.of_nat (length (a e)).
Definition count (t : ttable) : Z := Z.of_nat (length t).

(** An entry after [a_count = 0; a = NULL]. *)
Definition moved_from (e : tentry) : tentry := mk_tentry [] (b e).

(** What a program writes to standard output: a [printf] of fixed text, or
    the line [(a_1,...,a_n,b)] of one table entry. *)
Inductive out_item : Type :=
| Text (s : string)
| TupleLine (e : tentry).

(** [tentry_avalues_cmpfunc]: [mpz_cmp] of two a-values. *)
Definition tentry_avalues_cmpfunc (avalue1 avalue2 : Z) : comparison :=
  avalue1 ?= avalue2.

(** The [for] loop of [ttable_tentry_cmpfunc] over the first
    [min a_count1 a_count2] a-values, stopping at the first difference. *)
Fixpoint avalues_cmp_loop (a1 a2 : list Z) : comparison :=
  match a1, a2 with
  | x :: a1', y :: a2' =>
      match x ?= y with
      | Eq => avalues_cmp_loop a1' a2'
      | c => c
      end
  | _, _ => Eq
  end.

(** [ttable_tentry_cmpfunc]: by [b], then by the a-values in order. *)
Definition ttable_tentry_cmpfunc (entry1 entry2 : tentry) : comparison :=
  match b entry1 ?= b entry2 with
  | Eq => avalues_cmp_loop (a entry1) (a entry2)
  | cmpval => cmpval
  end.

(** [ttable_tentry_Bonly_cmpfunc]. *)
Definition ttable_tentry_Bonly_cmpfunc (entry1 entry2 : tentry) : comparison :=
  b entry1 ?= b entry2.

(** libc's [qsort], by its contract: the elements, rearranged so that no
    element compares greater than a later one.  Written as an insertion
    sort; [qsort_unique] below shows that for a comparator that is a total
    order the contract leaves no other result. *)
Fixpoint qsort_insert {A} (cmp : A → A → comparison) (x : A) (l : list A) : list A :=
  match l with
  | [] => [x]
  | y :: l' =>
      match cmp x y with
      | Gt => y :: qsort_insert cmp x l'
      | _ => x :: l
      end
  end.

Fixpoint qsort {A} (cmp : A → A → comparison) (l : list A) : list A :=
  match l with
  | [] => []
  | x :: l' => qsort_insert cmp x (qsort cmp l')
  end.

(** [MovePTuple]: the table grows by one entry, which takes the array
    [avalues], sorted in place, and a copy of [b]. *)
Definition MovePTuple (the_ttable : ttable) (avalues : list Z) (b : Z) : ttable :=
  the_ttable ++ [mk_tentry (qsort tentry_avalues_cmpfunc avalues) b].

(** [CheckForDuplicateTuple]: are the first [count] a-values pairwise equal?
    The loop stops at the first difference; it reads both arrays at every
    index before that. *)
Fixpoint CheckForDuplicateTuple (avalues1 avalues2 : list Z) (count : nat) : outcome bool :=
  match count with
  | O => Ret true
  | S count' =>
      match avalues1, avalues2 with
      | x :: avalues1', y :: avalues2' =>
          if x =? y then CheckForDuplicateTuple avalues1' avalues2' count'
          else Ret false
      | _, _ => Fault
      end
  end.

(** The [for] loop of [TupleIsPrimitive] over a-values 2, 3, ...: it folds
    each into the running gcd and stops once that is 1. *)
Fixpoint gcd_loop (rest : list Z) (gcd : Z) (IsPrimitive : bool) : Z * bool :=
  match rest with
  | [] => (gcd, IsPrimitive)
  | ai :: rest' =>
      if IsPrimitive then (gcd, IsPrimitive)
      else let gcd' := Z.gcd gcd ai in gcd_loop rest' gcd' (gcd' =? 1)
  end.

Definition newline : string := String (ascii_of_nat 10) EmptyString.

Definition internal_error_text : string :=
  "Internal Error:  TuplesIsPrimitive().  acount < 2." ++ newline.

(** [TupleIsPrimitive]: the flag it returns and what it prints.  The two
    cases are [acount >= 2] and [acount < 2]. *)
Definition TupleIsPrimitive (avalues : list Z) (b : Z) : bool * list out_item :=
  match avalues with
  | a0 :: a1 :: rest =>
      let gcd := Z.gcd a0 a1 in
      let '(gcd, IsPrimitive) := gcd_loop rest gcd (gcd =? 1) in
      let IsPrimitive := if IsPrimitive then true else Z.gcd gcd b =? 1 in
      (IsPrimitive, [])
  | _ => (false, [Text internal_error_text])
  end.

(** The loop that ends both [BuildNTuples]: the entries of the working table
    are moved to the output table, all of them or the primitive ones.  The
    state is the output table and what [TupleIsPrimitive] printed. *)
Definition move_to_final (DoOnlyPrimitives : bool) (tmp_table : ttable)
    (final_table : ttable) : ttable * list out_item :=
  fold_left
    (fun '(final_table, printed) e =>
       if DoOnlyPrimitives then
         let '(IsPrimitive, p) := TupleIsPrimitive (a e) (b e) in
         if IsPrimitive then (MovePTuple final_table (a e) (b e), printed ++ p)
         else (final_table, printed ++ p)
       else (MovePTuple final_table (a e) (b e), printed))
    tmp_table (final_table, []).

(** The print loop of [main]. *)
Definition print_tuples (tuples : ttable) : list out_item := map TupleLine tuples.

(** What [main] needs of the C library and of GMP: [atol] and the value
    [mpz_init_set_str (x, s, 10)] leaves in [x]. *)
Class Parsers : Type := {
  atol : string → Z;
  mpz_init_set_str : string → Z
}.

(** [argv[i]]. *)
Definition arg (argv : list string) (i : nat) : string :=
  match argv !! i with
  | Some s => s
  | None => EmptyString
  end.

(** The command line as both [main] read it; [argc] is [length argv]. *)
Section CommandLine.
Context {P : Parsers}.

Definition DoOnlyPrimitives (argv : list string) : bool :=
  (length argv =? 5)%nat && String.eqb (arg argv 1) "-p".

Definition tuple_size (argv : list string) : Z :=
  atol (arg argv (if (length argv =? 4)%nat then 1 else 2)).

Definition user_b_min (argv : list string) : Z :=
  mpz_init_set_str (arg argv (if (length argv =? 4)%nat then 2 else 3)).

Definition user_b_max (argv : list string) : Z :=
  mpz_init_set_str (arg argv (if (length argv =? 4)%nat then 3 else 4)).
End CommandLine.

(** ** ptuples.cpp *)

Module Ptuples.

Definition MAXB : Z := 4294967294.

Definition usage : list out_item :=
  [Text newline;
   Text ("For a_1^2 + a_2^2 + ... = b^2 :" ++ newline);
   Text newline;
   Text ("Usage: ptuples [-p] tuple_size b_min b_max" ++ newline ++ newline ++ newline);
   Text ("Options:" ++ newline ++ newline);
   Text ("  -p -- primitive tuples only" ++ newline ++ newline ++ newline);
   Text ("eg.  For all primitive Pythagorean quadruples from 100 to 500, try:"
           ++ newline ++ newline);
   Text ("ptuples -p 4 100 500" ++ newline ++ newline)].

(** [NumDupsAhead]: how many entries after [curindex] repeat its a-values,
    each compared with the one before it. *)
Definition NumDupsAhead (the_table : ttable) (curindex : Z) : outcome Z :=
  do r <- while_loop (S (length the_table))
    (fun '(i, DupCount) =>
       if i <? count the_table - 1 then
         do e1 <- arr_get the_table i;
         do e2 <- arr_get the_table (i + 1);
         CheckForDuplicateTuple (a e1) (a e2) (Z.to_nat (a_count e1))
       else Ret false)
    (fun '(i, DupCount) => Ret (i + 1, DupCount + 1))
    (curindex, 0);
  Ret (snd r).

(** [RemDupTuples].  The loop state is the index, the table being emptied
    and the table being filled. *)
Definition RemDupTuples (the_table : ttable) : outcome ttable :=
  if count the_table <=? 1 then Ret the_table
  else
    let the_table := qsort ttable_tentry_cmpfunc the_table in
    do r <- while_loop (S (length the_table))
      (fun '(i, the_table, new_table) => Ret (i <? count the_table))
      (fun '(i, the_table, new_table) =>
         do skip <- NumDupsAhead the_table i;
         do e <- arr_get the_table i;
         let new_table := MovePTuple new_table (a e) (b e) in
         do the_table <- arr_set the_table i (moved_from e);
         Ret (i + skip + 1, the_table, new_table))
      (0, the_table, []);
    Ret (snd r).

(** The square table: [sqrs[i-1] = i*i] for [i] from 1 to [numsqrs], the
    product taken in [long] and stored as [uint64_t]. *)
Definition build_sqrs (numsqrs : Z) : list Z :=
  map (fun i => to_u64 (to_s64 (i * i))) (seqZ 1 numsqrs).

(** [SaveToTuple]. *)
Definition SaveToTuple (the_table : ttable) (sqrindextumbler : list Z) (bsqr : Z)
  : outcome ttable :=
  let avalues := map (fun x => to_u64 (x + 1)) sqrindextumbler in
  do b <- mpz_sqrt bsqr;
  Ret (MovePTuple the_table avalues b).

(** The state of the odometer loop of [BuildNTuples]. *)
Record odometer : Type := mk_odometer {
  od_i : Z;
  sqrindextumbler : list Z;
  subtotaltumbler : list Z;
  tmp_table : ttable
}.

(** The inner [for] loop: the subtotals of the tumblers from [i] up to, but
    not including, the last one. *)
Definition set_subtotals (sqrs : list Z) (lasttumbler : Z) (i : Z)
    (sqrindextumbler subtotaltumbler : list Z) : outcome (list Z) :=
  for_range (Z.to_nat (lasttumbler - i)) i
    (fun i subtotaltumbler =>
       do idx <- arr_get sqrindextumbler i;
       do sq <- arr_get sqrs idx;
       if 0 <? i then
         do prev <- arr_get subtotaltumbler (i - 1);
         arr_set subtotaltumbler i (sq + prev)
       else arr_set subtotaltumbler i sq)
    subtotaltumbler.

(** "optimization -- if first time, try to skip ahead": the index the last
    tumbler jumps to, when it does. *)
Definition skip_ahead (numsqrs b_min_sqr subtotal_prev : Z) : outcome (option Z) :=
  let tempZ := b_min_sqr - subtotal_prev in
  if 1 <=? tempZ then
    do r <- mpz_sqrt tempZ;
    let sqrindex := mpz_get_ui r in
    let sqrindex := if 0 <? sqrindex then to_u64 (sqrindex - 1) else sqrindex in
    let sqrindex := if numsqrs <=? sqrindex then to_u64 (numsqrs - 1) else sqrindex in
    Ret (Some sqrindex)
  else Ret None.

(** The carry loop: [while ( i >= 0 && sqrindextumbler[i] >= numsqrs )]. *)
Definition carry (numsqrs b_max_sqr : Z) (subtotaltumbler : list Z)
    (i : Z) (sqrindextumbler : list Z) : outcome (Z * list Z) :=
  while_loop (S (Z.to_nat (i + 1)))
    (fun '(i, sqrindextumbler) =>
       if 0 <=? i then
         do idx <- arr_get sqrindextumbler i;
         Ret (numsqrs <=? to_u64 idx)
       else Ret false)
    (fun '(i, sqrindextumbler) =>
       do sqrindextumbler <- arr_set sqrindextumbler i 0;
       let i := i - 1 in
       if 0 <=? i then
         do sub <- arr_get subtotaltumbler i;
         do idx <- arr_get sqrindextumbler i;
         do sqrindextumbler <-
           arr_set sqrindextumbler i
             (if b_max_sqr <? sub then to_s64 numsqrs else to_s64 (idx + 1));
         Ret (i, sqrindextumbler)
       else Ret (i, sqrindextumbler))
    (i, sqrindextumbler).

(** One turn of [for ( i = 0; i >= 0; )]. *)
Definition odometer_step (sqrs : list Z) (numsqrs lasttumbler b_min_sqr b_max_sqr : Z)
    (s : odometer) : outcome odometer :=
  let i := od_i s in
  let sqrindextumbler := sqrindextumbler s in
  do subtotaltumbler <- set_subtotals sqrs lasttumbler i sqrindextumbler (subtotaltumbler s);
  let i := Z.max i lasttumbler in
  (* set last subtotal *)
  do idx <- arr_get sqrindextumbler i;
  do sq <- arr_get sqrs idx;
  do prev <- arr_get subtotaltumbler (i - 1);
  do subtotaltumbler <- arr_set subtotaltumbler i (prev + sq);
  (* skip ahead *)
  do st <-
    (if idx =? 0 then
       do jump <- skip_ahead numsqrs b_min_sqr prev;
       match jump with
       | Some sqrindex =>
           do sqrindextumbler <- arr_set sqrindextumbler i (to_s64 sqrindex);
           do idx <- arr_get sqrindextumbler i;
           do sq <- arr_get sqrs idx;
           do subtotaltumbler <- arr_set subtotaltumbler i (prev + sq);
           Ret (sqrindextumbler, subtotaltumbler)
       | None => Ret (sqrindextumbler, subtotaltumbler)
       end
     else Ret (sqrindextumbler, subtotaltumbler));
  let '(sqrindextumbler, subtotaltumbler) := st in
  do total <- arr_get subtotaltumbler i;
  let islessthan_b_min := total <? b_min_sqr in
  let isgreaterthan_b_max := b_max_sqr <? total in
  do tmp_table <-
    (if negb (islessthan_b_min || isgreaterthan_b_max) && mpz_perfect_square_p total
     then SaveToTuple (tmp_table s) sqrindextumbler total
     else Ret (tmp_table s));
  do idx <- arr_get sqrindextumbler i;
  do sqrindextumbler <-
    arr_set sqrindextumbler i
      (if isgreaterthan_b_max then to_s64 numsqrs else to_s64 (idx + 1));
  do c <- carry numsqrs b_max_sqr subtotaltumbler i sqrindextumbler;
  let '(i, sqrindextumbler) := c in
  Ret (mk_odometer i sqrindextumbler subtotaltumbler tmp_table).

(** [BuildNTuples]: the output table and what was printed on the way. *)
Definition BuildNTuples (fuel : nat) (final_table : ttable) (DoOnlyPrimitives : bool)
    (b_min b_max : Z) (N : Z) : outcome (ttable * list out_item) :=
  let b_min_sqr := b_min * b_min in
  let b_max_sqr := b_max * b_max in
  let Amax := b_max - 1 in
  let numsqrs := mpz_get_ui Amax in
  let sqrs := build_sqrs numsqrs in
  let numtumblers := N - 1 in
  let lasttumbler := numtumblers - 1 in
  let zeros := replicate (Z.to_nat numtumblers) 0 in
  do s <- while_loop fuel
    (fun s => Ret (0 <=? od_i s))
    (odometer_step sqrs numsqrs lasttumbler b_min_sqr b_max_sqr)
    (mk_odometer 0 zeros zeros []);
  do tmp_table <- RemDupTuples (tmp_table s);
  Ret (move_to_final DoOnlyPrimitives tmp_table final_table).

Section Main.
Context {P : Parsers}.

(** [main]: the exit code and standard output. *)
Definition main (fuel : nat) (argv : list string) : outcome (Z * list out_item) :=
  let argc := length argv in
  if negb ((argc =? 4)%nat || (argc =? 5)%nat) then Ret (1, usage)
  else if tuple_size argv <? 3 then
    Ret (1, [Text (newline ++ "tuple size must be >= 3.  Aborting." ++ newline ++ newline)])
  else if user_b_min argv <? 1 then
    Ret (1, [Text (newline ++ "b_min must be >= 1.  Aborting." ++ newline ++ newline)])
  else if user_b_max argv <? user_b_min argv then
    Ret (1, [Text (newline ++ "b_min must be <= b_max.  Aborting." ++ newline ++ newline)])
  else if MAXB <? user_b_max argv then
    Ret (1, [Text (newline ++ "b_max must be <= 4294967294.  Aborting."
                     ++ newline ++ newline)])
  else
    do r <- BuildNTuples fuel [] (DoOnlyPrimitives argv)
              (user_b_min argv) (user_b_max argv) (tuple_size argv);
    let '(tuples, printed) := r in
    Ret (0, printed ++ print_tuples tuples).
End Main.

End Ptuples.

(** ** ptuples.cpp: the loads from the square table

    [sqrs[k]] is a load from the block [calloc (numsqrs, sizeof (uint64_t))],
    and C does not check [k].  In [Ptuples] a load at a [k] outside the
    table is [Fault].  [PtuplesRaw] is the same text with such a load giving
    the 64-bit word [beyond k] that the memory holds at that place, a word
    of which nothing is known.  The functions of [BuildNTuples] that do not
    read [sqrs] are those of [Ptuples]. *)

Module PtuplesRaw.

(** [sqrs[k]]. *)
Definition sqrs_load (beyond : Z → Z) (sqrs : list Z) (k : Z) : outcome Z :=
  match arr_get sqrs k with
  | Ret sq => Ret sq
  | _ => Ret (to_u64 (beyond k))
  end.

(** The inner [for] loop of the odometer. *)
Definition set_subtotals (beyond : Z → Z) (sqrs : list Z) (lasttumbler : Z) (i : Z)
    (sqrindextumbler subtotaltumbler : list Z) : outcome (list Z) :=
  for_range (Z.to_nat (lasttumbler - i)) i
    (fun i subtotaltumbler =>
       do idx <- arr_get sqrindextumbler i;
       do sq <- sqrs_load beyond sqrs idx;
       if 0 <? i then
         do prev <- arr_get subtotaltumbler (i - 1);
         arr_set subtotaltumbler i (sq + prev)
       else arr_set subtotaltumbler i sq)
    subtotaltumbler.

(** One turn of [for ( i = 0; i >= 0; )]. *)
Definition odometer_step (beyond : Z → Z) (sqrs : list Z)
    (numsqrs lasttumbler b_min_sqr b_max_sqr : Z)
    (s : Ptuples.odometer) : outcome Ptuples.odometer :=
  let i := Ptuples.od_i s in
  let sqrindextumbler := Ptuples.sqrindextumbler s in
  do subtotaltumbler <-
    set_subtotals beyond sqrs lasttumbler i sqrindextumbler (Ptuples.subtotaltumbler s);
  let i := Z.max i lasttumbler in
  (* set last subtotal *)
  do idx <- arr_get sqrindextumbler i;
  do sq <- sqrs_load beyond sqrs idx;
  do prev <- arr_get subtotaltumbler (i - 1);
  do subtotaltumbler <- arr_set subtotaltumbler i (prev + sq);
  (* skip ahead *)
  do st <-
    (if idx =? 0 then
       do jump <- Ptuples.skip_ahead numsqrs b_min_sqr prev;
       match jump with
       | Some sqrindex =>
           do sqrindextumbler <- arr_set sqrindextumbler i (to_s64 sqrindex);
           do idx <- arr_get sqrindextumbler i;
           do sq <- sqrs_load beyond sqrs idx;
           do subtotaltumbler <- arr_set subtotaltumbler i (prev + sq);
           Ret (sqrindextumbler, subtotaltumbler)
       | None => Ret (sqrindextumbler, subtotaltumbler)
       end
     else Ret (sqrindextumbler, subtotaltumbler));
  let '(sqrindextumbler, subtotaltumbler) := st in
  do total <- arr_get subtotaltumbler i;
  let islessthan_b_min := total <? b_min_sqr in
  let isgreaterthan_b_max := b_max_sqr <? total in
  do tmp_table <-
    (if negb (islessthan_b_min || isgreaterthan_b_max) && mpz_perfect_square_p total
     then Ptuples.SaveToTuple (Ptuples.tmp_table s) sqrindextumbler total
     else Ret (Ptuples.tmp_table s));
  do idx <- arr_get sqrindextumbler i;
  do sqrindextumbler <-
    arr_set sqrindextumbler i
      (if isgreaterthan_b_max then to_s64 numsqrs else to_s64 (idx + 1));
  do c <- Ptuples.carry numsqrs b_max_sqr subtotaltumbler i sqrindextumbler;
  let '(i, sqrindextumbler) := c in
  Ret (Ptuples.mk_odometer i sqrindextumbler subtotaltumbler tmp_table).

(** [BuildNTuples]. *)
Definition BuildNTuples (beyond : Z → Z) (fuel : nat) (final_table : ttable)
    (DoOnlyPrimitives : bool) (b_min b_max : Z) (N : Z)
  : outcome (ttable * list out_item) :=
  let b_min_sqr := b_min * b_min in
  let b_max_sqr := b_max * b_max in
  let Amax := b_max - 1 in
  let numsqrs := mpz_get_ui Amax in
  let sqrs := Ptuples.build_sqrs numsqrs in
  let numtumblers := N - 1 in
  let lasttumbler := numtumblers - 1 in
  let zeros := replicate (Z.to_nat numtumblers) 0 in
  do s <- while_loop fuel
    (fun s => Ret (0 <=? Ptuples.od_i s))
    (odometer_step beyond sqrs numsqrs lasttumbler b_min_sqr b_max_sqr)
    (Ptuples.mk_odometer 0 zeros zeros []);
  do tmp_table <- Ptuples.RemDupTuples (Ptuples.tmp_table s);
  Ret (move_to_final DoOnlyPrimitives tmp_table final_table).

Section Main.
Context {P : Parsers}.

(** [main]: the exit code and standard output. *)
Definition main (beyond : Z → Z) (fuel : nat) (argv : list string)
  : outcome (Z * list out_item) :=
  let argc := length argv in
  if negb ((argc =? 4)%nat || (argc =? 5)%nat) then Ret (1, Ptuples.usage)
  else if tuple_size argv <? 3 then
    Ret (1, [Text (newline ++ "tuple size must be >= 3.  Aborting." ++ newline ++ newline)])
  else if user_b_min argv <? 1 then
    Ret (1, [Text (newline ++ "b_min must be >= 1.  Aborting." ++ newline ++ newline)])
  else if user_b_max argv <? user_b_min argv then
    Ret (1, [Text (newline ++ "b_min must be <= b_max.  Aborting." ++ newline ++ newline)])
  else if Ptuples.MAXB <? user_b_max argv then
    Ret (1, [Text (newline ++ "b_max must be <= 4294967294.  Aborting."
                     ++ newline ++ newline)])
  else
    do r <- BuildNTuples beyond fuel [] (DoOnlyPrimitives argv)
              (user_b_min argv) (user_b_max argv) (tuple_size argv);
    let '(tuples, printed) := r in
    Ret (0, printed ++ print_tuples tuples).
End Main.

End PtuplesRaw.


(** ** Experimental/qkptuples.cpp *)

Module Qkptuples.

Definition usage : list out_item :=
  [Text newline;
   Text ("For a_1^2 + a_2^2 + ... = b^2 :" ++ newline);
   Text newline;
   Text ("Usage: qkptuples [-p] tuple_size b_min b_max" ++ newline ++ newline ++ newline);
   Text ("Options:" ++ newline ++ newline);
   Text ("  -p -- primitive tuples only" ++ newline ++ newline ++ newline);
   Text ("eg.  For some primitive Pythagorean quadruples from 100 to 500, try:"
           ++ newline ++ newline);
   Text ("qkptuples -p 4 100 500" ++ newline ++ newline)].

(** [AddPTriple]. *)
Definition AddPTriple (the_ttable : ttable) (a_0 a_1 b : Z) : ttable :=
  MovePTuple the_ttable [a_0; a_1] b.

(** [RemDupTuples].  Each entry is compared with the slot before it, as
    that slot is when the comparison is made: a slot whose entry has been
    moved to the new table holds [a_count = 0]. *)
Definition RemDupTuples (the_table : ttable) : outcome ttable :=
  if count the_table <=? 1 then Ret the_table
  else
    let the_table := qsort ttable_tentry_cmpfunc the_table in
    do r <- for_range (length the_table) 0
      (fun i '(the_table, new_table) =>
         do IsDuplicateTuple <-
           (if 0 <? i then
              do e1 <- arr_get the_table (i - 1);
              do e2 <- arr_get the_table i;
              CheckForDuplicateTuple (a e1) (a e2) (Z.to_nat (a_count e1))
            else Ret false);
         if IsDuplicateTuple : bool then Ret (the_table, new_table)
         else
           do e <- arr_get the_table i;
           let new_table := MovePTuple new_table (a e) (b e) in
           do the_table <- arr_set the_table i (moved_from e);
           Ret (the_table, new_table))
      (the_table, []);
    Ret (snd r).

(** libc's [bsearch], as the usual halving search over [[l, u)]: the index
    of an element that compares equal to the key, if it meets one. *)
Fixpoint bsearch_loop {A} (cmp : A → A → comparison) (key : A) (base : list A)
    (fuel : nat) (l u : nat) : option nat :=
  match fuel with
  | O => None
  | S fuel' =>
      if (l <? u)%nat then
        let idx := ((l + u) / 2)%nat in
        match base !! idx with
        | Some p =>
            match cmp key p with
            | Lt => bsearch_loop cmp key base fuel' l idx
            | Gt => bsearch_loop cmp key base fuel' (idx + 1)%nat u
            | Eq => Some idx
            end
        | None => None
        end
      else None
  end.

Definition bsearch {A} (cmp : A → A → comparison) (key : A) (base : list A) : option nat :=
  bsearch_loop cmp key base (S (length base)) 0%nat (length base).

(** The backward scan of [GetFirstBIndex]:
    [while ( index > 1 && tuples[index-1].b == B ) index--]. *)
Fixpoint scan_back (the_table : ttable) (B : Z) (index : nat) : nat :=
  match index with
  | S p =>
      match p with
      | S _ =>
          match the_table !! p with
          | Some e => if b e =? B then scan_back the_table B p else index
          | None => index
          end
      | O => index
      end
  | O => index
  end.

(** [GetFirstBIndex]: -1 when [bsearch] finds nothing. *)
Definition GetFirstBIndex (the_table : ttable) (B : Z) : Z :=
  match bsearch ttable_tentry_Bonly_cmpfunc (mk_tentry [] B) the_table with
  | Some found => Z.of_nat (scan_back the_table B found)
  | None => -1
  end.

(** The [k] loop of [Build3Tuples]: the multiples of a primitive triple. *)
Definition multiples (fuel : nat) (tuples : ttable) (a b c b_min b_max : Z)
  : outcome ttable :=
  if c =? 0 then Fault  (* mpz_fdiv_q divides by zero *)
  else
    let k := b_min / c in
    do r <- while_loop fuel
      (fun '(k, kc, tuples) => Ret (kc <=? b_max))
      (fun '(k, kc, tuples) =>
         let tuples :=
           if kc <? b_min then tuples
           else AddPTriple tuples (a * k) (b * k) kc in
         let k := k + 1 in
         Ret (k, c * k, tuples))
      (k, c * k, tuples);
    Ret (snd r).

(** The [m] loop of [Build3Tuples]. *)
Definition m_loop (fuel : nat) (tuples : ttable) (DoOnlyPrimitives : bool)
    (b_min b_max working_b_min n n_squared m m_max : Z) : outcome ttable :=
  do r <- while_loop fuel
    (fun '(m, tuples) => Ret (m <=? m_max))
    (fun '(m, tuples) =>
       if negb (Z.gcd m n =? 1) then Ret (m + 2, tuples)
       else
         let m_squared := m * m in
         let a := m_squared - n_squared in
         let b := m * n * 2 in
         let c := m_squared + n_squared in
         if c <? working_b_min then Ret (m + 2, tuples)
         else if b_max <? c then Ret (m + 2, tuples)
         else if DoOnlyPrimitives then Ret (m + 2, AddPTriple tuples a b c)
         else
           do tuples <- multiples fuel tuples a b c b_min b_max;
           Ret (m + 2, tuples))
    (m, tuples);
  Ret (snd r).

(** [Build3Tuples]: Euclid's formula, for [n] from 1 to [n_max]. *)
Definition Build3Tuples (fuel : nat) (tuples : ttable) (DoOnlyPrimitives : bool)
    (b_min b_max : Z) : outcome ttable :=
  let working_b_min := if DoOnlyPrimitives then b_min else 1 in
  do n_max <- mpz_sqrt (mpz_cdiv_q_2exp_1 b_max);
  for_range (Z.to_nat n_max) 1
    (fun n tuples =>
       let n_squared := n * n in
       (* compute m_min *)
       let m_min := working_b_min - n_squared in
       let m_min := if m_min <? 1 then 1 else m_min in
       do m_min <- mpz_sqrt m_min;
       let m_min := m_min - 1 in
       (* compute m_max *)
       let m_max := b_max - n_squared in
       let m_max := if m_max <? 1 then 1 else m_max in
       do m_max <- mpz_sqrt m_max;
       (* calc first value of m *)
       let m :=
         if n <? m_min then
           if (m_min - n) mod 2 =? 0 then m_min + 1 else m_min
         else n + 1 in
       m_loop fuel tuples DoOnlyPrimitives b_min b_max working_b_min n n_squared m m_max)
    tuples.

(** The a-values of a grown tuple: those of [avalues_old], with the one at
    [j] replaced by the two a-values [triple_a] of a triple. *)
Definition grow_avalues (new_acount : Z) (avalues_old : list Z) (j : Z)
    (triple_a : list Z) : outcome (list Z) :=
  let avalues := replicate (Z.to_nat new_acount) 0 in
  do avalues <- for_range (Z.to_nat j) 0
    (fun k avalues => do x <- arr_get avalues_old k; arr_set avalues k x) avalues;
  let k := j in
  do x <- arr_get triple_a 0;
  do avalues <- arr_set avalues k x;
  let k := k + 1 in
  do x <- arr_get triple_a 1;
  do avalues <- arr_set avalues k x;
  let k := k + 1 in
  for_range (Z.to_nat (new_acount - k)) k
    (fun k avalues => do x <- arr_get avalues_old (k - 1); arr_set avalues k x) avalues.

(** The body of the [do ... while] of [BuildNTuples]: the tuple grown with
    the triple at [index] is added, and [index] moves on. *)
Definition substitute_once (threetuple : ttable) (tsize : Z) (e : tentry) (j : Z)
    (s : Z * ttable) : outcome (Z * ttable) :=
  let '(index, beingbuilt_table) := s in
  let new_acount := tsize - 1 in
  do t <- arr_get threetuple index;
  do avalues <- grow_avalues new_acount (a e) j (a t);
  Ret (index + 1, MovePTuple beingbuilt_table avalues (b e)).

(** The [do ... while]: one grown tuple for each entry of the run of triples
    that starts at [index]. *)
Definition substitute (threetuple : ttable) (tsize : Z) (e : tentry) (j : Z)
    (index : Z) (beingbuilt_table : ttable) : outcome ttable :=
  do s <- substitute_once threetuple tsize e j (index, beingbuilt_table);
  do r <- while_loop (S (length threetuple))
    (fun '(index, beingbuilt_table) =>
       if index <? count threetuple then
         do aj <- arr_get (a e) j;
         do t <- arr_get threetuple index;
         Ret (aj =? b t)
       else Ret false)
    (substitute_once threetuple tsize e j) s;
  Ret (snd r).

(** The loops over the entries of [onesmaller_table] and their a-values:
    every tuple that one substitution makes. *)
Definition grow_candidates (threetuple : ttable) (tsize : Z) (onesmaller_table : ttable)
  : outcome ttable :=
  for_each onesmaller_table
    (fun e beingbuilt_table =>
       for_range (Z.to_nat (a_count e)) 0
         (fun j beingbuilt_table =>
            do aj <- arr_get (a e) j;
            let index := GetFirstBIndex threetuple aj in
            if 0 <=? index then substitute threetuple tsize e j index beingbuilt_table
            else Ret beingbuilt_table)
         beingbuilt_table)
    [].

(** One pass of "iterate through all tuple sizes": the table of tuples one
    larger than those of [onesmaller_table]. *)
Definition grow_table (threetuple : ttable) (tsize : Z) (onesmaller_table : ttable)
  : outcome ttable :=
  do beingbuilt_table <- grow_candidates threetuple tsize onesmaller_table;
  RemDupTuples beingbuilt_table.

(** [BuildNTuples]: the output table and what was printed on the way. *)
Definition BuildNTuples (fuel : nat) (tuples : ttable) (DoOnlyPrimitives : bool)
    (b_min b_max : Z) (N : Z) : outcome (ttable * list out_item) :=
  if N =? 3 then
    do tuples <- Build3Tuples fuel tuples DoOnlyPrimitives b_min b_max;
    Ret (qsort ttable_tentry_cmpfunc tuples, [])
  else
    let threetuple_min := 5 in
    do threetuple <- Build3Tuples fuel [] false threetuple_min b_max;
    let threetuple := qsort ttable_tentry_cmpfunc threetuple in
    (* Have to manually build the initial onesmaller table *)
    do onesmaller_table <-
      for_each threetuple
        (fun e onesmaller_table =>
           if b_min <=? b e then
             do a0 <- arr_get (a e) 0;
             do a1 <- arr_get (a e) 1;
             Ret (MovePTuple onesmaller_table [a0; a1] (b e))
           else Ret onesmaller_table)
        [];
    (* iterate through all tuple sizes; beingbuilt_table starts as NULL *)
    do tables <- for_range (Z.to_nat (N - 3)) 4
      (fun tsize '(onesmaller_table, beingbuilt_table) =>
         do onesmaller_table <-
           (if 4 <? tsize then
              match beingbuilt_table with
              | Some t => Ret t
              | None => Fault
              end
            else Ret onesmaller_table);
         do beingbuilt_table <- grow_table threetuple tsize onesmaller_table;
         Ret (onesmaller_table, Some beingbuilt_table))
      (onesmaller_table, None);
    match snd tables with
    | None => Fault
    | Some beingbuilt_table =>
        let '(tuples, printed) := move_to_final DoOnlyPrimitives beingbuilt_table tuples in
        Ret (qsort ttable_tentry_cmpfunc tuples, printed)
    end.

Section Main.
Context {P : Parsers}.

(** [main]: the exit code and standard output. *)
Definition main (fuel : nat) (argv : list string) : outcome (Z * list out_item) :=
  let argc := length argv in
  if negb ((argc =? 4)%nat || (argc =? 5)%nat) then Ret (1, usage)
  else if tuple_size argv <? 3 then
    Ret (1, [Text (newline ++ "tuple size must be >= 3.  Aborting." ++ newline ++ newline)])
  else if user_b_min argv <? 1 then
    Ret (1, [Text (newline ++ "b_min must be >= 1.  Aborting." ++ newline ++ newline)])
  else if user_b_max argv <? user_b_min argv then
    Ret (1, [Text (newline ++ "b_min must be <= b_max.  Aborting." ++ newline ++ newline)])
  else
    do r <- BuildNTuples fuel [] (DoOnlyPrimitives argv)
              (user_b_min argv) (user_b_max argv) (tuple_size argv);
    let '(tuples, printed) := r in
    Ret (0, printed ++ print_tuples tuples).
End Main.

End Qkptuples.

(** ** ptriples.cpp *)

Module Ptriples.

(** [struct tentry]: the two legs and the hypotenuse. *)
Record tentry : Type := mk_tentry { a : Z; b : Z; c : Z }.

(** [struct ttable]: the entries, in array order. *)
Definition ttable : Type := list tentry.

(** Standard output: a [printf] of fixed text, or the line [(a,b,c)] of one
    entry. *)
Inductive out_item : Type :=
| Text (s : string)
| TripleLine (e : tentry).

Definition usage : list out_item :=
  [Text newline;
   Text ("For a^2 + b^2 = c^2 :" ++ newline);
   Text newline;
   Text ("Usage: ptriples [-p] c_min c_max" ++ newline ++ newline ++ newline);
   Text ("Options:" ++ newline ++ newline);
   Text ("  -p -- primitive triples only" ++ newline ++ newline)].

(** [AddPTriple]: the table grows by one entry, with the smaller leg in
    [a] and the larger in [b]. *)
Definition AddPTriple (the_ttable : ttable) (a b c : Z) : ttable :=
  the_ttable ++ [mk_tentry (if a <? b then a else b) (if a <? b then b else a) c].

(** [ttable_entry_cmpfunc]: by [c], then by [b], then by [c] once more. *)
Definition ttable_entry_cmpfunc (entry1 entry2 : tentry) : comparison :=
  match c entry1 ?= c entry2 with
  | Eq =>
      match b entry1 ?= b entry2 with
      | Eq => c entry1 ?= c entry2
      | cmpval => cmpval
      end
  | cmpval => cmpval
  end.

(** The [k] loop of [main]: the multiples of a primitive triple. *)
Definition k_loop (fuel : nat) (triples : ttable) (a b c user_c_min user_c_max : Z)
  : outcome ttable :=
  if c =? 0 then Fault  (* mpz_fdiv_q divides by zero *)
  else
    let k := user_c_min / c in
    do r <- while_loop fuel
      (fun '(k, kc, triples) => Ret (kc <=? user_c_max))
      (fun '(k, kc, triples) =>
         let triples :=
           if kc <? user_c_min then triples
           else AddPTriple triples (a * k) (b * k) kc in
         let k := k + 1 in
         Ret (k, c * k, triples))
      (k, c * k, triples);
    Ret (snd r).

(** The [m] loop of [main]. *)
Definition m_loop (fuel : nat) (triples : ttable) (DoOnlyPrimitives : bool)
    (user_c_min user_c_max working_c_min n n_squared m m_max : Z) : outcome ttable :=
  do r <- while_loop fuel
    (fun '(m, triples) => Ret (m <=? m_max))
    (fun '(m, triples) =>
       if negb (Z.gcd m n =? 1) then Ret (m + 2, triples)
       else
         let m_squared := m * m in
         let a := m_squared - n_squared in
         let b := m * n * 2 in
         let c := m_squared + n_squared in
         if c <? working_c_min then Ret (m + 2, triples)
         else if user_c_max <? c then Ret (m + 2, triples)
         else if DoOnlyPrimitives then Ret (m + 2, AddPTriple triples a b c)
         else
           do triples <- k_loop fuel triples a b c user_c_min user_c_max;
           Ret (m + 2, triples))
    (m, triples);
  Ret (snd r).

(** The [n] loop of [main]: Euclid's formula, for [n] from 1 to [n_max]. *)
Definition n_loop (fuel : nat) (DoOnlyPrimitives : bool) (user_c_min user_c_max : Z)
  : outcome ttable :=
  let working_c_min := if DoOnlyPrimitives then user_c_min else 1 in
  do n_max <- mpz_sqrt (mpz_cdiv_q_2exp_1 user_c_max);
  for_range (Z.to_nat n_max) 1
    (fun n triples =>
       let n_squared := n * n in
       (* compute m_min *)
       let m_min := working_c_min - n_squared in
       let m_min := if m_min <? 1 then 1 else m_min in
       do m_min <- mpz_sqrt m_min;
       let m_min := m_min - 1 in
       (* compute m_max *)
       let m_max := user_c_max - n_squared in
       let m_max := if m_max <? 1 then 1 else m_max in
       do m_max <- mpz_sqrt m_max;
       (* calc first value of m *)
       let m :=
         if n <? m_min then
           if (m_min - n) mod 2 =? 0 then m_min + 1 else m_min
         else n + 1 in
       m_loop fuel triples DoOnlyPrimitives user_c_min user_c_max working_c_min
         n n_squared m m_max)
    [].

Section Main.
Context {P : Parsers}.

(** The command line as [main] reads it; [argc] is [length argv]. *)
Definition DoOnlyPrimitives (argv : list string) : bool :=
  (length argv =? 4)%nat && String.eqb (arg argv 1) "-p".

Definition user_c_min (argv : list string) : Z :=
  mpz_init_set_str (arg argv (if (length argv =? 3)%nat then 1 else 2)).

Definition user_c_max (argv : list string) : Z :=
  mpz_init_set_str (arg argv (if (length argv =? 3)%nat then 2 else 3)).

(** [main]: the exit code and standard output. *)
Definition main (fuel : nat) (argv : list string) : outcome (Z * list out_item) :=
  let argc := length argv in
  if negb ((argc =? 3)%nat || (argc =? 4)%nat) then Ret (1, usage)
  else if user_c_min argv <? 1 then
    Ret (1, [Text (newline ++ "c_min must be >= 1.  Aborting." ++ newline ++ newline)])
  else if user_c_max argv <? user_c_min argv then
    Ret (1, [Text (newline ++ "c_min must be <= c_max.  Aborting." ++ newline ++ newline)])
  else
    do triples <- n_loop fuel (DoOnlyPrimitives argv) (user_c_min argv) (user_c_max argv);
    let triples := qsort ttable_entry_cmpfunc triples in
    Ret (0, map TripleLine triples).
End Main.

End Ptriples.

(** The triples [ptriples] printed, in the order of their lines. *)
Definition printed_triples (out : list Ptriples.out_item) : Ptriples.ttable :=
  omap (fun item => match item with
                    | Ptriples.TripleLine e => Some e
                    | Ptriples.Text _ => None
                    end) out.

(** ** A command-line reader for the examples *)

(** [isspace] in the C locale: the space and the characters 9 to 13. *)
Definition isspace (c : ascii) : bool :=
  let n := nat_of_ascii c in
  (n =? 32)%nat || ((9 <=? n)%nat && (n <=? 13)%nat).

Fixpoint skip_spaces (s : string) : string :=
  match s with
  | String c s' => if isspace c then skip_spaces s' else s
  | EmptyString => s
  end.

(** The decimal digits up to the first other character. *)
Fixpoint parse_digits (s : string) (acc : Z) : Z :=
  match s with
  | EmptyString => acc
  | String c s' =>
      let d := Z.of_nat (nat_of_ascii c) - 48 in
      if (0 <=? d) && (d <=? 9) then parse_digits s' (10 * acc + d) else acc
  end.

(** [atol], which is [strtol (s, NULL, 10)]: white space, an optional sign
    and the digits up to the first other character; a value outside [long]
    becomes [LONG_MIN] or [LONG_MAX]. *)
Definition atol_decimal (s : string) : Z :=
  let v := match skip_spaces s with
           | String "-"%char s' => - parse_digits s' 0
           | String "+"%char s' => parse_digits s' 0
           | s' => parse_digits s' 0
           end in
  Z.max (- 2 ^ 63) (Z.min (2 ^ 63 - 1) v).

(** The digits of a numeral for GMP, which passes over white space between
    them; [None] at any other character. *)
Fixpoint mpz_digits (s : string) (acc : Z) : option Z :=
  match s with
  | EmptyString => Some acc
  | String c s' =>
      let d := Z.of_nat (nat_of_ascii c) - 48 in
      if isspace c then mpz_digits s' acc
      else if (0 <=? d) && (d <=? 9) then mpz_digits s' (10 * acc + d)
      else None
  end.

(** The value [mpz_init_set_str (x, s, 10)] leaves in [x]: white space, an
    optional minus sign, then a digit followed by digits and white space up
    to the end of the string.  Any other string is refused and [x] stays at
    the 0 it was initialised with. *)
Definition mpz_decimal (s : string) : Z :=
  let '(negative, s) :=
    match skip_spaces s with
    | String "-"%char s' => (true, s')
    | s' => (false, s')
    end in
  match s with
  | String c _ =>
      let d := Z.of_nat (nat_of_ascii c) - 48 in
      if (0 <=? d) && (d <=? 9) then
        match mpz_digits s 0 with
        | Some v => if negative : bool then - v else v
        | None => 0
        end
      else 0
  | EmptyString => 0
  end.

Definition decimal_parsers : Parsers :=
  {| atol := atol_decimal; mpz_init_set_str := mpz_decimal |}.


(** * The vocabulary of the properties *)

(** [x] may stand before [y] for the comparator [cmp]. *)
Definition cmp_le {A} (cmp : A → A → comparison) (x y : A) : Prop := cmp x y ≠ Gt.

(** The gcd of all the a-values together with [b]. *)
Definition gcd_all (avalues : list Z) (b : Z) : Z := foldr Z.gcd (Z.abs b) avalues.

(** The sum of the squares of the a-values. *)
Definition sum_squares (l : list Z) : Z := foldr (fun x acc => x * x + acc) 0 l.

(** An entry as the programs build it: [n] a-values in ascending order. *)
Definition canonical (n : nat) (e : tentry) : Prop :=
  length (a e) = n ∧ Sorted Z.le (a e).

(** An entry of a table of [n]-term a-vectors for the range
    [[b_min, b_max]]: [n] a-values, each at least [lo], in ascending order,
    whose squares sum to [b] squared, with [b] in the range. *)
Record tuple_ok (lo : Z) (n : nat) (b_min b_max : Z) (e : tentry) : Prop := {
  ok_length : length (a e) = n;
  ok_sorted : Sorted Z.le (a e);
  ok_lower : Forall (fun x => lo ≤ x) (a e);
  ok_squares : sum_squares (a e) = b e * b e;
  ok_range : b_min ≤ b e ≤ b_max
}.

(** Lexicographic order of a-vectors. *)
Fixpoint lex_le (x y : list Z) : Prop :=
  match x, y with
  | [], _ => True
  | _ :: _, [] => False
  | u :: x', v :: y' => u < v ∨ (u = v ∧ lex_le x' y')
  end.

(** By [b] ascending, then by a-vector lexicographically ascending. *)
Definition tentry_le (e1 e2 : tentry) : Prop :=
  b e1 < b e2 ∨ (b e1 = b e2 ∧ lex_le (a e1) (a e2)).

(** The entries a program printed, in the order of their lines. *)
Definition printed_tuples (out : list out_item) : ttable :=
  omap (fun item => match item with TupleLine e => Some e | Text _ => None end) out.

(** The entries of a sorted table that survive deduplication: an entry is
    dropped when its a-values are those of the entry before it, so the
    first entry of each run of equal a-vectors is kept. *)
Fixpoint dedup_from (prev : list Z) (l : ttable) : ttable :=
  match l with
  | [] => []
  | e :: l' =>
      if decide (a e = prev) then dedup_from prev l' else e :: dedup_from (a e) l'
  end.

Definition dedup_runs (l : ttable) : ttable :=
  match l with
  | [] => []
  | e :: l' => e :: dedup_from (a e) l'
  end.

(** The number of entries at the front of [l] whose a-values are [prev]. *)
Fixpoint run_len (prev : list Z) (l : ttable) : nat :=
  match l with
  | [] => 0
  | e :: l' => if decide (a e = prev) then S (run_len prev l') else 0
  end.

(** The sum of squares that a list of tumbler indices stands for: index
    [x] selects the a-value [x + 1]. *)
Definition digits_sum (idx : list Z) : Z := sum_squares (map (fun x => x + 1) idx).

(** The subtotals of the tumblers below [upto] are the sums of the squares
    selected so far, and the indices there are inside the square table. *)
Definition consistent (numsqrs : Z) (idx sub : list Z) (upto : Z) : Prop :=
  ∀ k : nat, Z.of_nat k < upto →
    ∃ x, idx !! k = Some x ∧ 0 ≤ x < numsqrs ∧
         sub !! k = Some (digits_sum (take (S k) idx)).

(** The invariant of the odometer loop. *)
Record od_inv (numsqrs : Z) (T : nat) (b_min b_max : Z) (s : Ptuples.odometer) : Prop := {
  inv_idx_len : length (Ptuples.sqrindextumbler s) = T;
  inv_sub_len : length (Ptuples.subtotaltumbler s) = T;
  inv_i : Ptuples.od_i s < Z.of_nat T;
  inv_consistent :
    consistent numsqrs (Ptuples.sqrindextumbler s) (Ptuples.subtotaltumbler s)
      (Ptuples.od_i s);
  inv_table : Forall (tuple_ok 1 T b_min b_max) (Ptuples.tmp_table s)
}.

(** The tumbler indices read as a number in base [B], the first tumbler
    being the most significant digit. *)
Definition value (B : Z) (idx : list Z) : Z := foldl (fun acc d => acc * B + d) 0 idx.

(** A state from which a turn of the odometer loop runs without fault:
    arrays of [T] tumblers, every index inside the square table of [B]
    entries. *)
Record od_ready (B : Z) (T : nat) (s : Ptuples.odometer) : Prop := {
  rdy_idx_len : length (Ptuples.sqrindextumbler s) = T;
  rdy_sub_len : length (Ptuples.subtotaltumbler s) = T;
  rdy_i : -1 ≤ Ptuples.od_i s < Z.of_nat T;
  rdy_digits : Forall (fun x => 0 ≤ x < B) (Ptuples.sqrindextumbler s)
}.

Global Instance tentry_eq_dec : EqDecision tentry.
Proof. solve_decision. Defined.

(** The Pythagorean triples with hypotenuse at most 25, in the order of the
    output. *)
Definition triples_to_25 : ttable :=
  [ mk_tentry [3; 4] 5; mk_tentry [6; 8] 10; mk_tentry [5; 12] 13;
    mk_tentry [9; 12] 15; mk_tentry [8; 15] 17; mk_tentry [12; 16] 20;
    mk_tentry [7; 24] 25; mk_tentry [15; 20] 25 ].

Definition triple_listed (a1 a2 b : Z) : bool :=
  implb ((a1 <=? a2) && (a1 * a1 + a2 * a2 =? b * b))
        (bool_decide (mk_tentry [a1; a2] b ∈ triples_to_25)).

(** The triples with hypotenuse from 5 to 17, as the approximate engine
    holds them (sorted) when it is asked for 4-tuples up to 17. *)
Definition triples_5_to_17 : ttable :=
  [ mk_tentry [3; 4] 5; mk_tentry [6; 8] 10; mk_tentry [5; 12] 13;
    mk_tentry [9; 12] 15; mk_tentry [8; 15] 17 ].

(** ** The order in which the odometer visits the index vectors *)

(** [d] comes before [idx]: the two agree up to some tumbler, where [d]
    has the smaller index. *)
Definition before (d idx : list Z) : Prop :=
  ∃ (j : nat) (x y : Z),
    take j d = take j idx ∧ d !! j = Some x ∧ idx !! j = Some y ∧ x < y.

(** An index vector of [T] tumblers into a table of [B] squares. *)
Definition in_table (B : Z) (T : nat) (d : list Z) : Prop :=
  length d = T ∧ Forall (fun x => 0 ≤ x < B) d.

(** The index vectors that the odometer loop saves: the squares they
    select sum to a perfect square in [[b_min^2, b_max^2]]. *)
Definition hit (b_min b_max : Z) (d : list Z) : Prop :=
  b_min * b_min ≤ digits_sum d ≤ b_max * b_max ∧
  mpz_perfect_square_p (digits_sum d) = true.

(** The table entry of an index vector. *)
Definition entry_of (d : list Z) : tentry :=
  mk_tentry (qsort tentry_avalues_cmpfunc (map (fun x => x + 1) d))
            (Z.sqrt (digits_sum d)).

(** Every hit before [idx] is in the table. *)
Definition covered (B : Z) (T : nat) (b_min b_max : Z) (idx : list Z) (tmp : ttable)
  : Prop :=
  ∀ d, in_table B T d → before d idx → hit b_min b_max d → entry_of d ∈ tmp.

(** Every hit is in the table. *)
Definition covered_all (B : Z) (T : nat) (b_min b_max : Z) (tmp : ttable) : Prop :=
  ∀ d, in_table B T d → hit b_min b_max d → entry_of d ∈ tmp.

(** An entry of the table of [ptriples]: legs in ascending order, the
    smaller at least 3, a Pythagorean triple with [c] in the range. *)
Record triple_ok (c_min c_max : Z) (e : Ptriples.tentry) : Prop := {
  tr_lower : 3 ≤ Ptriples.a e;
  tr_order : Ptriples.a e ≤ Ptriples.b e;
  tr_squares : Ptriples.a e * Ptriples.a e + Ptriples.b e * Ptriples.b e
               = Ptriples.c e * Ptriples.c e;
  tr_range : c_min ≤ Ptriples.c e ≤ c_max
}.

(** By [c] ascending, then by [b] ascending. *)
Definition triple_le (e1 e2 : Ptriples.tentry) : Prop :=
  Ptriples.c e1 < Ptriples.c e2 ∨
  (Ptriples.c e1 = Ptriples.c e2 ∧ Ptriples.b e1 ≤ Ptriples.b e2).

(** What the loops of [ptriples] hand to [AddPTriple]: [k] times the
    triple of Euclid's formula for [m > n >= 1] with [gcd (m, n) = 1] and
    [m - n] odd, with [k = 1] in primitive mode. *)
Definition euclid_triple (prim : bool) (c_min c_max : Z) (a0 b0 c0 : Z) : Prop :=
  ∃ m n k,
    1 ≤ n ∧ n < m ∧ Z.gcd m n = 1 ∧ Z.odd (m - n) = true ∧
    1 ≤ k ∧ (prim = true → k = 1) ∧
    a0 = (m * m - n * n) * k ∧ b0 = m * n * 2 * k ∧ c0 = (m * m + n * n) * k ∧
    c_min ≤ c0 ≤ c_max.

(** * Properties *)

(** ** The outcome monad and the loops *)

Lemma bind_Ret {A B} (m : outcome A) (k : A → outcome B) (y : B) :
  bind m k = Ret y → ∃ x, m = Ret x ∧ k x = Ret y.
Proof. destruct m; simpl; intros H; try discriminate; eauto. Qed.

(** [inv_bind H] splits a hypothesis [do x <- m; k = Ret y] into [m = Ret x]
    and [k x = Ret y]. *)
Ltac inv_bind H :=
  let x := fresh "x" in
  let Hx := fresh "Hx" in
  apply bind_Ret in H as (x & Hx & H).

Tactic Notation "inv_bind_as" hyp(H) ident(x) ident(Hx) :=
  apply bind_Ret in H as (x & Hx & H).

(** The loop rule: an invariant kept by the body holds at the exit, where
    the condition is false. *)
Lemma while_loop_inv {St : Type} (I : St → Prop) (cond : St → outcome bool)
    (body : St → outcome St) :
  (∀ s s', I s → cond s = Ret true → body s = Ret s' → I s') →
  ∀ fuel s s', I s → while_loop fuel cond body s = Ret s' → I s' ∧ cond s' = Ret false.
Proof.
  intros Hbody fuel. induction fuel as [|fuel IH]; intros s s' Hs Hrun; simpl in Hrun.
  - discriminate.
  - inv_bind Hrun. destruct x.
    + inv_bind Hrun. eauto.
    + injection Hrun as <-. auto.
Qed.

Lemma for_range_inv {St : Type} (I : Z → St → Prop) (body : Z → St → outcome St) :
  ∀ n start s s',
    (∀ i s s', start ≤ i < start + Z.of_nat n → I i s → body i s = Ret s' → I (i + 1) s') →
    I start s → for_range n start body s = Ret s' → I (start + Z.of_nat n) s'.
Proof.
  induction n as [|n IH]; intros start s s' Hbody Hs Hrun; simpl in Hrun.
  - injection Hrun as <-. by rewrite Z.add_0_r.
  - inv_bind Hrun.
    replace (start + Z.of_nat (S n)) with (start + 1 + Z.of_nat n) by lia.
    eapply IH; [|eapply Hbody; [|exact Hs|exact Hx]|exact Hrun]; [|lia].
    intros i s1 s2 Hi. apply Hbody. lia.
Qed.

Lemma for_each_inv {A St : Type} (I : St → Prop) (body : A → St → outcome St) :
  ∀ l s s',
    (∀ x s s', x ∈ l → I s → body x s = Ret s' → I s') →
    I s → for_each l body s = Ret s' → I s'.
Proof.
  induction l as [|x l IH]; intros s s' Hbody Hs Hrun; simpl in Hrun.
  - by injection Hrun as <-.
  - inv_bind Hrun. eapply IH; [|eapply Hbody; [|exact Hs|exact Hx]|exact Hrun].
    + intros y s1 s2 Hy. apply Hbody. by right.
    + by left.
Qed.

Lemma arr_get_Ret {A} (l : list A) i x :
  arr_get l i = Ret x ↔ 0 ≤ i ∧ l !! Z.to_nat i = Some x.
Proof.
  unfold arr_get. destruct (Z.ltb_spec i 0).
  - split; [discriminate | lia].
  - destruct (l !! Z.to_nat i); split; intros H1; try discriminate.
    + injection H1 as ->. auto.
    + destruct H1 as [_ [= ->]]. done.
    + destruct H1 as [_ [=]].
Qed.

Lemma arr_set_Ret {A} (l l' : list A) i x :
  arr_set l i x = Ret l' ↔ 0 ≤ i < Z.of_nat (length l) ∧ l' = <[Z.to_nat i := x]> l.
Proof.
  unfold arr_set.
  destruct (Z.leb_spec 0 i), (Z.ltb_spec i (Z.of_nat (length l))); simpl;
    split; intros H1; try discriminate; try lia.
  - injection H1 as <-. auto.
  - destruct H1 as [_ ->]. done.
Qed.

(** ** The square table *)

Lemma to_u64_s64 z : to_u64 (to_s64 z) = to_u64 z.
Proof.
  unfold to_u64, to_s64, two64.
  rewrite Zminus_mod_idemp_l. f_equal. lia.
Qed.

Lemma to_u64_small z : 0 ≤ z < two64 → to_u64 z = z.
Proof. intros. unfold to_u64. by apply Z.mod_small. Qed.

Lemma to_s64_small z : - 2 ^ 63 ≤ z < 2 ^ 63 → to_s64 z = z.
Proof. intros. unfold to_s64, two64. rewrite Z.mod_small; lia. Qed.

Lemma mpz_get_ui_small z : 0 ≤ z < two64 → mpz_get_ui z = z.
Proof. intros. unfold mpz_get_ui. rewrite Z.abs_eq by lia. by apply Z.mod_small. Qed.

Lemma length_build_sqrs numsqrs : length (Ptuples.build_sqrs numsqrs) = Z.to_nat numsqrs.
Proof. unfold Ptuples.build_sqrs. by rewrite length_map, length_seqZ. Qed.

Lemma lookup_build_sqrs numsqrs k sq :
  numsqrs < 2 ^ 32 →
  Ptuples.build_sqrs numsqrs !! k = Some sq →
  Z.of_nat k < numsqrs ∧ sq = (Z.of_nat k + 1) * (Z.of_nat k + 1).
Proof.
  intros Hn. unfold Ptuples.build_sqrs. rewrite list_lookup_fmap.
  destruct (seqZ 1 numsqrs !! k) as [i|] eqn:Hi; simpl; [|discriminate].
  apply lookup_seqZ in Hi as [-> Hk]. intros [= <-]. split; [done|].
  rewrite to_u64_s64, to_u64_small; [lia|].
  unfold two64. nia.
Qed.

Lemma build_sqrs_lookup numsqrs k :
  numsqrs < 2 ^ 32 → Z.of_nat k < numsqrs →
  Ptuples.build_sqrs numsqrs !! k = Some ((Z.of_nat k + 1) * (Z.of_nat k + 1)).
Proof.
  intros Hn Hk. unfold Ptuples.build_sqrs. rewrite list_lookup_fmap.
  rewrite lookup_seqZ_lt by done. simpl. f_equal.
  rewrite to_u64_s64, to_u64_small; [lia|]. unfold two64. nia.
Qed.

(** C10. For every [b_max] that [main] accepts, the square table has
    [b_max - 1] entries and holds exactly [i * i] at index [i - 1] for every
    [i] from 1 to [b_max - 1]: the product is below 2^64, so the 64-bit
    arithmetic of the loop loses nothing. *)
Theorem sqrs_table_exact (b_max i : Z) :
  1 ≤ b_max ≤ Ptuples.MAXB →
  1 ≤ i ≤ b_max - 1 →
  mpz_get_ui (b_max - 1) = b_max - 1 ∧
  length (Ptuples.build_sqrs (mpz_get_ui (b_max - 1))) = Z.to_nat (b_max - 1) ∧
  i * i < two64 ∧
  to_u64 (to_s64 (i * i)) = i * i ∧
  Ptuples.build_sqrs (mpz_get_ui (b_max - 1)) !! Z.to_nat (i - 1) = Some (i * i).
Proof.
  unfold Ptuples.MAXB. intros Hb Hi.
  assert (Hn : mpz_get_ui (b_max - 1) = b_max - 1).
  { apply mpz_get_ui_small. unfold two64. lia. }
  assert (Hsq : i * i < two64) by (unfold two64; nia).
  split; [done|]. rewrite Hn, length_build_sqrs.
  split; [done|]. split; [done|]. split.
  - rewrite to_u64_s64. apply to_u64_small. split; [nia|done].
  - rewrite build_sqrs_lookup by lia.
    by replace (Z.of_nat (Z.to_nat (i - 1)) + 1) with i by lia.
Qed.

Lemma sqrs_table_exact_witness :
  mpz_get_ui (25 - 1) = 25 - 1 ∧
  length (Ptuples.build_sqrs (mpz_get_ui (25 - 1))) = Z.to_nat (25 - 1) ∧
  7 * 7 < two64 ∧
  to_u64 (to_s64 (7 * 7)) = 7 * 7 ∧
  Ptuples.build_sqrs (mpz_get_ui (25 - 1)) !! Z.to_nat (7 - 1) = Some (7 * 7).
Proof. apply (sqrs_table_exact 25 7); unfold Ptuples.MAXB; lia. Defined.

(** ** TupleIsPrimitive *)

Lemma gcd_loop_spec rest : ∀ g b,
  (let '(g', ip) := gcd_loop rest g (g =? 1) in
   if ip then true else Z.gcd g' b =? 1) = (Z.gcd g (foldr Z.gcd (Z.abs b) rest) =? 1).
Proof.
  induction rest as [|ai rest IH]; intros g b; simpl.
  - destruct (Z.eqb_spec g 1) as [->|Hg].
    + by rewrite Z.gcd_1_l.
    + by rewrite Z.gcd_abs_r.
  - destruct (Z.eqb_spec g 1) as [->|Hg].
    + by rewrite Z.gcd_1_l.
    + rewrite IH. by rewrite Z.gcd_assoc.
Qed.

(** With two or more a-values nothing is printed. *)
Lemma TupleIsPrimitive_silent (avalues : list Z) (b : Z) :
  (2 ≤ length avalues)%nat → snd (TupleIsPrimitive avalues b) = [].
Proof.
  destruct avalues as [|a0 [|a1 rest]]; simpl; try lia. intros _.
  by destruct (gcd_loop rest (Z.gcd a0 a1) (Z.gcd a0 a1 =? 1)).
Qed.

(** C5. With at least two a-values [TupleIsPrimitive] answers "primitive"
    exactly when the gcd of all the a-values and [b] is 1, and prints
    nothing; with fewer it prints the internal error and answers "not
    primitive". *)
Theorem TupleIsPrimitive_correct (avalues : list Z) (b : Z) :
  ((2 ≤ length avalues)%nat →
     (fst (TupleIsPrimitive avalues b) = true ↔ gcd_all avalues b = 1) ∧
     snd (TupleIsPrimitive avalues b) = []) ∧
  ((length avalues < 2)%nat →
     TupleIsPrimitive avalues b = (false, [Text internal_error_text])).
Proof.
  split.
  - destruct avalues as [|a0 [|a1 rest]]; simpl; try lia. intros _.
    pose proof (gcd_loop_spec rest (Z.gcd a0 a1) b) as Hspec.
    destruct (gcd_loop rest (Z.gcd a0 a1) (Z.gcd a0 a1 =? 1)) as [g' ip]. simpl.
    split; [|done]. unfold gcd_all. simpl.
    rewrite Z.gcd_assoc, Hspec. apply Z.eqb_eq.
  - destruct avalues as [|a0 [|a1 rest]]; simpl; try done. lia.
Qed.

(** ** The skip-ahead of the odometer *)

(** C7. When the last tumbler jumps from index 0 to [sqrindex], every index
    [k] it jumps over gives, with the subtotal of the tumblers before it, a
    sum of squares below [b_min] squared: no combination with a sum in
    [[b_min^2, b_max^2]] is skipped. *)
Theorem skip_ahead_below_b_min (b_min b_max subtotal_prev sqrindex k sq : Z) :
  1 ≤ b_min ≤ b_max →
  b_max ≤ Ptuples.MAXB →
  Ptuples.skip_ahead (mpz_get_ui (b_max - 1)) (b_min * b_min) subtotal_prev
    = Ret (Some sqrindex) →
  0 ≤ k < sqrindex →
  Ptuples.build_sqrs (mpz_get_ui (b_max - 1)) !! Z.to_nat k = Some sq →
  subtotal_prev + sq < b_min * b_min ∧
  ¬ (b_min * b_min ≤ subtotal_prev + sq ≤ b_max * b_max).
Proof.
  unfold Ptuples.MAXB. intros Hb Hmax Hskip Hk Hsq.
  rewrite mpz_get_ui_small in * by (unfold two64; lia).
  apply lookup_build_sqrs in Hsq as [Hkn ->]; [|lia].
  rewrite Z2Nat.id in * by lia.
  unfold Ptuples.skip_ahead in Hskip.
  destruct (Z.leb_spec 1 (b_min * b_min - subtotal_prev)) as [Ht|Ht]; [|discriminate].
  unfold mpz_sqrt in Hskip.
  destruct (Z.ltb_spec (b_min * b_min - subtotal_prev) 0); [lia|]. simpl in Hskip.
  injection Hskip as Hskip.
  set (r := Z.sqrt (b_min * b_min - subtotal_prev)) in *.
  assert (Hr : r * r ≤ b_min * b_min - subtotal_prev).
  { pose proof (Z.sqrt_spec (b_min * b_min - subtotal_prev) ltac:(lia)) as Hs.
    cbv zeta in Hs. unfold r. lia. }
  assert (Hr0 : 0 ≤ r) by apply Z.sqrt_nonneg.
  assert (Hu : 0 ≤ mpz_get_ui r ≤ r).
  { unfold mpz_get_ui. rewrite Z.abs_eq by done.
    pose proof (Z.mod_pos_bound r two64). pose proof (Z.mod_le r two64).
    unfold two64 in *. lia. }
  assert (Hu64 : mpz_get_ui r < two64).
  { unfold mpz_get_ui. apply Z.mod_pos_bound. by unfold two64. }
  set (u := mpz_get_ui r) in *.
  assert (Hk1 : k + 1 ≤ r - 1).
  { destruct (Z.ltb_spec 0 u) as [Hpos|Hpos].
    - rewrite (to_u64_small (u - 1)) in Hskip by lia.
      destruct (Z.leb_spec (b_max - 1) (u - 1)).
      + rewrite to_u64_small in Hskip by (unfold two64; lia). lia.
      + lia.
    - destruct (Z.leb_spec (b_max - 1) u).
      + rewrite to_u64_small in Hskip by (unfold two64; lia). lia.
      + lia. }
  assert ((k + 1) * (k + 1) < r * r) by nia.
  lia.
Qed.

Lemma skip_ahead_below_b_min_witness :
  1 + 16 < 10 * 10 ∧ ¬ (10 * 10 ≤ 1 + 16 ≤ 25 * 25).
Proof.
  apply (skip_ahead_below_b_min 10 25 1 8 3 16);
    first [ reflexivity | unfold Ptuples.MAXB; lia ].
Defined.

(** ** The exhaustive engine on small ranges *)

Lemma triples_to_25_complete_in_range (a1 a2 b : Z) :
  1 ≤ a1 ≤ 25 → 1 ≤ a2 ≤ 25 → 1 ≤ b ≤ 25 →
  a1 ≤ a2 → a1 * a1 + a2 * a2 = b * b → mk_tentry [a1; a2] b ∈ triples_to_25.
Proof.
  assert (Hall : forallb (fun a1 => forallb (fun a2 => forallb (fun b =>
            triple_listed a1 a2 b) (seqZ 1 25)) (seqZ 1 25)) (seqZ 1 25) = true)
    by (by vm_compute).
  assert (Hin : ∀ x, 1 ≤ x ≤ 25 → In x (seqZ 1 25)).
  { intros x Hx. apply list_elem_of_In, elem_of_seqZ. lia. }
  intros H1 H2 H3 Hle Heq.
  rewrite forallb_forall in Hall. specialize (Hall a1 (Hin _ H1)).
  rewrite forallb_forall in Hall. specialize (Hall a2 (Hin _ H2)).
  rewrite forallb_forall in Hall. specialize (Hall b (Hin _ H3)).
  unfold triple_listed in Hall.
  destruct (Z.leb_spec a1 a2); [|lia].
  destruct (Z.eqb_spec (a1 * a1 + a2 * a2) (b * b)); [|lia].
  simpl in Hall. by apply bool_decide_eq_true in Hall.
Qed.

Lemma triples_to_25_sound : 
  Forall (fun e => ∃ a1 a2, a e = [a1; a2] ∧ 1 ≤ a1 ≤ a2 ∧ 1 ≤ b e ≤ 25 ∧
                            a1 * a1 + a2 * a2 = b e * b e) triples_to_25.
Proof. repeat constructor; simpl; eexists _, _; (split; [reflexivity|lia]). Qed.

(** C2. In non-primitive mode, with tuple size 3, [b_min = 1] and
    [b_max = 25], the exhaustive engine returns the table [triples_to_25],
    and that table holds exactly the triples [a1 <= a2], [b] in [[1, 25]]
    with [a1^2 + a2^2 = b^2]; (3,4,5), (6,8,10), (5,12,13), (9,12,15),
    (8,15,17), (12,16,20), (15,20,25) and (7,24,25) are its entries. *)
Theorem exhaustive_triples_to_25 :
  Ptuples.BuildNTuples 1000 [] false 1 25 3 = Ret (triples_to_25, []) ∧
  (∀ a1 a2 b : Z,
     mk_tentry [a1; a2] b ∈ triples_to_25 ↔
     1 ≤ a1 ≤ a2 ∧ 1 ≤ b ≤ 25 ∧ a1 * a1 + a2 * a2 = b * b) ∧
  (∀ e, e ∈ triples_to_25 → ∃ a1 a2, a e = [a1; a2]) ∧
  Forall (fun e => e ∈ triples_to_25)
    [ mk_tentry [3; 4] 5; mk_tentry [6; 8] 10; mk_tentry [5; 12] 13;
      mk_tentry [9; 12] 15; mk_tentry [8; 15] 17; mk_tentry [12; 16] 20;
      mk_tentry [15; 20] 25; mk_tentry [7; 24] 25 ].
Proof.
  split; [by vm_compute|]. split; [|split].
  - intros a1 a2 b0. split.
    + intros Hin. pose proof triples_to_25_sound as Hs.
      rewrite Forall_forall in Hs. destruct (Hs _ Hin) as (x1 & x2 & Ha & H1 & H2 & H3).
      simpl in *. injection Ha as -> ->. done.
    + intros (Ha & Hb & Heq).
      assert (a2 < b0) by nia.
      apply triples_to_25_complete_in_range; lia.
  - intros e Hin. pose proof triples_to_25_sound as Hs.
    rewrite Forall_forall in Hs. destruct (Hs _ Hin) as (x1 & x2 & Ha & _). eauto.
  - repeat constructor; apply bool_decide_unpack; by vm_compute.
Qed.

(** ** qsort *)

Section QSort.
Context {A : Type} (cmp : A → A → comparison).

Lemma qsort_insert_perm x l : qsort_insert cmp x l ≡ₚ x :: l.
Proof.
  induction l as [|y l IH]; simpl; [done|].
  destruct (cmp x y); try done.
  rewrite IH. apply Permutation_swap.
Qed.

Lemma qsort_perm l : qsort cmp l ≡ₚ l.
Proof.
  induction l as [|x l IH]; simpl; [done|].
  by rewrite qsort_insert_perm, IH.
Qed.

Lemma length_qsort l : length (qsort cmp l) = length l.
Proof. apply Permutation_length, qsort_perm. Qed.

Lemma qsort_Forall (P : A → Prop) l : Forall P l → Forall P (qsort cmp l).
Proof. intros H. by rewrite qsort_perm. Qed.

Lemma qsort_elem_of x l : x ∈ qsort cmp l ↔ x ∈ l.
Proof. by rewrite qsort_perm. Qed.

(** A sorted array is left as it is. *)
Lemma qsort_insert_HdRel x l : HdRel (cmp_le cmp) x l → qsort_insert cmp x l = x :: l.
Proof.
  destruct l as [|y l]; simpl; [done|].
  intros H. apply HdRel_inv in H. unfold cmp_le in H. by destruct (cmp x y).
Qed.

Lemma qsort_sorted_id l : Sorted (cmp_le cmp) l → qsort cmp l = l.
Proof.
  induction 1 as [|x l Hs IH Hhd]; simpl; [done|].
  rewrite IH. by apply qsort_insert_HdRel.
Qed.

Hypothesis cmp_total : ∀ x y, cmp x y = Gt → cmp y x ≠ Gt.

Lemma qsort_insert_Sorted x l : Sorted (cmp_le cmp) l → Sorted (cmp_le cmp) (qsort_insert cmp x l).
Proof.
  induction 1 as [|y l Hs IH Hhd]; simpl.
  - repeat constructor.
  - destruct (cmp x y) eqn:Hc.
    + constructor; [by constructor|]. constructor. unfold cmp_le. congruence.
    + constructor; [by constructor|]. constructor. unfold cmp_le. congruence.
    + constructor; [done|].
      destruct l as [|z l]; simpl.
      * constructor. by apply cmp_total.
      * apply HdRel_inv in Hhd. destruct (cmp x z); constructor;
          first [ by apply cmp_total | done ].
Qed.

Lemma qsort_Sorted l : Sorted (cmp_le cmp) (qsort cmp l).
Proof.
  induction l as [|x l IH]; simpl; [constructor|]. by apply qsort_insert_Sorted.
Qed.

(** The contract of [qsort] determines its result when the comparator is
    a total order: a sorted rearrangement of the same elements is the
    result of [qsort]. *)
Lemma qsort_unique l l' :
  (∀ x y z, cmp x y ≠ Gt → cmp y z ≠ Gt → cmp x z ≠ Gt) →
  (∀ x y, cmp x y ≠ Gt → cmp y x ≠ Gt → x = y) →
  l' ≡ₚ l → Sorted (cmp_le cmp) l' → l' = qsort cmp l.
Proof.
  intros Htrans Hanti Hperm Hsorted.
  assert (Transitive (cmp_le cmp)) by (intros x y z; apply Htrans).
  assert (AntiSymm (=) (cmp_le cmp)) by (intros x y; apply Hanti).
  apply (Sorted_unique (cmp_le cmp)); [done|apply qsort_Sorted|].
  by rewrite qsort_perm.
Qed.
End QSort.

Lemma Sorted_weaken {A} (R1 R2 : A → A → Prop) l :
  (∀ x y, R1 x y → R2 x y) → Sorted R1 l → Sorted R2 l.
Proof.
  intros HR. induction 1 as [|x l Hs IH Hhd]; constructor; [done|].
  destruct Hhd; constructor. by apply HR.
Qed.

Lemma avalue_cmp_le x y : cmp_le tentry_avalues_cmpfunc x y ↔ x ≤ y.
Proof.
  unfold cmp_le, tentry_avalues_cmpfunc.
  destruct (Z.compare_spec x y); split; intros; try done; lia.
Qed.

Lemma Sorted_avalue_cmp_le l : Sorted (cmp_le tentry_avalues_cmpfunc) l ↔ Sorted Z.le l.
Proof.
  split; apply Sorted_weaken; intros x y; apply avalue_cmp_le.
Qed.

(** The a-values of an entry are in ascending order after [MovePTuple]. *)
Lemma qsort_avalues_Sorted l : Sorted Z.le (qsort tentry_avalues_cmpfunc l).
Proof.
  apply Sorted_avalue_cmp_le, qsort_Sorted.
  unfold tentry_avalues_cmpfunc. intros x y Hxy Hyx.
  apply Z.compare_gt_iff in Hxy, Hyx. lia.
Qed.

Lemma qsort_avalues_id l : Sorted Z.le l → qsort tentry_avalues_cmpfunc l = l.
Proof. intros H. by apply qsort_sorted_id, Sorted_avalue_cmp_le. Qed.

Lemma avalues_cmp_loop_opp a1 : ∀ a2,
  avalues_cmp_loop a2 a1 = CompOpp (avalues_cmp_loop a1 a2).
Proof.
  induction a1 as [|x a1 IH]; intros [|y a2]; simpl; try done.
  rewrite (Z.compare_antisym x y). destruct (x ?= y); simpl; auto.
Qed.

Lemma ttable_tentry_cmpfunc_opp e1 e2 :
  ttable_tentry_cmpfunc e2 e1 = CompOpp (ttable_tentry_cmpfunc e1 e2).
Proof.
  unfold ttable_tentry_cmpfunc. rewrite (Z.compare_antisym (b e1) (b e2)).
  destruct (b e1 ?= b e2); simpl; auto using avalues_cmp_loop_opp.
Qed.

Lemma ttable_tentry_cmpfunc_total e1 e2 :
  ttable_tentry_cmpfunc e1 e2 = Gt → ttable_tentry_cmpfunc e2 e1 ≠ Gt.
Proof. rewrite (ttable_tentry_cmpfunc_opp e1 e2). by intros ->. Qed.

Lemma qsort_table_Sorted t :
  Sorted (cmp_le ttable_tentry_cmpfunc) (qsort ttable_tentry_cmpfunc t).
Proof. apply qsort_Sorted, ttable_tentry_cmpfunc_total. Qed.

(** ** Deduplication *)

Lemma bind_intro {A B} (m : outcome A) (k : A → outcome B) x y :
  m = Ret x → k x = y → bind m k = y.
Proof. by intros -> <-. Qed.

Lemma dedup_from_run prev l :
  dedup_from prev l = match drop (run_len prev l) l with
                      | [] => []
                      | e :: l' => e :: dedup_from (a e) l'
                      end.
Proof.
  induction l as [|e l IH]; simpl; [done|].
  destruct (decide (a e = prev)); simpl; done.
Qed.

Lemma dedup_runs_cons e l :
  dedup_runs (e :: l) = e :: dedup_runs (drop (run_len (a e) l) l).
Proof. simpl. f_equal. apply dedup_from_run. Qed.

Lemma run_len_le prev l : (run_len prev l ≤ length l)%nat.
Proof. induction l as [|e l IH]; simpl; [lia|]. destruct (decide _); simpl; lia. Qed.

Lemma CheckForDuplicateTuple_eq a1 : ∀ a2,
  length a1 = length a2 →
  CheckForDuplicateTuple a1 a2 (length a1) = Ret (bool_decide (a1 = a2)).
Proof.
  induction a1 as [|x a1 IH]; intros [|y a2] Hlen; simpl in *; try done.
  destruct (Z.eqb_spec x y) as [->|Hne].
  - rewrite IH by lia. f_equal. apply bool_decide_ext. split; congruence.
  - f_equal. symmetry. apply bool_decide_eq_false. congruence.
Qed.

Lemma drop_cons_lookup {A} (l : list A) k x rest :
  drop k l = x :: rest → l !! k = Some x ∧ drop (S k) l = rest ∧ (k < length l)%nat.
Proof.
  intros H. assert (Hx : l !! k = Some x).
  { rewrite <- (Nat.add_0_r k), <- lookup_drop, H. done. }
  split; [done|]. split.
  - apply drop_S in Hx. congruence.
  - by apply lookup_lt_Some in Hx.
Qed.

Lemma arr_get_nat {A} (l : list A) k x : l !! k = Some x → arr_get l (Z.of_nat k) = Ret x.
Proof. intros H. apply arr_get_Ret. rewrite Nat2Z.id. split; [lia|done]. Qed.

Lemma arr_get_at {A} (l : list A) z k x :
  z = Z.of_nat k → l !! k = Some x → arr_get l z = Ret x.
Proof. intros ->. apply arr_get_nat. Qed.

Lemma a_count_nat e : Z.to_nat (a_count e) = length (a e).
Proof. unfold a_count. apply Nat2Z.id. Qed.

Lemma NumDupsAhead_loop n tbl : ∀ fuel k d e rest,
  drop k tbl = e :: rest →
  Forall (fun e => length (a e) = n) (e :: rest) →
  (length rest < fuel)%nat →
  while_loop fuel
    (fun '(i, DupCount) =>
       if i <? count tbl - 1 then
         do e1 <- arr_get tbl i;
         do e2 <- arr_get tbl (i + 1);
         CheckForDuplicateTuple (a e1) (a e2) (Z.to_nat (a_count e1))
       else Ret false)
    (fun '(i, DupCount) => Ret (i + 1, DupCount + 1))
    (Z.of_nat k, d)
  = Ret (Z.of_nat k + Z.of_nat (run_len (a e) rest), d + Z.of_nat (run_len (a e) rest)).
Proof.
  induction fuel as [|fuel IH]; intros k d e rest Hdrop Hn Hfuel; [lia|].
  apply drop_cons_lookup in Hdrop as (He & Hrest & Hk).
  assert (Hcount : count tbl = Z.of_nat k + 1 + Z.of_nat (length rest)).
  { unfold count. rewrite <- Hrest, length_drop. lia. }
  simpl. destruct rest as [|e2 rest]; simpl.
  - destruct (Z.ltb_spec (Z.of_nat k) (count tbl - 1)); [simpl in *; lia|].
    simpl. f_equal. f_equal; lia.
  - destruct (Z.ltb_spec (Z.of_nat k) (count tbl - 1)); [|simpl in *; lia].
    apply drop_cons_lookup in Hrest as (He2 & Hrest & Hk2).
    rewrite (arr_get_nat _ _ _ He). cbn [bind].
    rewrite (arr_get_at _ _ (S k) e2) by (lia || done). cbn [bind].
    rewrite a_count_nat.
    apply Forall_cons in Hn as [Hne Hn]. pose proof Hn as Hn'.
    apply Forall_cons in Hn' as [Hne2 _].
    rewrite CheckForDuplicateTuple_eq by congruence. cbn [bind run_len].
    destruct (decide (a e2 = a e)) as [Heq|Hneq].
    + rewrite bool_decide_eq_true_2 by done. cbn [bind].
      replace (Z.of_nat k + 1) with (Z.of_nat (S k)) by lia.
      rewrite (IH (S k) (d + 1) e2 rest);
        [|by rewrite (drop_S _ _ _ He2), Hrest|done|simpl in *; lia].
      rewrite Heq. f_equal. f_equal; lia.
    + rewrite bool_decide_eq_false_2 by done. f_equal. f_equal; lia.
Qed.

Lemma NumDupsAhead_run n tbl k e rest :
  drop k tbl = e :: rest →
  Forall (fun e => length (a e) = n) (e :: rest) →
  Ptuples.NumDupsAhead tbl (Z.of_nat k) = Ret (Z.of_nat (run_len (a e) rest)).
Proof.
  intros Hdrop Hn. unfold Ptuples.NumDupsAhead.
  rewrite (NumDupsAhead_loop n tbl _ k 0 e rest Hdrop Hn); [done|].
  apply drop_cons_lookup in Hdrop as (_ & <- & _). rewrite length_drop. lia.
Qed.

Lemma MovePTuple_canonical n nt e :
  canonical n e → MovePTuple nt (a e) (b e) = nt ++ [e].
Proof.
  intros [_ Hs]. unfold MovePTuple. rewrite qsort_avalues_id by done. by destruct e.
Qed.

Lemma RemDupTuples_loop n : ∀ fuel k tbl nt suffix,
  drop k tbl = suffix →
  Forall (canonical n) suffix →
  (length suffix < fuel)%nat →
  ∃ i' tbl',
    while_loop fuel
      (fun '(i, the_table, new_table) => Ret (i <? count the_table))
      (fun '(i, the_table, new_table) =>
         do skip <- Ptuples.NumDupsAhead the_table i;
         do e <- arr_get the_table i;
         let new_table := MovePTuple new_table (a e) (b e) in
         do the_table <- arr_set the_table i (moved_from e);
         Ret (i + skip + 1, the_table, new_table))
      (Z.of_nat k, tbl, nt)
    = Ret (i', tbl', nt ++ dedup_runs suffix).
Proof.
  induction fuel as [|fuel IH]; intros k tbl nt suffix Hdrop Hwf Hfuel; [lia|].
  cbn [while_loop bind]. destruct suffix as [|e rest].
  - assert (length tbl ≤ k)%nat.
    { apply (f_equal length) in Hdrop. rewrite length_drop in Hdrop. simpl in *. lia. }
    destruct (Z.ltb_spec (Z.of_nat k) (count tbl)); [unfold count in *; lia|].
    cbn [dedup_runs]. rewrite app_nil_r. eauto.
  - pose proof Hdrop as Hdrop'.
    apply drop_cons_lookup in Hdrop' as (He & Hrest & Hk).
    destruct (Z.ltb_spec (Z.of_nat k) (count tbl)); [|unfold count in *; lia].
    rewrite (NumDupsAhead_run n tbl k e rest Hdrop);
      [|eapply Forall_impl; [exact Hwf|by intros ? [? _]]].
    cbn [bind]. rewrite (arr_get_nat _ _ _ He). cbn [bind].
    apply Forall_cons in Hwf as [Hwe Hwf].
    rewrite (MovePTuple_canonical n) by done.
    assert (Hset : arr_set tbl (Z.of_nat k) (moved_from e) = Ret (<[k:=moved_from e]> tbl)).
    { apply arr_set_Ret. rewrite Nat2Z.id. split; [lia|done]. }
    rewrite Hset. cbn [bind].
    set (r := run_len (a e) rest).
    replace (Z.of_nat k + Z.of_nat r + 1) with (Z.of_nat (S k + r)) by lia.
    destruct (IH (S k + r)%nat (<[k:=moved_from e]> tbl) (nt ++ [e]) (drop r rest))
      as (i' & tbl' & Hrun).
    + rewrite drop_insert_lt by lia. rewrite <- Hrest. by rewrite drop_drop.
    + by apply Forall_drop.
    + rewrite length_drop. simpl in Hfuel. lia.
    + exists i', tbl'. rewrite dedup_runs_cons. rewrite <- app_assoc in Hrun. exact Hrun.
Qed.

(** The pass of [ptuples.cpp] over a table of canonical entries of one
    arity: it returns the first entry of every run of the sorted table. *)
Lemma Ptuples_RemDupTuples_spec n (t : ttable) :
  Forall (canonical n) t →
  Ptuples.RemDupTuples t = Ret (dedup_runs (qsort ttable_tentry_cmpfunc t)).
Proof.
  intros Hwf. unfold Ptuples.RemDupTuples.
  destruct (Z.leb_spec (count t) 1) as [Hc|Hc].
  - destruct t as [|e [|e' t]]; try done. unfold count in Hc. simpl in Hc. lia.
  - destruct (RemDupTuples_loop n (S (length (qsort ttable_tentry_cmpfunc t))) 0
                (qsort ttable_tentry_cmpfunc t) [] (qsort ttable_tentry_cmpfunc t))
      as (i' & tbl' & Hrun); [done|by apply qsort_Forall|lia|].
    eapply bind_intro; [exact Hrun|done].
Qed.

(** ** Well-formed entries *)

Lemma sum_squares_app l1 l2 : sum_squares (l1 ++ l2) = sum_squares l1 + sum_squares l2.
Proof. induction l1 as [|x l1 IH]; simpl; [done|]. rewrite IH. lia. Qed.

Lemma sum_squares_perm l1 l2 : l1 ≡ₚ l2 → sum_squares l1 = sum_squares l2.
Proof. induction 1; simpl; lia. Qed.

Lemma tuple_ok_canonical lo n b_min b_max e : tuple_ok lo n b_min b_max e → canonical n e.
Proof. intros []. by split. Qed.

Lemma MovePTuple_ok lo n b_min b_max t avalues b0 :
  Forall (tuple_ok lo n b_min b_max) t →
  length avalues = n →
  Forall (fun x => lo ≤ x) avalues →
  sum_squares avalues = b0 * b0 →
  b_min ≤ b0 ≤ b_max →
  Forall (tuple_ok lo n b_min b_max) (MovePTuple t avalues b0).
Proof.
  intros Ht Hlen Hlo Hsq Hb. unfold MovePTuple. apply Forall_app. split; [done|].
  apply Forall_singleton. split; simpl.
  - by rewrite length_qsort.
  - apply qsort_avalues_Sorted.
  - by apply qsort_Forall.
  - by rewrite (sum_squares_perm _ _ (qsort_perm _ _)).
  - done.
Qed.

Lemma MovePTuple_entry_ok lo n b_min b_max t e :
  Forall (tuple_ok lo n b_min b_max) t →
  tuple_ok lo n b_min b_max e →
  Forall (tuple_ok lo n b_min b_max) (MovePTuple t (a e) (b e)).
Proof. intros Ht []. by apply MovePTuple_ok. Qed.

(** The last loop of [BuildNTuples]: the output is the table it started
    with, followed by some of the working entries in their order; nothing
    is printed when every entry has two a-values or more. *)
Lemma move_to_final_spec lo n b_min b_max prim tmp : ∀ final acc,
  (2 ≤ n)%nat →
  Forall (tuple_ok lo n b_min b_max) tmp →
  ∃ kept, sublist kept tmp ∧
    fold_left
      (fun '(final_table, printed) e =>
         if prim : bool then
           let '(IsPrimitive, p) := TupleIsPrimitive (a e) (b e) in
           if IsPrimitive : bool then (MovePTuple final_table (a e) (b e), printed ++ p)
           else (final_table, printed ++ p)
         else (MovePTuple final_table (a e) (b e), printed))
      tmp (final, acc) = (final ++ kept, acc).
Proof.
  induction tmp as [|e tmp IH]; intros final acc Hn Hok.
  - exists []. simpl. by rewrite app_nil_r.
  - apply Forall_cons in Hok as [He Hok]. simpl.
    pose proof (MovePTuple_canonical n final e (tuple_ok_canonical _ _ _ _ _ He)) as Hmove.
    pose proof (TupleIsPrimitive_silent (a e) (b e)) as Hnil.
    specialize (Hnil ltac:(destruct He; lia)).
    destruct (TupleIsPrimitive (a e) (b e)) as [ip p]. simpl in Hnil. subst p.
    rewrite app_nil_r, Hmove.
    destruct prim; [destruct ip|].
    + destruct (IH (final ++ [e]) acc Hn Hok) as (kept & Hsub & ->).
      exists (e :: kept). split; [by constructor|]. by rewrite <- app_assoc.
    + destruct (IH final acc Hn Hok) as (kept & Hsub & ->).
      exists kept. split; [by constructor|done].
    + destruct (IH (final ++ [e]) acc Hn Hok) as (kept & Hsub & ->).
      exists (e :: kept). split; [by constructor|]. by rewrite <- app_assoc.
Qed.

Lemma move_to_final_sublist lo n b_min b_max prim tmp :
  (2 ≤ n)%nat →
  Forall (tuple_ok lo n b_min b_max) tmp →
  ∃ kept, sublist kept tmp ∧ move_to_final prim tmp [] = (kept, []).
Proof.
  intros Hn Hok. unfold move_to_final.
  destruct (move_to_final_spec lo n b_min b_max prim tmp [] [] Hn Hok) as (kept & Hs & ->).
  eauto.
Qed.

Lemma dedup_from_sublist prev l : sublist (dedup_from prev l) l.
Proof.
  revert prev. induction l as [|e l IH]; intros prev; simpl; [constructor|].
  destruct (decide _); by constructor.
Qed.

Lemma dedup_runs_sublist l : sublist (dedup_runs l) l.
Proof. destruct l; simpl; constructor. apply dedup_from_sublist. Qed.

(** ** Build3Tuples *)

Lemma AddPTriple_ok b_min b_max t a0 a1 c :
  Forall (tuple_ok 3 2 b_min b_max) t →
  3 ≤ a0 → 3 ≤ a1 → a0 * a0 + a1 * a1 = c * c → b_min ≤ c ≤ b_max →
  Forall (tuple_ok 3 2 b_min b_max) (Qkptuples.AddPTriple t a0 a1 c).
Proof.
  intros Ht H0 H1 Hsq Hc. apply MovePTuple_ok; try done.
  - by repeat constructor.
  - simpl. lia.
Qed.

Lemma multiples_ok fuel tuples a0 a1 c b_min b_max t' :
  1 ≤ b_min → 0 < c → 3 ≤ a0 → 3 ≤ a1 → a0 * a0 + a1 * a1 = c * c →
  Forall (tuple_ok 3 2 b_min b_max) tuples →
  Qkptuples.multiples fuel tuples a0 a1 c b_min b_max = Ret t' →
  Forall (tuple_ok 3 2 b_min b_max) t'.
Proof.
  intros Hmin Hc H0 H1 Hsq Ht Hrun. unfold Qkptuples.multiples in Hrun.
  destruct (Z.eqb_spec c 0); [lia|]. inv_bind Hrun. injection Hrun as <-.
  apply (while_loop_inv
           (fun '(k, kc, t) => kc = c * k ∧ Forall (tuple_ok 3 2 b_min b_max) t)) in Hx.
  - destruct x as [[k kc] t]. by destruct Hx as [[_ ?] _].
  - intros [[k kc] t] s' [-> Hok] Hcond Hbody.
    injection Hcond as Hcond. injection Hbody as <-. split; [done|].
    destruct (Z.ltb_spec (c * k) b_min); [done|].
    apply Z.leb_le in Hcond.
    assert (1 ≤ k) by nia.
    apply AddPTriple_ok; [done|nia|nia|nia|lia].
  - done.
Qed.

Lemma m_loop_ok fuel tuples prim b_min b_max n m m_max t' :
  1 ≤ b_min → 1 ≤ n → n < m →
  Forall (tuple_ok 3 2 b_min b_max) tuples →
  Qkptuples.m_loop fuel tuples prim b_min b_max (if prim then b_min else 1)
    n (n * n) m m_max = Ret t' →
  Forall (tuple_ok 3 2 b_min b_max) t'.
Proof.
  intros Hmin Hn Hm Ht Hrun. unfold Qkptuples.m_loop in Hrun.
  inv_bind Hrun. injection Hrun as <-.
  apply (while_loop_inv
           (fun '(m, t) => n < m ∧ Forall (tuple_ok 3 2 b_min b_max) t)) in Hx.
  - destruct x as [m' t]. by destruct Hx as [[_ ?] _].
  - intros [m2 t] s' [Hm2 Hok] _ Hbody.
    destruct (negb (Z.gcd m2 n =? 1)).
    { injection Hbody as <-. split; [lia|done]. }
    destruct (Z.ltb_spec (m2 * m2 + n * n) (if prim then b_min else 1)).
    { injection Hbody as <-. split; [lia|done]. }
    destruct (Z.ltb_spec b_max (m2 * m2 + n * n)).
    { injection Hbody as <-. split; [lia|done]. }
    assert (3 ≤ m2 * m2 - n * n) by nia.
    assert (3 ≤ m2 * n * 2) by nia.
    assert ((m2 * m2 - n * n) * (m2 * m2 - n * n) + m2 * n * 2 * (m2 * n * 2)
            = (m2 * m2 + n * n) * (m2 * m2 + n * n)) by ring.
    destruct prim.
    + injection Hbody as <-. split; [lia|]. apply AddPTriple_ok; try done; lia.
    + inv_bind Hbody. injection Hbody as <-. split; [lia|].
      eapply multiples_ok; [| | | | |exact Hok|exact Hx0]; try done; nia.
  - done.
Qed.

Lemma mpz_sqrt_Ret z r : mpz_sqrt z = Ret r → 0 ≤ z ∧ r = Z.sqrt z.
Proof.
  unfold mpz_sqrt. destruct (Z.ltb_spec z 0); [done|]. intros [= <-]. done.
Qed.

Lemma Build3Tuples_ok fuel tuples prim b_min b_max t' :
  1 ≤ b_min →
  Forall (tuple_ok 3 2 b_min b_max) tuples →
  Qkptuples.Build3Tuples fuel tuples prim b_min b_max = Ret t' →
  Forall (tuple_ok 3 2 b_min b_max) t'.
Proof.
  intros Hmin Ht Hrun. unfold Qkptuples.Build3Tuples in Hrun. inv_bind Hrun.
  apply (for_range_inv (fun n t => Forall (tuple_ok 3 2 b_min b_max) t)) in Hrun;
    [done| |done].
  intros n t t1 Hn Hok Hbody.
  inv_bind Hbody. inv_bind Hbody.
  apply mpz_sqrt_Ret in Hx0 as [_ ->].
  eapply m_loop_ok; [done| | |exact Hok|exact Hbody]; [lia|].
  match goal with |- n < (if ?c then _ else _) => destruct c eqn:Hc end; [|lia].
  apply Z.ltb_lt in Hc. destruct (_ =? 0); lia.
Qed.

(** ** GetFirstBIndex *)

Lemma bsearch_loop_found {A} (cmp : A → A → comparison) key base :
  ∀ fuel l u idx,
    Qkptuples.bsearch_loop cmp key base fuel l u = Some idx →
    ∃ p, base !! idx = Some p ∧ cmp key p = Eq.
Proof.
  induction fuel as [|fuel IH]; intros l u idx Hrun; [done|].
  cbn [Qkptuples.bsearch_loop] in Hrun.
  destruct (l <? u)%nat; [|done].
  destruct (base !! ((l + u) / 2)%nat) as [p|] eqn:Hp; [|done].
  destruct (cmp key p) eqn:Hc; eauto.
  injection Hrun as <-. eauto.
Qed.

Lemma scan_back_spec the_table B : ∀ index e,
  the_table !! index = Some e → b e = B →
  ∃ e', the_table !! Qkptuples.scan_back the_table B index = Some e' ∧ b e' = B.
Proof.
  induction index as [|p IH]; intros e He Hb; [simpl; eauto|].
  destruct p as [|p']; [simpl; eauto|].
  cbn [Qkptuples.scan_back].
  destruct (the_table !! S p') as [e1|] eqn:He1; [|eauto].
  destruct (Z.eqb_spec (b e1) B); eauto.
Qed.

(** A non-negative result of [GetFirstBIndex] is the index of an entry
    whose [b] is the value searched for. *)
Lemma GetFirstBIndex_found the_table B :
  0 ≤ Qkptuples.GetFirstBIndex the_table B →
  ∃ t, the_table !! Z.to_nat (Qkptuples.GetFirstBIndex the_table B) = Some t ∧ b t = B.
Proof.
  unfold Qkptuples.GetFirstBIndex, Qkptuples.bsearch.
  destruct (Qkptuples.bsearch_loop _ _ _ _ _ _) as [found|] eqn:Hs; [|lia].
  intros _. apply bsearch_loop_found in Hs as (p & Hp & Hc).
  unfold ttable_tentry_Bonly_cmpfunc in Hc. simpl in Hc. apply Z.compare_eq in Hc.
  rewrite Nat2Z.id. by apply (scan_back_spec _ _ _ p).
Qed.

(** ** Growing a tuple *)

(** A loop that copies [src[f k]] to [dst[k]] for [k] in [[start, start + n)]. *)
Lemma copy_loop (src : list Z) (f : Z → Z) : ∀ n start dst dst',
  for_range n (Z.of_nat start)
    (fun k dst => do x <- arr_get src (f k); arr_set dst k x) dst = Ret dst' →
  length dst' = length dst ∧
  (∀ i, (start ≤ i < start + n)%nat →
        0 ≤ f (Z.of_nat i) ∧ is_Some (src !! Z.to_nat (f (Z.of_nat i))) ∧
        dst' !! i = src !! Z.to_nat (f (Z.of_nat i))) ∧
  (∀ i, ¬ (start ≤ i < start + n)%nat → dst' !! i = dst !! i).
Proof.
  induction n as [|n IH]; intros start dst dst' Hrun; simpl in Hrun.
  - injection Hrun as <-. split; [done|]. split; [lia|done].
  - inv_bind Hrun. inv_bind Hx.
    apply arr_get_Ret in Hx0 as [Hf Hsrc].
    apply arr_set_Ret in Hx as [Hstart ->].
    replace (Z.of_nat start + 1) with (Z.of_nat (S start)) in Hrun by lia.
    apply IH in Hrun as (Hlen & Hin & Hout).
    rewrite length_insert in Hlen. rewrite Nat2Z.id in *.
    split; [done|]. split.
    + intros i Hi. destruct (decide (i = start)) as [->|Hne].
      * rewrite Hout by lia. rewrite list_lookup_insert_eq by lia.
        rewrite Hsrc. eauto.
      * apply Hin. lia.
    + intros i Hi. rewrite Hout by lia. apply list_lookup_insert_ne. lia.
Qed.

(** The three loops of the substitution give the old a-values with the one
    at [j] replaced by the two a-values of the triple. *)
Lemma grow_avalues_spec avalues_old (j : nat) t0 t1 avalues :
  Qkptuples.grow_avalues (Z.of_nat (S (length avalues_old))) avalues_old (Z.of_nat j) [t0; t1]
    = Ret avalues →
  (j < length avalues_old)%nat →
  avalues = take j avalues_old ++ [t0; t1] ++ drop (S j) avalues_old.
Proof.
  intros Hrun Hj. unfold Qkptuples.grow_avalues in Hrun.
  inv_bind_as Hrun av1 Hloop1. inv_bind_as Hrun x0 Hx0. injection Hx0 as <-.
  inv_bind_as Hrun av2 Hset0. inv_bind_as Hrun x1 Hx1. injection Hx1 as <-.
  inv_bind_as Hrun av3 Hset1.
  rewrite !Nat2Z.id in Hloop1.
  apply (copy_loop avalues_old (fun k => k) j 0) in Hloop1 as (Hlen1 & Hin1 & Hout1).
  rewrite length_replicate in Hlen1.
  apply arr_set_Ret in Hset0 as [_ ->]. apply arr_set_Ret in Hset1 as [_ ->].
  replace (Z.of_nat j + 1 + 1) with (Z.of_nat (S (S j))) in Hrun by lia.
  apply (copy_loop avalues_old (fun k => k - 1)) in Hrun as (Hlen2 & Hin2 & Hout2).
  rewrite !length_insert in Hlen2.
  replace (Z.to_nat (Z.of_nat j + 1)) with (S j) in * by lia.
  rewrite Nat2Z.id in *.
  replace (Z.to_nat (Z.of_nat (S (length avalues_old)) - Z.of_nat (S (S j))))
    with (length avalues_old - S j)%nat in * by lia.
  apply list_eq. intros i.
  destruct (decide (i < j)%nat) as [Hlt|Hge].
  - rewrite Hout2 by lia. rewrite !list_lookup_insert_ne by lia.
    destruct (Hin1 i ltac:(lia)) as (_ & _ & ->). rewrite Nat2Z.id.
    rewrite lookup_app_l by (rewrite length_take; lia).
    by rewrite lookup_take_lt.
  - rewrite lookup_app_r by (rewrite length_take; lia).
    rewrite length_take, Nat.min_l by lia.
    destruct (decide (i = j)) as [->|Hne].
    { rewrite Hout2 by lia. rewrite list_lookup_insert_ne by lia.
      rewrite list_lookup_insert_eq by (rewrite Hlen1; lia).
      by rewrite Nat.sub_diag. }
    destruct (decide (i = S j)) as [->|Hne2].
    { rewrite Hout2 by lia.
      rewrite list_lookup_insert_eq by (rewrite length_insert, Hlen1; lia).
      by replace (S j - j)%nat with 1%nat by lia. }
    destruct (decide (i < S (length avalues_old))%nat) as [Hin|Hout].
    + destruct (Hin2 i ltac:(lia)) as (_ & _ & ->).
      replace (Z.to_nat (Z.of_nat i - 1)) with (i - 1)%nat by lia.
      replace (i - j)%nat with (S (S (i - j - 2))) by lia. simpl.
      rewrite lookup_drop. f_equal. lia.
    + rewrite Hout2 by lia. rewrite !list_lookup_insert_ne by lia.
      rewrite Hout1 by lia.
      transitivity (@None Z); [apply lookup_replicate_None; lia|].
      symmetry. apply lookup_ge_None. simpl. rewrite length_drop. lia.
Qed.

Lemma grown_tuple_ok b_min b_max hi n e (j : nat) aj t avalues :
  tuple_ok 3 n b_min b_max e →
  tuple_ok 3 2 5 hi t →
  a e !! j = Some aj → b t = aj →
  Qkptuples.grow_avalues (Z.of_nat n + 2 - 1) (a e) (Z.of_nat j) (a t) = Ret avalues →
  length avalues = S n ∧ Forall (fun x => 3 ≤ x) avalues ∧
  sum_squares avalues = b e * b e.
Proof.
  intros [Hlen _ Hlo Hsq _] [Hlen2 _ Hlo2 Hsq2 _] Hj Hb Hrun.
  destruct (a t) as [|t0 [|t1 [|? ?]]] eqn:Hat; try done.
  assert (Hjn : (j < length (a e))%nat) by by apply lookup_lt_Some in Hj.
  replace (Z.of_nat n + 2 - 1) with (Z.of_nat (S (length (a e)))) in Hrun by lia.
  apply grow_avalues_spec in Hrun as ->; [|done].
  rewrite <- (take_drop_middle _ _ _ Hj) in Hsq.
  rewrite sum_squares_app in Hsq. simpl in Hsq, Hsq2.
  split; [|split].
  - rewrite length_app, length_take. simpl. rewrite length_drop. lia.
  - apply Forall_app. split; [by apply Forall_take|].
    apply Forall_cons in Hlo2 as [? Hlo2]. apply Forall_cons in Hlo2 as [? _].
    repeat (constructor; [done|]). by apply Forall_drop.
  - rewrite sum_squares_app. simpl. rewrite <- Hsq. subst aj. lia.
Qed.

Lemma substitute_once_ok b_min b_max hi n threetuple e (j : nat) aj index bb s' :
  Forall (tuple_ok 3 2 5 hi) threetuple →
  tuple_ok 3 n b_min b_max e →
  a e !! j = Some aj →
  (∀ t, arr_get threetuple index = Ret t → b t = aj) →
  Forall (tuple_ok 3 (S n) b_min b_max) bb →
  Qkptuples.substitute_once threetuple (Z.of_nat n + 2) e (Z.of_nat j) (index, bb) = Ret s' →
  Forall (tuple_ok 3 (S n) b_min b_max) (snd s').
Proof.
  intros H3 He Hj Hidx Hbb Hrun. unfold Qkptuples.substitute_once in Hrun.
  inv_bind_as Hrun t Ht. inv_bind_as Hrun avalues Hav. injection Hrun as <-. simpl.
  pose proof (Hidx t Ht) as Hb.
  apply arr_get_Ret in Ht as [_ Ht].
  rewrite Forall_lookup in H3. specialize (H3 _ _ Ht).
  destruct (grown_tuple_ok _ _ _ _ _ _ _ _ _ He H3 Hj Hb Hav) as (Hlen & Hlo & Hsq).
  apply MovePTuple_ok; try done. by destruct He.
Qed.

Lemma substitute_ok b_min b_max hi n threetuple e (j : nat) aj index bb bb' :
  Forall (tuple_ok 3 2 5 hi) threetuple →
  tuple_ok 3 n b_min b_max e →
  a e !! j = Some aj →
  (∀ t, arr_get threetuple index = Ret t → b t = aj) →
  Forall (tuple_ok 3 (S n) b_min b_max) bb →
  Qkptuples.substitute threetuple (Z.of_nat n + 2) e (Z.of_nat j) index bb = Ret bb' →
  Forall (tuple_ok 3 (S n) b_min b_max) bb'.
Proof.
  intros H3 He Hj Hidx Hbb Hrun. unfold Qkptuples.substitute in Hrun.
  inv_bind_as Hrun s1 Hfirst. inv_bind_as Hrun r Hloop. injection Hrun as <-.
  eapply substitute_once_ok in Hfirst; try done.
  apply (while_loop_inv (fun s => Forall (tuple_ok 3 (S n) b_min b_max) (snd s)))
    in Hloop; [by destruct Hloop| |done].
  intros [index2 bb2] s2 Hok Hcond Hbody. simpl in Hok.
  destruct (index2 <? count threetuple); [|done].
  inv_bind_as Hcond aj2 Haj. inv_bind_as Hcond t2 Ht2. injection Hcond as Heq.
  apply Z.eqb_eq in Heq.
  apply arr_get_Ret in Haj as [_ Haj]. rewrite Nat2Z.id, Hj in Haj. injection Haj as <-.
  eapply substitute_once_ok in Hbody; try done.
  intros t Ht. congruence.
Qed.

(** The pass of [qkptuples.cpp]: every entry of the result is an entry of
    the table as [MovePTuple] stores it. *)
Lemma Qk_RemDupTuples_Forall (P : tentry → Prop) t t' :
  (∀ e, P e → P (mk_tentry (qsort tentry_avalues_cmpfunc (a e)) (b e))) →
  Forall P t → Qkptuples.RemDupTuples t = Ret t' → Forall P t'.
Proof.
  intros Hmove Ht Hrun. unfold Qkptuples.RemDupTuples in Hrun.
  destruct (count t <=? 1); [by injection Hrun as <-|].
  inv_bind_as Hrun r Hloop. injection Hrun as <-.
  set (sorted := qsort ttable_tentry_cmpfunc t) in *.
  assert (Hs : Forall P sorted) by by apply qsort_Forall.
  apply (for_range_inv (fun i '(tbl, nt) =>
           Forall P nt ∧ ∀ k, i ≤ Z.of_nat k → tbl !! k = sorted !! k)) in Hloop.
  - destruct r. by destruct Hloop.
  - intros i [tbl nt] [tbl' nt'] Hi [Hnt Htbl] Hbody.
    inv_bind_as Hbody dup Hdup. destruct dup.
    + injection Hbody as <- <-. split; [done|]. intros k Hk. apply Htbl. lia.
    + inv_bind_as Hbody e He. inv_bind_as Hbody tbl2 Hset. injection Hbody as <- <-.
      apply arr_get_Ret in He as [Hi0 He]. apply arr_set_Ret in Hset as [_ ->].
      rewrite Htbl in He by lia. rewrite Forall_lookup in Hs.
      split.
      * apply Forall_app. split; [done|]. apply Forall_singleton, Hmove. eauto.
      * intros k Hk. rewrite list_lookup_insert_ne by lia. apply Htbl. lia.
  - done.
Qed.

Lemma tuple_ok_moved lo n b_min b_max e :
  tuple_ok lo n b_min b_max e →
  tuple_ok lo n b_min b_max (mk_tentry (qsort tentry_avalues_cmpfunc (a e)) (b e)).
Proof. intros He. rewrite qsort_avalues_id by by destruct He. by destruct e. Qed.

Lemma grow_candidates_ok b_min b_max hi n threetuple onesmaller bb :
  Forall (tuple_ok 3 2 5 hi) threetuple →
  Forall (tuple_ok 3 n b_min b_max) onesmaller →
  Qkptuples.grow_candidates threetuple (Z.of_nat n + 2) onesmaller = Ret bb →
  Forall (tuple_ok 3 (S n) b_min b_max) bb.
Proof.
  intros H3 Hos Hloop. unfold Qkptuples.grow_candidates in Hloop.
  apply (for_each_inv (Forall (tuple_ok 3 (S n) b_min b_max))) in Hloop; [done| |done].
  intros e bb1 bb2 He Hbb1 Hj.
  rewrite Forall_forall in Hos. specialize (Hos _ He).
  apply (for_range_inv (fun _ => Forall (tuple_ok 3 (S n) b_min b_max))) in Hj; [done| |done].
  intros j bb3 bb4 Hjr Hbb3 Hbody.
  inv_bind_as Hbody aj Haj.
  destruct (Z.leb_spec 0 (Qkptuples.GetFirstBIndex threetuple aj)) as [Hidx|];
    [|by injection Hbody as <-].
  apply arr_get_Ret in Haj as [Hj0 Haj].
  apply GetFirstBIndex_found in Hidx as Hfound. destruct Hfound as (t & Ht & Hb).
  replace j with (Z.of_nat (Z.to_nat j)) in Hbody by lia.
  eapply substitute_ok in Hbody; try done.
  intros t2 Ht2. apply arr_get_Ret in Ht2 as [_ Ht2].
  pose proof (eq_trans (eq_sym Ht) Ht2) as Heq. by injection Heq as <-.
Qed.

Lemma grow_table_ok b_min b_max hi n threetuple onesmaller t' :
  Forall (tuple_ok 3 2 5 hi) threetuple →
  Forall (tuple_ok 3 n b_min b_max) onesmaller →
  Qkptuples.grow_table threetuple (Z.of_nat n + 2) onesmaller = Ret t' →
  Forall (tuple_ok 3 (S n) b_min b_max) t'.
Proof.
  intros H3 Hos Hrun. unfold Qkptuples.grow_table in Hrun.
  inv_bind_as Hrun bb Hloop.
  eapply Qk_RemDupTuples_Forall; [apply tuple_ok_moved| |exact Hrun].
  by eapply grow_candidates_ok.
Qed.

Lemma sublist_Forall {A} (P : A → Prop) (l1 l2 : list A) :
  sublist l1 l2 → Forall P l2 → Forall P l1.
Proof.
  induction 1 as [|x l1 l2 Hs IH|x l1 l2 Hs IH]; intros Hall; [done| |].
  - apply Forall_cons in Hall as [? ?]. constructor; auto.
  - apply Forall_cons in Hall as [? ?]. auto.
Qed.

Lemma sublist_StronglySorted {A} (R : A → A → Prop) (l1 l2 : list A) :
  sublist l1 l2 → StronglySorted R l2 → StronglySorted R l1.
Proof.
  induction 1 as [|x l1 l2 Hs IH|x l1 l2 Hs IH]; intros Hall; [done| |].
  - apply StronglySorted_inv in Hall as [Hl2 Hx].
    constructor; [auto|]. by eapply sublist_Forall.
  - apply StronglySorted_inv in Hall as [Hl2 Hx]. auto.
Qed.

(** What the approximate engine returns: a table, sorted by the table
    comparator, of well-formed [N]-tuples for the range with every a-value
    at least 3; it prints nothing itself. *)
Lemma Qk_BuildNTuples_ok fuel prim b_min b_max N tuples printed :
  1 ≤ b_min →
  Qkptuples.BuildNTuples fuel [] prim b_min b_max N = Ret (tuples, printed) →
  3 ≤ N ∧ printed = [] ∧
  Forall (tuple_ok 3 (Z.to_nat (N - 1)) b_min b_max) tuples ∧
  Sorted (cmp_le ttable_tentry_cmpfunc) tuples.
Proof.
  intros Hmin Hrun. unfold Qkptuples.BuildNTuples in Hrun.
  destruct (Z.eqb_spec N 3) as [->|HN].
  { inv_bind_as Hrun t Ht. injection Hrun as <- <-.
    apply Build3Tuples_ok in Ht; [|done|constructor].
    split; [lia|]. split; [done|]. split; [by apply qsort_Forall|].
    apply qsort_table_Sorted. }
  inv_bind_as Hrun three Hthree. inv_bind_as Hrun os Hos. inv_bind_as Hrun tables Hloop.
  apply Build3Tuples_ok in Hthree; [|lia|constructor].
  apply (qsort_Forall ttable_tentry_cmpfunc) in Hthree.
  set (threetuple := qsort ttable_tentry_cmpfunc three) in *.
  apply (for_each_inv (Forall (tuple_ok 3 2 b_min b_max))) in Hos; [| |constructor].
  2:{ intros e os1 os2 He Hos1 Hbody.
      rewrite Forall_forall in Hthree. destruct (Hthree _ He) as [Hl Hs Hlo Hsq Hr].
      destruct (Z.leb_spec b_min (b e)); [|by injection Hbody as <-].
      inv_bind_as Hbody a0 Ha0. inv_bind_as Hbody a1 Ha1. injection Hbody as <-.
      apply arr_get_Ret in Ha0 as [_ Ha0]. apply arr_get_Ret in Ha1 as [_ Ha1].
      destruct (a e) as [|x0 [|x1 [|? ?]]]; try done.
      simpl in Ha0, Ha1. injection Ha0 as <-. injection Ha1 as <-.
      apply MovePTuple_ok; try done. lia. }
  apply (for_range_inv (fun ts '(os, bb) =>
           (ts = 4 ∧ bb = None ∧ Forall (tuple_ok 3 2 b_min b_max) os) ∨
           (4 < ts ∧ ∃ t, bb = Some t ∧
              Forall (tuple_ok 3 (Z.to_nat (ts - 2)) b_min b_max) t))) in Hloop.
  - destruct tables as [os' bb]. simpl in Hrun.
    destruct Hloop as [(_ & -> & _)|(HN4 & t & -> & Ht)]; [done|].
    replace (4 + Z.of_nat (Z.to_nat (N - 3)) - 2) with (N - 1) in Ht by lia.
    destruct (move_to_final_sublist 3 (Z.to_nat (N - 1)) b_min b_max prim t)
      as (kept & Hsub & Hmove); [lia|done|].
    rewrite Hmove in Hrun. injection Hrun as <- <-.
    split; [lia|]. split; [done|]. split.
    + apply qsort_Forall. by eapply sublist_Forall.
    + apply qsort_table_Sorted.
  - intros ts [os1 bb1] [os2 bb2] Hts Hinv Hbody.
    inv_bind_as Hbody os3 Hsel. inv_bind_as Hbody bb3 Hgrow. injection Hbody as <- <-.
    right. split; [lia|]. exists bb3. split; [done|].
    assert (Hos3 : Forall (tuple_ok 3 (Z.to_nat (ts - 2)) b_min b_max) os3).
    { destruct Hinv as [(-> & -> & Hos1)|(Hts4 & t & -> & Ht)].
      - simpl in Hsel. by injection Hsel as <-.
      - destruct (Z.ltb_spec 4 ts); [|lia]. by injection Hsel as <-. }
    replace ts with (Z.of_nat (Z.to_nat (ts - 2)) + 2) in Hgrow by lia.
    eapply grow_table_ok in Hgrow; [|done..].
    by replace (Z.to_nat (ts + 1 - 2)) with (S (Z.to_nat (ts - 2))) by lia.
  - left. done.
Qed.

(** ** The order of the output *)

Lemma lex_le_trans x : ∀ y z, lex_le x y → lex_le y z → lex_le x z.
Proof.
  induction x as [|u x IH]; intros [|v y] [|w z]; simpl; try done.
  intros [Huv|[-> Hxy]] [Hvw|[-> Hyz]]; try (left; lia); eauto.
Qed.

Global Instance tentry_le_trans : Transitive tentry_le.
Proof.
  intros e1 e2 e3 [H12|[H12 Ha12]] [H23|[H23 Ha23]]; try (left; lia).
  right. split; [lia|]. by eapply lex_le_trans.
Qed.

Lemma avalues_cmp_loop_le a1 : ∀ a2,
  length a1 = length a2 → avalues_cmp_loop a1 a2 ≠ Gt → lex_le a1 a2.
Proof.
  induction a1 as [|x a1 IH]; intros [|y a2] Hlen Hcmp; simpl in *; try done.
  destruct (Z.compare_spec x y) as [->|Hlt|Hgt]; [|by left|done].
  right. split; [done|]. apply IH; [lia|done].
Qed.

Lemma cmp_le_tentry_le e1 e2 :
  length (a e1) = length (a e2) →
  cmp_le ttable_tentry_cmpfunc e1 e2 → tentry_le e1 e2.
Proof.
  unfold cmp_le, ttable_tentry_cmpfunc, tentry_le. intros Hlen Hcmp.
  destruct (Z.compare_spec (b e1) (b e2)) as [Heq|Hlt|Hgt]; [|by left|done].
  right. split; [done|]. by apply avalues_cmp_loop_le.
Qed.

(** A table of entries of one arity that [qsort] has sorted with the table
    comparator is in the order of the output. *)
Lemma Sorted_table_le n (l : ttable) :
  Forall (fun e => length (a e) = n) l →
  Sorted (cmp_le ttable_tentry_cmpfunc) l → StronglySorted tentry_le l.
Proof.
  intros Hn Hs. apply Sorted_StronglySorted; [apply _|].
  induction Hs as [|e l Hs IH Hhd]; [constructor|].
  apply Forall_cons in Hn as [He Hn]. constructor; [auto|].
  destruct Hhd as [|e' l' Hee']; constructor.
  apply Forall_cons in Hn as [He' _]. apply cmp_le_tentry_le; [congruence|done].
Qed.

Lemma tuple_ok_arity lo n b_min b_max (l : ttable) :
  Forall (tuple_ok lo n b_min b_max) l → Forall (fun e => length (a e) = n) l.
Proof. intros H. eapply Forall_impl; [exact H|]. by intros e []. Qed.

Lemma printed_tuples_print t : printed_tuples (print_tuples t) = t.
Proof. induction t as [|e t IH]; simpl; [done|]. unfold printed_tuples in *. simpl. by rewrite IH. Qed.

Lemma elem_of_printed_tuples e out : e ∈ printed_tuples out ↔ TupleLine e ∈ out.
Proof.
  unfold printed_tuples. rewrite list_elem_of_omap. split.
  - intros (item & Hin & Hitem). destruct item; [done|]. by injection Hitem as ->.
  - intros Hin. exists (TupleLine e). done.
Qed.

(** ** The approximate program *)

(** The runs of [qkptuples]: a rejected command line, or the table of the
    engine printed line by line. *)
Lemma Qk_main_inv `{P : Parsers} fuel argv code out :
  Qkptuples.main fuel argv = Ret (code, out) →
  (code = 1 ∧ printed_tuples out = [] ∧ out ≠ [] ∧
   (¬ (length argv = 4 ∨ length argv = 5)%nat ∨ tuple_size argv < 3 ∨
    user_b_min argv < 1 ∨ user_b_max argv < user_b_min argv)) ∨
  (code = 0 ∧ (length argv = 4 ∨ length argv = 5)%nat ∧ 3 ≤ tuple_size argv ∧
   1 ≤ user_b_min argv ≤ user_b_max argv ∧
   ∃ tuples,
     Qkptuples.BuildNTuples fuel [] (DoOnlyPrimitives argv) (user_b_min argv)
       (user_b_max argv) (tuple_size argv) = Ret (tuples, []) ∧
     out = print_tuples tuples).
Proof.
  unfold Qkptuples.main. intros Hrun.
  destruct (Nat.eqb_spec (length argv) 4) as [H4|H4],
           (Nat.eqb_spec (length argv) 5) as [H5|H5]; simpl in Hrun.
  4:{ injection Hrun as <- <-. left. repeat split; try done. left. lia. }
  all: destruct (Z.ltb_spec (tuple_size argv) 3);
    [injection Hrun as <- <-; left; repeat split; try done; auto|];
    destruct (Z.ltb_spec (user_b_min argv) 1);
    [injection Hrun as <- <-; left; repeat split; try done; auto|];
    destruct (Z.ltb_spec (user_b_max argv) (user_b_min argv));
    [injection Hrun as <- <-; left; repeat split; try done; auto|];
    inv_bind_as Hrun r Hb; destruct r as [tuples printed]; injection Hrun as <- <-;
    pose proof Hb as Hb'; apply Qk_BuildNTuples_ok in Hb' as (_ & -> & _); [|lia];
    right; repeat split; try lia; eauto.
Qed.

(** ** The odometer of the exhaustive engine *)

Lemma digits_sum_snoc l x : digits_sum (l ++ [x]) = digits_sum l + (x + 1) * (x + 1).
Proof. unfold digits_sum. rewrite map_app, sum_squares_app. simpl. lia. Qed.

Lemma sqrs_read numsqrs x sq :
  numsqrs < 2 ^ 32 →
  arr_get (Ptuples.build_sqrs numsqrs) x = Ret sq →
  0 ≤ x < numsqrs ∧ sq = (x + 1) * (x + 1).
Proof.
  intros Hn Hget. apply arr_get_Ret in Hget as [Hx Hget].
  apply lookup_build_sqrs in Hget as [Hlt ->]; [|done].
  rewrite Z2Nat.id in * by done. done.
Qed.

Lemma take_prefix_ext {A} (l1 l2 : list A) n :
  (∀ k, (k < n)%nat → l1 !! k = l2 !! k) → take n l1 = take n l2.
Proof.
  intros H. apply list_eq. intros k.
  destruct (decide (k < n)%nat).
  - rewrite !lookup_take_lt by done. auto.
  - by rewrite !lookup_take_ge by lia.
Qed.

(** Changing indices and subtotals at or above [upto] keeps consistency. *)
Lemma consistent_ext numsqrs idx sub idx' sub' upto :
  consistent numsqrs idx sub upto →
  (∀ k : nat, Z.of_nat k < upto → idx' !! k = idx !! k) →
  (∀ k : nat, Z.of_nat k < upto → sub' !! k = sub !! k) →
  consistent numsqrs idx' sub' upto.
Proof.
  intros Hc Hidx Hsub k Hk. destruct (Hc k Hk) as (x & Hx & Hr & Hs).
  exists x. split; [by rewrite Hidx|]. split; [done|].
  rewrite Hsub by done. rewrite Hs. do 2 f_equal. symmetry. apply take_prefix_ext. intros k' Hk'. apply Hidx. lia.
Qed.

Lemma consistent_weaken numsqrs idx sub upto upto' :
  upto' ≤ upto → consistent numsqrs idx sub upto → consistent numsqrs idx sub upto'.
Proof. intros Hle Hc k Hk. apply Hc. lia. Qed.

(** Setting tumbler [k] to [x] and its subtotal to the sum so far. *)
Lemma consistent_set numsqrs idx sub (k : nat) x prev idx' sub' :
  consistent numsqrs idx sub (Z.of_nat k) →
  (k < length idx)%nat → (k < length sub)%nat →
  0 ≤ x < numsqrs →
  (prev = digits_sum (take k idx)) →
  idx' = <[k := x]> idx →
  sub' = <[k := prev + (x + 1) * (x + 1)]> sub →
  consistent numsqrs idx' sub' (Z.of_nat k + 1).
Proof.
  intros Hc Hki Hks Hx -> -> -> k' Hk'.
  destruct (decide (k' = k)) as [->|Hne].
  - exists x. rewrite !list_lookup_insert_eq by done.
    split; [done|]. split; [done|]. f_equal. rewrite (take_S_r _ _ x) by by rewrite list_lookup_insert_eq.
    rewrite digits_sum_snoc. by rewrite take_insert_ge by lia.
  - destruct (Hc k' ltac:(lia)) as (y & Hy & Hr & Hs).
    exists y. rewrite !list_lookup_insert_ne by done.
    split; [done|]. split; [done|]. rewrite Hs. by rewrite take_insert_ge by lia.
Qed.

Lemma consistent_prev numsqrs idx sub (k : nat) prev :
  consistent numsqrs idx sub (Z.of_nat k) →
  arr_get sub (Z.of_nat k - 1) = Ret prev →
  prev = digits_sum (take k idx).
Proof.
  intros Hc Hget. apply arr_get_Ret in Hget as [Hk Hget].
  destruct (Hc (Z.to_nat (Z.of_nat k - 1)) ltac:(lia)) as (x & _ & _ & Hs).
  rewrite Hs in Hget. injection Hget as <-. f_equal. f_equal. lia.
Qed.

Lemma set_subtotals_consistent numsqrs lasttumbler idx sub (i : nat) sub' :
  numsqrs < 2 ^ 32 →
  consistent numsqrs idx sub (Z.of_nat i) →
  Ptuples.set_subtotals (Ptuples.build_sqrs numsqrs) lasttumbler (Z.of_nat i) idx sub
    = Ret sub' →
  length sub' = length sub ∧
  consistent numsqrs idx sub' (Z.max (Z.of_nat i) lasttumbler).
Proof.
  intros Hn Hc Hrun. unfold Ptuples.set_subtotals in Hrun.
  apply (for_range_inv (fun k s => length s = length sub ∧ consistent numsqrs idx s k))
    in Hrun.
  - destruct Hrun as [Hlen Hc']. split; [done|].
    replace (Z.max (Z.of_nat i) lasttumbler)
      with (Z.of_nat i + Z.of_nat (Z.to_nat (lasttumbler - Z.of_nat i))) by lia. done.
  - intros k s s' Hk [Hlen Hck] Hbody.
    inv_bind_as Hbody x Hx. inv_bind_as Hbody sq Hsq.
    apply sqrs_read in Hsq as [Hxr ->]; [|done].
    apply arr_get_Ret in Hx as [Hk0 Hx].
    replace k with (Z.of_nat (Z.to_nat k)) in * by lia.
    set (kn := Z.to_nat k) in *. rewrite Nat2Z.id in Hx.
    assert (Hkidx : (kn < length idx)%nat) by by apply lookup_lt_Some in Hx.
    destruct (Z.ltb_spec 0 (Z.of_nat kn)).
    + inv_bind_as Hbody prev Hprev.
      apply (consistent_prev _ _ _ _ _ Hck) in Hprev.
      apply arr_set_Ret in Hbody as [Hks ->]. rewrite Nat2Z.id.
      split; [by rewrite length_insert|].
      eapply consistent_set; [exact Hck|done|lia|exact Hxr|exact Hprev| |].
      * by rewrite list_insert_id.
      * f_equal. lia.
    + apply arr_set_Ret in Hbody as [Hks ->]. rewrite Nat2Z.id.
      split; [by rewrite length_insert|].
      assert (kn = 0%nat) as Hkn0 by lia.
      eapply consistent_set; [exact Hck|done|lia|exact Hxr|reflexivity| |].
      * by rewrite list_insert_id.
      * rewrite Hkn0. simpl. f_equal.
  - done.
Qed.

Lemma carry_spec numsqrs b_max_sqr sub i idx i' idx' :
  Ptuples.carry numsqrs b_max_sqr sub i idx = Ret (i', idx') →
  i' ≤ i ∧ length idx' = length idx ∧
  ∀ k : nat, Z.of_nat k < i' → idx' !! k = idx !! k.
Proof.
  intros Hrun. unfold Ptuples.carry in Hrun.
  apply (while_loop_inv (fun '(j, l) =>
           j ≤ i ∧ length l = length idx ∧
           ∀ k : nat, Z.of_nat k < j → l !! k = idx !! k)) in Hrun.
  - by destruct Hrun.
  - intros [j l] [j' l'] (Hj & Hlen & Hpre) _ Hbody.
    inv_bind_as Hbody l1 Hset. apply arr_set_Ret in Hset as [Hjr ->].
    destruct (Z.leb_spec 0 (j - 1)).
    + inv_bind_as Hbody s Hs. inv_bind_as Hbody x Hx. inv_bind_as Hbody l2 Hset2.
      apply arr_set_Ret in Hset2 as [_ ->]. injection Hbody as <- <-.
      split; [lia|]. split; [by rewrite !length_insert|].
      intros k Hk. rewrite !list_lookup_insert_ne by lia. apply Hpre. lia.
    + injection Hbody as <- <-.
      split; [lia|]. split; [by rewrite !length_insert|]. intros k Hk. lia.
  - done.
Qed.

Lemma consistent_range numsqrs idx sub :
  consistent numsqrs idx sub (Z.of_nat (length idx)) →
  Forall (fun x => 0 ≤ x < numsqrs) idx.
Proof.
  intros Hc. apply Forall_lookup. intros k x Hx.
  destruct (Hc k) as (y & Hy & Hr & _); [apply lookup_lt_Some in Hx; lia|].
  congruence.
Qed.

Lemma SaveToTuple_ok numsqrs (T : nat) b_min b_max tmp idx sub total tmp' :
  1 ≤ b_min ≤ b_max → numsqrs < 2 ^ 32 →
  length idx = T →
  consistent numsqrs idx sub (Z.of_nat T) →
  total = digits_sum idx →
  b_min * b_min ≤ total ≤ b_max * b_max →
  mpz_perfect_square_p total = true →
  Forall (tuple_ok 1 T b_min b_max) tmp →
  Ptuples.SaveToTuple tmp idx total = Ret tmp' →
  Forall (tuple_ok 1 T b_min b_max) tmp'.
Proof.
  intros Hb Hn Hlen Hc -> Hrange Hsq Htmp Hrun. unfold Ptuples.SaveToTuple in Hrun.
  inv_bind_as Hrun b0 Hb0. injection Hrun as <-.
  apply mpz_sqrt_Ret in Hb0 as [Hnonneg ->].
  unfold mpz_perfect_square_p in Hsq. apply andb_true_iff in Hsq as [_ Hsq].
  apply Z.eqb_eq in Hsq.
  rewrite <- Hlen in Hc. apply consistent_range in Hc.
  assert (Hmap : map (fun x => to_u64 (x + 1)) idx = map (fun x => x + 1) idx).
  { apply Forall_fmap_ext_1. eapply Forall_impl; [exact Hc|]. simpl.
    intros x Hx. apply to_u64_small. unfold two64. lia. }
  rewrite Hmap. pose proof (Z.sqrt_nonneg (digits_sum idx)) as Hs0.
  apply MovePTuple_ok; try done.
  - by rewrite length_map.
  - apply Forall_fmap. eapply Forall_impl; [exact Hc|]. simpl. lia.
  - nia.
Qed.

Lemma odometer_step_inv b_min b_max (T : nat) s s' :
  1 ≤ b_min ≤ b_max → b_max ≤ Ptuples.MAXB →
  od_inv (b_max - 1) T b_min b_max s →
  0 ≤ Ptuples.od_i s →
  Ptuples.odometer_step (Ptuples.build_sqrs (b_max - 1)) (b_max - 1) (Z.of_nat T - 1)
    (b_min * b_min) (b_max * b_max) s = Ret s' →
  od_inv (b_max - 1) T b_min b_max s'.
Proof.
  unfold Ptuples.MAXB. intros Hb Hmax [Hil Hsl Hi Hc Htmp] Hi0 Hrun.
  destruct s as [i idx sub tmp]. cbn [Ptuples.od_i Ptuples.sqrindextumbler
    Ptuples.subtotaltumbler Ptuples.tmp_table] in *.
  assert (Hn : b_max - 1 < 2 ^ 32) by lia.
  unfold Ptuples.odometer_step in Hrun.
  cbn [Ptuples.od_i Ptuples.sqrindextumbler Ptuples.subtotaltumbler Ptuples.tmp_table] in Hrun.
  rewrite (Z.max_r i) in Hrun by lia.
  set (k := (T - 1)%nat).
  assert (Hlast : Z.of_nat T - 1 = Z.of_nat k) by lia.
  rewrite Hlast in Hrun.
  inv_bind_as Hrun sub1 Hsub1.
  replace i with (Z.of_nat (Z.to_nat i)) in Hsub1, Hc by lia.
  apply set_subtotals_consistent in Hsub1 as [Hsl1 Hc1]; [|done|done].
  rewrite Z.max_r in Hc1 by lia.
  inv_bind_as Hrun x Hx. inv_bind_as Hrun sq Hsq. inv_bind_as Hrun prev Hprev.
  inv_bind_as Hrun sub2 Hsub2.
  apply arr_get_Ret in Hx as [_ Hx]. rewrite Nat2Z.id in Hx.
  apply sqrs_read in Hsq as [Hxr ->]; [|done].
  apply (consistent_prev _ _ _ _ _ Hc1) in Hprev.
  apply arr_set_Ret in Hsub2 as [Hks Hsub2]. rewrite Nat2Z.id in Hsub2.
  assert (Hc2 : consistent (b_max - 1) idx sub2 (Z.of_nat k + 1)).
  { eapply consistent_set; [exact Hc1|lia|lia|exact Hxr|exact Hprev| |exact Hsub2].
    by rewrite list_insert_id. }
  assert (Hsl2 : length sub2 = T) by (subst sub2; rewrite length_insert; lia).
  inv_bind_as Hrun st Hst.
  assert (Hstate : length (fst st) = T ∧ length (snd st) = T ∧
                   consistent (b_max - 1) (fst st) (snd st) (Z.of_nat k + 1)).
  { destruct (x =? 0).
    - inv_bind_as Hst jump Hjump. destruct jump as [sqrindex|].
      + inv_bind_as Hst idx2 Hidx2. inv_bind_as Hst x2 Hx2. inv_bind_as Hst sq2 Hsq2.
        inv_bind_as Hst sub3 Hsub3. injection Hst as <-. simpl.
        apply arr_set_Ret in Hidx2 as [_ Hidx2]. rewrite Nat2Z.id in Hidx2.
        apply arr_get_Ret in Hx2 as [_ Hx2]. rewrite Nat2Z.id in Hx2.
        rewrite Hidx2, list_lookup_insert_eq in Hx2 by lia. injection Hx2 as Hx2.
        apply sqrs_read in Hsq2 as [Hx2r ->]; [|done].
        apply arr_set_Ret in Hsub3 as [_ Hsub3]. rewrite Nat2Z.id in Hsub3.
        split; [subst idx2; by rewrite length_insert|].
        split; [subst sub3; by rewrite length_insert|].
        eapply consistent_set;
          [eapply consistent_weaken; [|exact Hc2]; lia|lia|lia|exact Hx2r|exact Hprev| |
           exact Hsub3].
        by rewrite <- Hx2.
      + by injection Hst as <-.
    - by injection Hst as <-. }
  clear Hst. destruct st as [idxA subA]. simpl in Hstate.
  destruct Hstate as (HilA & HslA & HcA).
  replace (Z.of_nat k + 1) with (Z.of_nat T) in HcA by lia.
  inv_bind_as Hrun total Htotal. inv_bind_as Hrun tmp2 Htmp2.
  inv_bind_as Hrun x3 Hx3. inv_bind_as Hrun idxB HidxB. inv_bind_as Hrun c Hcarry.
  destruct c as [i' idxC]. injection Hrun as <-.
  apply arr_get_Ret in Htotal as [_ Htotal]. rewrite Nat2Z.id in Htotal.
  destruct (HcA k ltac:(lia)) as (y & _ & _ & Hsk).
  rewrite Hsk in Htotal. injection Htotal as Htotal.
  rewrite take_ge in Htotal by lia.
  apply arr_set_Ret in HidxB as [_ HidxB]. rewrite Nat2Z.id in HidxB.
  apply carry_spec in Hcarry as (Hi' & HilC & HpreC).
  split; cbn [Ptuples.od_i Ptuples.sqrindextumbler Ptuples.subtotaltumbler
                Ptuples.tmp_table].
  - rewrite HilC, HidxB, length_insert. done.
  - done.
  - lia.
  - eapply consistent_ext; [eapply consistent_weaken; [|exact HcA]; lia| |done].
    intros k' Hk'. rewrite HpreC by done. rewrite HidxB.
    apply list_lookup_insert_ne. lia.
  - destruct (negb _ && _) eqn:Hsave; [|by injection Htmp2 as <-].
    apply andb_true_iff in Hsave as [Hin Hsq].
    apply negb_true_iff, orb_false_iff in Hin as [Hlo Hhi].
    apply Z.ltb_ge in Hlo, Hhi.
    eapply SaveToTuple_ok; [exact Hb|exact Hn|exact HilA|exact HcA| | |exact Hsq|exact Htmp|
                            exact Htmp2]; [done|lia].
Qed.

(** What the exhaustive engine returns, for a range [main] accepts: a
    table of well-formed [N]-tuples for the range, in the order of the
    output; it prints nothing itself. *)
Lemma Ptuples_BuildNTuples_ok fuel prim b_min b_max N tuples printed :
  1 ≤ b_min ≤ b_max → b_max ≤ Ptuples.MAXB → 3 ≤ N →
  Ptuples.BuildNTuples fuel [] prim b_min b_max N = Ret (tuples, printed) →
  printed = [] ∧
  Forall (tuple_ok 1 (Z.to_nat (N - 1)) b_min b_max) tuples ∧
  StronglySorted tentry_le tuples.
Proof.
  intros Hb Hmax HN Hrun. unfold Ptuples.BuildNTuples in Hrun.
  rewrite mpz_get_ui_small in Hrun by (unfold Ptuples.MAXB, two64 in *; lia).
  set (T := Z.to_nat (N - 1)) in *.
  replace (N - 1 - 1) with (Z.of_nat T - 1) in Hrun by lia.
  inv_bind_as Hrun s Hloop. inv_bind_as Hrun tmp Hdedup. injection Hrun as Hmove.
  apply (while_loop_inv (od_inv (b_max - 1) T b_min b_max)) in Hloop.
  - destruct Hloop as [[_ _ _ _ Htmp] _].
    rewrite (Ptuples_RemDupTuples_spec T) in Hdedup.
    2:{ eapply Forall_impl; [exact Htmp|]. apply tuple_ok_canonical. }
    injection Hdedup as <-.
    set (sorted := qsort ttable_tentry_cmpfunc (Ptuples.tmp_table s)) in *.
    assert (Hsok : Forall (tuple_ok 1 T b_min b_max) sorted) by by apply qsort_Forall.
    assert (Hdok : Forall (tuple_ok 1 T b_min b_max) (dedup_runs sorted)).
    { eapply sublist_Forall; [apply dedup_runs_sublist|done]. }
    destruct (move_to_final_sublist 1 T b_min b_max prim (dedup_runs sorted))
      as (kept & Hsub & Hkept); [lia|done|].
    rewrite Hkept in Hmove. injection Hmove as <- <-.
    split; [done|]. split; [by eapply sublist_Forall|].
    eapply sublist_StronglySorted; [exact Hsub|].
    eapply sublist_StronglySorted; [apply dedup_runs_sublist|].
    apply (Sorted_table_le T); [by eapply tuple_ok_arity|apply qsort_table_Sorted].
  - intros s1 s2 Hinv Hcond Hbody. injection Hcond as Hcond. apply Z.leb_le in Hcond.
    by eapply odometer_step_inv.
  - split; cbn [Ptuples.od_i Ptuples.sqrindextumbler Ptuples.subtotaltumbler
                  Ptuples.tmp_table]; try by rewrite length_replicate.
    + lia.
    + intros k Hk. lia.
    + constructor.
Qed.

(** ** Termination of the odometer *)

Lemma bind_Ret_intro {A B} (m : outcome A) (k : A → outcome B) x :
  m = Ret x → bind m k = k x.
Proof. by intros ->. Qed.

Lemma for_range_total {St : Type} (I : Z → St → Prop) (body : Z → St → outcome St) :
  ∀ n start s,
    (∀ i s, start ≤ i < start + Z.of_nat n → I i s →
            ∃ s', body i s = Ret s' ∧ I (i + 1) s') →
    I start s →
    ∃ s', for_range n start body s = Ret s' ∧ I (start + Z.of_nat n) s'.
Proof.
  induction n as [|n IH]; intros start s Hbody Hs; simpl.
  - exists s. by rewrite Z.add_0_r.
  - destruct (Hbody start s ltac:(lia) Hs) as (s1 & -> & Hs1). simpl.
    replace (start + Z.of_nat (S n)) with (start + 1 + Z.of_nat n) by lia.
    apply IH; [|done]. intros i s2 Hi. apply Hbody. lia.
Qed.


Lemma arr_get_total {A} (l : list A) i :
  0 ≤ i < Z.of_nat (length l) → ∃ x, arr_get l i = Ret x ∧ l !! Z.to_nat i = Some x.
Proof.
  intros Hi. destruct (lookup_lt_is_Some_2 l (Z.to_nat i) ltac:(lia)) as [x Hx].
  exists x. split; [|done]. apply arr_get_Ret. split; [lia|done].
Qed.

Lemma arr_set_total {A} (l : list A) i x :
  0 ≤ i < Z.of_nat (length l) → arr_set l i x = Ret (<[Z.to_nat i := x]> l).
Proof. intros Hi. by apply arr_set_Ret. Qed.

Lemma sqrs_get numsqrs x :
  numsqrs < 2 ^ 32 → 0 ≤ x < numsqrs →
  arr_get (Ptuples.build_sqrs numsqrs) x = Ret ((x + 1) * (x + 1)).
Proof.
  intros Hn Hx. apply arr_get_Ret. split; [lia|].
  rewrite build_sqrs_lookup by lia. by rewrite Z2Nat.id by lia.
Qed.

Lemma value_app B l1 l2 :
  value B (l1 ++ l2) = value B l1 * B ^ Z.of_nat (length l2) + value B l2.
Proof.
  unfold value. revert l1. induction l2 as [|d l2 IH] using rev_ind; intros l1.
  - rewrite app_nil_r. simpl. lia.
  - rewrite app_assoc, !foldl_snoc, IH, length_app. simpl.
    replace (Z.of_nat (length l2 + 1)) with (Z.succ (Z.of_nat (length l2))) by lia.
    rewrite Z.pow_succ_r by lia. lia.
Qed.

Lemma value_bound B l :
  1 ≤ B → Forall (fun x => 0 ≤ x < B) l → 0 ≤ value B l < B ^ Z.of_nat (length l).
Proof.
  intros HB. induction l as [|d l IH] using rev_ind; intros Hl.
  - unfold value. simpl. lia.
  - apply Forall_app in Hl as [Hl Hd]. rewrite Forall_singleton in Hd.
    specialize (IH Hl). unfold value in *. rewrite foldl_snoc, length_app. simpl.
    replace (Z.of_nat (length l + 1)) with (Z.succ (Z.of_nat (length l))) by lia.
    rewrite Z.pow_succ_r by lia.
    set (p := B ^ Z.of_nat (length l)) in *.
    set (v := foldl (fun acc d => acc * B + d) 0 l) in *.
    clearbody p v. assert (v * B ≤ (p - 1) * B) by nia. lia.
Qed.

Lemma value_insert B l k old x :
  l !! k = Some old →
  value B (<[k := x]> l) = value B l + (x - old) * B ^ Z.of_nat (length l - S k).
Proof.
  intros Hk. rewrite <- (take_drop_middle l k old Hk) at 2.
  rewrite insert_take_drop by by apply lookup_lt_Some in Hk.
  rewrite !value_app. simpl. rewrite length_drop.
  change (old :: drop (S k) l) with ([old] ++ drop (S k) l).
  change (x :: drop (S k) l) with ([x] ++ drop (S k) l).
  rewrite !value_app, length_drop. unfold value at 2 5. simpl.
  replace (Z.of_nat (S (length l - S k))) with (Z.succ (Z.of_nat (length l - S k))) by lia.
  rewrite Z.pow_succ_r by lia. lia.
Qed.

Lemma skip_ahead_total B b_min_sqr prev :
  1 ≤ B < 2 ^ 32 →
  ∃ r, Ptuples.skip_ahead B b_min_sqr prev = Ret r ∧ ∀ q, r = Some q → 0 ≤ q < B.
Proof.
  intros HB. unfold Ptuples.skip_ahead.
  destruct (Z.leb_spec 1 (b_min_sqr - prev)); [|by eexists].
  unfold mpz_sqrt. destruct (Z.ltb_spec (b_min_sqr - prev) 0); [lia|]. simpl.
  eexists. split; [reflexivity|]. intros q [= <-].
  set (u := mpz_get_ui _).
  assert (Hu : 0 ≤ u < two64) by (apply Z.mod_pos_bound; by unfold two64).
  unfold two64 in Hu.
  assert (Hs1 : 0 ≤ (if 0 <? u then to_u64 (u - 1) else u) < 2 ^ 64).
  { destruct (Z.ltb_spec 0 u); [|lia]. rewrite to_u64_small; unfold two64; lia. }
  destruct (Z.leb_spec B (if 0 <? u then to_u64 (u - 1) else u)); [|lia].
  rewrite to_u64_small; unfold two64; lia.
Qed.

Lemma set_subtotals_total B lasttumbler idx sub i :
  B < 2 ^ 32 → 0 ≤ i → lasttumbler < Z.of_nat (length idx) →
  length sub = length idx →
  Forall (fun x => 0 ≤ x < B) idx →
  ∃ sub', Ptuples.set_subtotals (Ptuples.build_sqrs B) lasttumbler i idx sub = Ret sub' ∧
          length sub' = length sub.
Proof.
  intros HB Hi Hlast Hlen Hr. unfold Ptuples.set_subtotals.
  destruct (for_range_total (fun _ s => length s = length sub)
              (fun i subtotaltumbler =>
                 do idx0 <- arr_get idx i;
                 do sq <- arr_get (Ptuples.build_sqrs B) idx0;
                 if 0 <? i then
                   do prev <- arr_get subtotaltumbler (i - 1);
                   arr_set subtotaltumbler i (sq + prev)
                 else arr_set subtotaltumbler i sq)
              (Z.to_nat (lasttumbler - i)) i sub) as (sub' & Hrun & Hlen'); [|done|eauto].
  intros k s Hk Hs.
  destruct (arr_get_total idx k ltac:(lia)) as (x & -> & Hx). cbn [bind].
  rewrite Forall_lookup in Hr. rewrite (sqrs_get B x HB (Hr _ _ Hx)). cbn [bind].
  destruct (Z.ltb_spec 0 k).
  - destruct (arr_get_total s (k - 1) ltac:(lia)) as (prev & -> & _). cbn [bind].
    rewrite arr_set_total by lia. eexists. split; [done|]. by rewrite length_insert.
  - rewrite arr_set_total by lia. eexists. split; [done|]. by rewrite length_insert.
Qed.

Lemma carry_total B b_max_sqr sub : ∀ (n : nat) i idx fuel,
  1 ≤ B < 2 ^ 32 →
  i = Z.of_nat n - 1 → (n < fuel)%nat →
  i < Z.of_nat (length idx) → length sub = length idx →
  (∀ k x, idx !! k = Some x → 0 ≤ x ≤ B ∧ (Z.of_nat k ≠ i → x < B)) →
  ∃ i' idx',
    while_loop fuel
      (fun '(i, sqrindextumbler) =>
         if 0 <=? i then
           do idx <- arr_get sqrindextumbler i;
           Ret (B <=? to_u64 idx)
         else Ret false)
      (fun '(i, sqrindextumbler) =>
         do sqrindextumbler <- arr_set sqrindextumbler i 0;
         let i := i - 1 in
         if 0 <=? i then
           do sub <- arr_get sub i;
           do idx <- arr_get sqrindextumbler i;
           do sqrindextumbler <-
             arr_set sqrindextumbler i
               (if b_max_sqr <? sub then to_s64 B else to_s64 (idx + 1));
           Ret (i, sqrindextumbler)
         else Ret (i, sqrindextumbler))
      (i, idx) = Ret (i', idx') ∧
    length idx' = length idx ∧ -1 ≤ i' ≤ i ∧
    Forall (fun x => 0 ≤ x < B) idx' ∧
    (0 ≤ i' → value B idx ≤ value B idx').
Proof.
  induction n as [|n IH]; intros i idx fuel HB Hi Hfuel Hlen Hsub Hdig;
    (destruct fuel as [|fuel]; [lia|]); cbn [while_loop].
  - subst i. simpl. exists (-1), idx. split; [done|]. split; [done|]. split; [lia|].
    split; [|lia]. apply Forall_lookup. intros k x Hx.
    destruct (Hdig k x Hx) as [? Hlt]. split; [lia|]. apply Hlt. lia.
  - destruct (Z.leb_spec 0 i); [|lia].
    destruct (arr_get_total idx i ltac:(lia)) as (v & -> & Hv). cbn [bind].
    destruct (Hdig _ _ Hv) as [Hvr _].
    rewrite to_u64_small by (unfold two64; lia).
    destruct (Z.leb_spec B v) as [HvB|HvB].
    + assert (v = B) by lia. subst v.
      rewrite arr_set_total by lia. cbn [bind].
      set (idx1 := <[Z.to_nat i := 0]> idx).
      assert (Hlen1 : length idx1 = length idx) by apply length_insert.
      assert (Hval1 : value B idx1 = value B idx + (0 - B) * B ^ Z.of_nat (length idx - S (Z.to_nat i)))
        by by apply value_insert.
      destruct (Z.leb_spec 0 (i - 1)) as [Hi1|Hi1].
      * destruct (arr_get_total sub (i - 1) ltac:(lia)) as (sv & -> & _). cbn [bind].
        destruct (arr_get_total idx1 (i - 1) ltac:(lia)) as (x & -> & Hx). cbn [bind].
        rewrite arr_set_total by lia. cbn [bind].
        unfold idx1 in Hx. rewrite list_lookup_insert_ne in Hx by lia.
        destruct (Hdig _ _ Hx) as [Hx0 HxB]. specialize (HxB ltac:(lia)).
        set (w := if b_max_sqr <? sv then to_s64 B else to_s64 (x + 1)).
        assert (Hw : x < w ≤ B).
        { unfold w. destruct (b_max_sqr <? sv); rewrite to_s64_small; lia. }
        set (idx2 := <[Z.to_nat (i - 1) := w]> idx1).
        assert (Hval2 : value B idx2 = value B idx1 + (w - x) * B ^ Z.of_nat (length idx1 - S (Z.to_nat (i - 1)))).
        { apply value_insert. unfold idx1. by rewrite list_lookup_insert_ne by lia. }
        destruct (IH (i - 1) idx2 fuel HB ltac:(lia) ltac:(lia)) as (i' & idx' & Hrun & Hl' & Hi' & Hr' & Hv').
        -- unfold idx2. rewrite length_insert. lia.
        -- unfold idx2. rewrite length_insert. lia.
        -- intros k y Hy. unfold idx2, idx1 in Hy.
           destruct (decide (k = Z.to_nat (i - 1))) as [->|Hk1].
           { rewrite list_lookup_insert_eq in Hy by (rewrite length_insert; lia).
             injection Hy as <-. split; lia. }
           rewrite list_lookup_insert_ne in Hy by done.
           destruct (decide (k = Z.to_nat i)) as [->|Hk2].
           { rewrite list_lookup_insert_eq in Hy by lia. injection Hy as <-. split; lia. }
           rewrite list_lookup_insert_ne in Hy by done.
           destruct (Hdig _ _ Hy) as [? Hlt]. split; [done|]. intros _. apply Hlt. lia.
        -- exists i', idx'. split; [exact Hrun|]. split; [unfold idx2 in Hl'; rewrite length_insert in Hl'; lia|].
           split; [lia|]. split; [done|]. intros Hi0. specialize (Hv' Hi0).
           rewrite Hval2, Hval1, Hlen1 in Hv'.
           replace (length idx - S (Z.to_nat (i - 1)))%nat
             with (S (length idx - S (Z.to_nat i))) in Hv' by lia.
           rewrite Nat2Z.inj_succ, Z.pow_succ_r in Hv' by lia.
           set (p := B ^ Z.of_nat (length idx - S (Z.to_nat i))) in *.
           assert (0 ≤ p) by (apply Z.pow_nonneg; lia). nia.
      * destruct (IH (i - 1) idx1 fuel HB ltac:(lia) ltac:(lia)) as (i' & idx' & Hrun & Hl' & Hi' & Hr' & Hv').
        -- lia.
        -- lia.
        -- intros k y Hy. unfold idx1 in Hy.
           destruct (decide (k = Z.to_nat i)) as [->|Hk2].
           { rewrite list_lookup_insert_eq in Hy by lia. injection Hy as <-. split; lia. }
           rewrite list_lookup_insert_ne in Hy by done.
           destruct (Hdig _ _ Hy) as [? Hlt]. split; [done|]. intros _. apply Hlt. lia.
        -- exists i', idx'. split; [exact Hrun|]. split; [lia|]. split; [lia|]. split; [done|]. lia.
    + exists i, idx. split; [done|]. split; [done|]. split; [lia|]. split; [|lia].
      apply Forall_lookup. intros k x Hx. destruct (Hdig k x Hx) as [? Hlt].
      destruct (decide (Z.of_nat k = i)) as [Hki|Hki]; [|split; [lia|by apply Hlt]].
      assert (Hk : k = Z.to_nat i) by lia. rewrite Hk, Hv in Hx. injection Hx as <-. lia.
Qed.

Lemma SaveToTuple_total tmp idx total :
  0 ≤ total → ∃ tmp', Ptuples.SaveToTuple tmp idx total = Ret tmp'.
Proof.
  intros Ht. unfold Ptuples.SaveToTuple, mpz_sqrt.
  destruct (Z.ltb_spec total 0); [lia|]. simpl. eauto.
Qed.

(** A turn of the odometer loop runs to its end, and unless it ends the
    loop it leaves the tumblers at a larger number. *)
Lemma odometer_step_total B (T : nat) b_min_sqr b_max_sqr s :
  1 ≤ B < 2 ^ 32 → (2 ≤ T)%nat →
  od_ready B T s → 0 ≤ Ptuples.od_i s →
  ∃ s', Ptuples.odometer_step (Ptuples.build_sqrs B) B (Z.of_nat T - 1)
          b_min_sqr b_max_sqr s = Ret s' ∧
        od_ready B T s' ∧
        (0 ≤ Ptuples.od_i s' →
         value B (Ptuples.sqrindextumbler s) < value B (Ptuples.sqrindextumbler s')).
Proof.
  intros HB HT [Hil Hsl Hi Hr] Hi0. destruct s as [i idx sub tmp].
  cbn [Ptuples.od_i Ptuples.sqrindextumbler Ptuples.subtotaltumbler Ptuples.tmp_table] in *.
  unfold Ptuples.odometer_step.
  cbn [Ptuples.od_i Ptuples.sqrindextumbler Ptuples.subtotaltumbler Ptuples.tmp_table].
  rewrite (Z.max_r i) by lia.
  set (k := (T - 1)%nat).
  assert (Hlast : Z.of_nat T - 1 = Z.of_nat k) by lia. rewrite Hlast.
  destruct (set_subtotals_total B (Z.of_nat k) idx sub i) as (sub1 & -> & Hsl1);
    [lia|lia|lia|lia|done|]. cbn [bind].
  destruct (arr_get_total idx (Z.of_nat k) ltac:(lia)) as (x & -> & Hx). cbn [bind].
  rewrite Nat2Z.id in Hx. pose proof Hr as Hr'. rewrite Forall_lookup in Hr'.
  pose proof (Hr' _ _ Hx) as Hxr.
  rewrite (sqrs_get B x) by (done || lia). cbn [bind].
  destruct (arr_get_total sub1 (Z.of_nat k - 1) ltac:(lia)) as (prev & -> & _). cbn [bind].
  rewrite arr_set_total by lia. cbn [bind]. rewrite Nat2Z.id.
  set (sub2 := <[k := prev + (x + 1) * (x + 1)]> sub1).
  assert (Hsl2 : length sub2 = T) by (unfold sub2; rewrite length_insert; lia).
  lazymatch goal with
  | |- ∃ s', bind ?m _ = _ ∧ _ =>
      assert (∃ idxA subA, m = Ret (idxA, subA) ∧ length idxA = T ∧ length subA = T ∧
                Forall (fun x => 0 ≤ x < B) idxA ∧ value B idx ≤ value B idxA)
        as (idxA & subA & -> & HilA & HslA & HrA & HvalA)
  end.
  { destruct (Z.eqb_spec x 0) as [Hx0|Hx0]; [|exists idx, sub2; repeat split; (done || lia)].
    destruct (skip_ahead_total B b_min_sqr prev HB) as (r & -> & Hq). cbn [bind].
    destruct r as [q|]; [|exists idx, sub2; repeat split; (done || lia)].
    specialize (Hq q eq_refl).
    rewrite arr_set_total by lia. cbn [bind]. rewrite Nat2Z.id.
    rewrite to_s64_small by lia.
    rewrite (arr_get_at _ _ k q) by (done || (rewrite list_lookup_insert_eq; [done|lia])).
    cbn [bind]. rewrite (sqrs_get B q) by (done || lia). cbn [bind].
    rewrite arr_set_total by lia. cbn [bind].
    eexists _, _. split; [reflexivity|].
    split; [by rewrite length_insert|]. split; [rewrite length_insert; lia|].
    split.
    - apply Forall_insert; [done|lia].
    - rewrite (value_insert B idx k x) by done.
      assert (0 ≤ B ^ Z.of_nat (length idx - S k)) by (apply Z.pow_nonneg; lia). nia. }
  cbn [bind].
  destruct (arr_get_total subA (Z.of_nat k) ltac:(lia)) as (total & -> & _). cbn [bind].
  lazymatch goal with
  | |- ∃ s', bind ?m _ = _ ∧ _ => assert (∃ tmp2, m = Ret tmp2) as (tmp2 & ->)
  end.
  { destruct (negb _ && mpz_perfect_square_p total) eqn:Hsave; [|eauto].
    apply andb_true_iff in Hsave as [_ Hsq]. unfold mpz_perfect_square_p in Hsq.
    apply andb_true_iff in Hsq as [Hsq _]. apply Z.leb_le in Hsq.
    by apply SaveToTuple_total. }
  cbn [bind].
  destruct (arr_get_total idxA (Z.of_nat k) ltac:(lia)) as (x3 & -> & Hx3). cbn [bind].
  rewrite Nat2Z.id in Hx3. pose proof HrA as HrA'. rewrite Forall_lookup in HrA'.
  pose proof (HrA' _ _ Hx3) as Hx3r.
  rewrite arr_set_total by lia. cbn [bind]. rewrite Nat2Z.id.
  set (v := if b_max_sqr <? total then to_s64 B else to_s64 (x3 + 1)).
  assert (Hv : x3 < v ≤ B).
  { unfold v. destruct (b_max_sqr <? total); rewrite to_s64_small; lia. }
  set (idxB := <[k := v]> idxA).
  assert (HvalB : value B idxB = value B idxA + (v - x3) * B ^ Z.of_nat (length idxA - S k))
    by by apply value_insert.
  replace (length idxA - S k)%nat with 0%nat in HvalB by lia. simpl in HvalB.
  unfold Ptuples.carry.
  destruct (carry_total B b_max_sqr subA (Z.to_nat (Z.of_nat k + 1)) (Z.of_nat k) idxB
              (S (Z.to_nat (Z.of_nat k + 1))) HB)
    as (i' & idx' & Hcarry & Hl' & Hi' & Hr'' & Hv').
  - lia.
  - lia.
  - unfold idxB. rewrite length_insert. lia.
  - unfold idxB. rewrite length_insert. lia.
  - intros j y Hy. unfold idxB in Hy.
    destruct (decide (j = k)) as [->|Hjk].
    + rewrite list_lookup_insert_eq in Hy by lia. injection Hy as <-. split; lia.
    + rewrite list_lookup_insert_ne in Hy by done. pose proof (HrA' _ _ Hy).
      split; [lia|]. intros _. lia.
  - lazymatch goal with
    | |- ∃ s', bind ?m _ = _ ∧ _ =>
        assert (Hm : m = Ret (i', idx')) by exact Hcarry; rewrite Hm
    end.
    cbn [bind]. eexists. split; [reflexivity|].
    cbn [Ptuples.od_i Ptuples.sqrindextumbler Ptuples.subtotaltumbler Ptuples.tmp_table].
    split.
    + split; cbn [Ptuples.od_i Ptuples.sqrindextumbler Ptuples.subtotaltumbler
                    Ptuples.tmp_table].
      * rewrite Hl'. unfold idxB. rewrite length_insert. done.
      * done.
      * lia.
      * done.
    + intros Hi'0. specialize (Hv' Hi'0). lia.
Qed.

Lemma odometer_loop_total B (T : nat) b_min_sqr b_max_sqr :
  1 ≤ B < 2 ^ 32 → (2 ≤ T)%nat →
  ∀ (n : nat) s,
    od_ready B T s →
    (0 ≤ Ptuples.od_i s →
     B ^ Z.of_nat T - value B (Ptuples.sqrindextumbler s) < Z.of_nat n) →
    (1 ≤ n)%nat →
    ∃ s', while_loop n (fun s => Ret (0 <=? Ptuples.od_i s))
            (Ptuples.odometer_step (Ptuples.build_sqrs B) B (Z.of_nat T - 1)
               b_min_sqr b_max_sqr) s = Ret s'.
Proof.
  intros HB HT. induction n as [|n IH]; intros s Hrdy Hfuel Hn; [lia|].
  cbn [while_loop bind].
  destruct (Z.leb_spec 0 (Ptuples.od_i s)) as [Hi|Hi]; [|eauto].
  destruct (odometer_step_total B T b_min_sqr b_max_sqr s HB HT Hrdy Hi)
    as (s1 & -> & Hrdy1 & Hval). cbn [bind].
  pose proof (value_bound B (Ptuples.sqrindextumbler s) ltac:(lia) (rdy_digits _ _ _ Hrdy))
    as Hb. rewrite (rdy_idx_len _ _ _ Hrdy) in Hb.
  specialize (Hfuel Hi).
  apply IH; [done| |lia]. intros Hi1. specialize (Hval Hi1). lia.
Qed.

(** The odometer loop ends with a table of well-formed tuples. *)
Lemma odometer_loop_ok fuel b_min b_max (T : nat) s :
  1 ≤ b_min ≤ b_max → b_max ≤ Ptuples.MAXB →
  while_loop fuel (fun s => Ret (0 <=? Ptuples.od_i s))
    (Ptuples.odometer_step (Ptuples.build_sqrs (b_max - 1)) (b_max - 1) (Z.of_nat T - 1)
       (b_min * b_min) (b_max * b_max))
    (Ptuples.mk_odometer 0 (replicate T 0) (replicate T 0) []) = Ret s →
  (1 ≤ T)%nat →
  Forall (tuple_ok 1 T b_min b_max) (Ptuples.tmp_table s).
Proof.
  intros Hb Hmax Hloop HT.
  apply (while_loop_inv (od_inv (b_max - 1) T b_min b_max)) in Hloop.
  - by destruct Hloop as [[_ _ _ _ Htmp] _].
  - intros s1 s2 Hinv Hcond Hbody. injection Hcond as Hcond. apply Z.leb_le in Hcond.
    by eapply odometer_step_inv.
  - split; cbn [Ptuples.od_i Ptuples.sqrindextumbler Ptuples.subtotaltumbler
                  Ptuples.tmp_table]; try by rewrite length_replicate.
    + lia.
    + intros k Hk. lia.
    + constructor.
Qed.

(** For a range [main] accepts with [b_max >= 2], the exhaustive engine
    runs to its end without fault, given enough turns of the loop. *)
Lemma Ptuples_BuildNTuples_total prim b_min b_max N :
  1 ≤ b_min ≤ b_max → 2 ≤ b_max → b_max ≤ Ptuples.MAXB → 3 ≤ N →
  ∃ fuel tuples, Ptuples.BuildNTuples fuel [] prim b_min b_max N = Ret (tuples, []).
Proof.
  intros Hb Hb2 Hmax HN. pose proof Hmax as Hmax'. unfold Ptuples.MAXB in Hmax'.
  set (T := Z.to_nat (N - 1)).
  exists (S (Z.to_nat ((b_max - 1) ^ Z.of_nat T))).
  unfold Ptuples.BuildNTuples.
  rewrite mpz_get_ui_small by (unfold two64; lia).
  fold T. replace (N - 1 - 1) with (Z.of_nat T - 1) by lia.
  destruct (odometer_loop_total (b_max - 1) T (b_min * b_min) (b_max * b_max)
              ltac:(lia) ltac:(lia) (S (Z.to_nat ((b_max - 1) ^ Z.of_nat T)))
              (Ptuples.mk_odometer 0 (replicate T 0) (replicate T 0) []))
    as (s & Hloop).
  - split; cbn [Ptuples.od_i Ptuples.sqrindextumbler Ptuples.subtotaltumbler];
      try by rewrite length_replicate.
    + lia.
    + apply Forall_replicate. lia.
  - cbn [Ptuples.od_i Ptuples.sqrindextumbler]. intros _.
    assert (Hz : value (b_max - 1) (replicate T 0) = 0).
    { unfold value. clear. induction T as [|T IH]; simpl; [done|]. by rewrite Z.mul_0_l. }
    rewrite Hz. assert (0 ≤ (b_max - 1) ^ Z.of_nat T) by (apply Z.pow_nonneg; lia). lia.
  - lia.
  - rewrite Hloop. cbn [bind].
    apply odometer_loop_ok in Hloop; [|done|done|lia].
    rewrite (Ptuples_RemDupTuples_spec T).
    2:{ eapply Forall_impl; [exact Hloop|]. apply tuple_ok_canonical. }
    cbn [bind].
    destruct (move_to_final_sublist 1 T b_min b_max prim
                (dedup_runs (qsort ttable_tentry_cmpfunc (Ptuples.tmp_table s))))
      as (kept & _ & ->); [lia| |eauto].
    eapply sublist_Forall; [apply dedup_runs_sublist|]. by apply qsort_Forall.
Qed.

(** ** The exhaustive program *)

(** The runs of [ptuples]: a rejected command line, or the table of the
    engine printed line by line. *)
Lemma Ptuples_main_inv `{P : Parsers} fuel argv code out :
  Ptuples.main fuel argv = Ret (code, out) →
  (code = 1 ∧ printed_tuples out = [] ∧ out ≠ [] ∧
   (¬ (length argv = 4 ∨ length argv = 5)%nat ∨ tuple_size argv < 3 ∨
    user_b_min argv < 1 ∨ user_b_max argv < user_b_min argv ∨
    Ptuples.MAXB < user_b_max argv)) ∨
  (code = 0 ∧ (length argv = 4 ∨ length argv = 5)%nat ∧ 3 ≤ tuple_size argv ∧
   1 ≤ user_b_min argv ≤ user_b_max argv ∧ user_b_max argv ≤ Ptuples.MAXB ∧
   ∃ tuples,
     Ptuples.BuildNTuples fuel [] (DoOnlyPrimitives argv) (user_b_min argv)
       (user_b_max argv) (tuple_size argv) = Ret (tuples, []) ∧
     out = print_tuples tuples).
Proof.
  unfold Ptuples.main. intros Hrun.
  destruct (Nat.eqb_spec (length argv) 4) as [H4|H4],
           (Nat.eqb_spec (length argv) 5) as [H5|H5]; simpl in Hrun.
  4:{ injection Hrun as <- <-. left. repeat split; try done. left. lia. }
  all: destruct (Z.ltb_spec (tuple_size argv) 3);
    [injection Hrun as <- <-; left; repeat split; try done; auto|];
    destruct (Z.ltb_spec (user_b_min argv) 1);
    [injection Hrun as <- <-; left; repeat split; try done; auto|];
    destruct (Z.ltb_spec (user_b_max argv) (user_b_min argv));
    [injection Hrun as <- <-; left; repeat split; try done; auto|];
    destruct (Z.ltb_spec Ptuples.MAXB (user_b_max argv));
    [injection Hrun as <- <-; left; repeat split; try done; auto 6|];
    inv_bind_as Hrun r Hb; destruct r as [tuples printed]; injection Hrun as <- <-;
    pose proof Hb as Hb'; apply Ptuples_BuildNTuples_ok in Hb' as (-> & _); [|lia..];
    right; repeat split; try lia; eauto.
Qed.

(** The table either program printed, with what the engines guarantee:
    every a-value is at least [lo], which is 1 for [ptuples] and 3 for
    [qkptuples]. *)
Lemma main_output_ok `{P : Parsers} fuel argv code out :
  Ptuples.main fuel argv = Ret (code, out) ∨ Qkptuples.main fuel argv = Ret (code, out) →
  Forall (tuple_ok 1 (Z.to_nat (tuple_size argv - 1)) (user_b_min argv) (user_b_max argv))
    (printed_tuples out) ∧
  StronglySorted tentry_le (printed_tuples out).
Proof.
  intros [Hrun|Hrun].
  - apply Ptuples_main_inv in Hrun
      as [(_ & -> & _)|(_ & _ & HN & Hb & Hmax & tuples & Hrun & ->)];
      [split; constructor|].
    rewrite printed_tuples_print.
    by apply Ptuples_BuildNTuples_ok in Hrun as (_ & ? & ?).
  - apply Qk_main_inv in Hrun
      as [(_ & -> & _)|(_ & _ & HN & Hb & tuples & Hrun & ->)];
      [split; constructor|].
    rewrite printed_tuples_print.
    apply Qk_BuildNTuples_ok in Hrun as (_ & _ & Hok & Hs); [|lia].
    split.
    + eapply Forall_impl; [exact Hok|]. intros e [? ? Hlo ? ?]. split; try done.
      eapply Forall_impl; [exact Hlo|]. simpl. lia.
    + eapply Sorted_table_le; [by eapply tuple_ok_arity|done].
Qed.

(** C1. Every tuple that either program prints satisfies
    [a_1^2 + ... + a_n^2 = b^2] exactly, with [b] in the range
    [[b_min, b_max]] of the command line. *)
Theorem printed_tuples_sound `{P : Parsers} fuel argv code out e :
  Ptuples.main fuel argv = Ret (code, out) ∨ Qkptuples.main fuel argv = Ret (code, out) →
  TupleLine e ∈ out →
  sum_squares (a e) = b e * b e ∧ user_b_min argv ≤ b e ≤ user_b_max argv.
Proof.
  intros Hrun He. apply main_output_ok in Hrun as [Hok _].
  apply elem_of_printed_tuples in He. rewrite Forall_forall in Hok.
  by destruct (Hok _ He).
Qed.

Lemma printed_tuples_sound_witness :
  sum_squares [3; 4; 12] = 13 * 13 ∧ 1 ≤ 13 ≤ 30.
Proof.
  apply (@printed_tuples_sound decimal_parsers 100
           ["qkptuples"; "-p"; "4"; "1"; "30"]%string 0
           [TupleLine (mk_tentry [3; 4; 12] 13); TupleLine (mk_tentry [9; 12; 20] 25)]
           (mk_tentry [3; 4; 12] 13)).
  - right. vm_compute. reflexivity.
  - left.
Defined.

(** C8. [MovePTuple] appends an entry whose a-values are those it was
    given, in ascending order, and the table either program prints is in
    canonical form: its entries are in order of [b] and then of a-vector,
    and the a-values of each entry ascend. *)
Theorem output_canonical `{P : Parsers} fuel argv code out :
  Ptuples.main fuel argv = Ret (code, out) ∨ Qkptuples.main fuel argv = Ret (code, out) →
  (∀ t avalues b0, ∃ e,
     MovePTuple t avalues b0 = t ++ [e] ∧ Sorted Z.le (a e) ∧ a e ≡ₚ avalues ∧ b e = b0) ∧
  StronglySorted tentry_le (printed_tuples out) ∧
  Forall (fun e => Sorted Z.le (a e)) (printed_tuples out).
Proof.
  intros Hrun. split; [|apply main_output_ok in Hrun as [Hok Hs]; split; [done|]].
  - intros t avalues b0. eexists. split; [reflexivity|]. simpl.
    split; [apply qsort_avalues_Sorted|]. split; [apply qsort_perm|done].
  - eapply Forall_impl; [exact Hok|]. by intros e [].
Qed.

Lemma output_canonical_witness :
  (∀ t avalues b0, ∃ e,
     MovePTuple t avalues b0 = t ++ [e] ∧ Sorted Z.le (a e) ∧ a e ≡ₚ avalues ∧ b e = b0) ∧
  StronglySorted tentry_le
    (printed_tuples (map TupleLine
       [mk_tentry [3; 4] 5; mk_tentry [6; 8] 10; mk_tentry [5; 12] 13])) ∧
  Forall (fun e => Sorted Z.le (a e))
    (printed_tuples (map TupleLine
       [mk_tentry [3; 4] 5; mk_tentry [6; 8] 10; mk_tentry [5; 12] 13])).
Proof.
  apply (@output_canonical decimal_parsers 200 ["ptuples"; "3"; "1"; "13"]%string 0).
  left. vm_compute. reflexivity.
Defined.

(** C3. The approximate program never prints (1,2,2,3), in any order of
    the a-values and for any command line, and its engine never returns it
    for a range from [b_min >= 1] up to [b_max >= 3]; the exhaustive engine
    with tuple size 4, [b_min = 1] and [b_max = 3] returns it, and the
    exhaustive program prints it. *)
Theorem documented_gap :
  (∀ (P : Parsers) fuel argv code out avalues,
     @Qkptuples.main P fuel argv = Ret (code, out) →
     avalues ≡ₚ [1; 2; 2] → TupleLine (mk_tentry avalues 3) ∉ out) ∧
  (∀ fuel prim b_min b_max N tuples printed,
     1 ≤ b_min → 3 ≤ b_max →
     Qkptuples.BuildNTuples fuel [] prim b_min b_max N = Ret (tuples, printed) →
     mk_tentry [1; 2; 2] 3 ∉ tuples) ∧
  Ptuples.BuildNTuples 100 [] false 1 3 4 = Ret ([mk_tentry [1; 2; 2] 3], []) ∧
  @Ptuples.main decimal_parsers 100 ["ptuples"; "4"; "1"; "3"]%string
    = Ret (0, [TupleLine (mk_tentry [1; 2; 2] 3)]).
Proof.
  assert (Hno : ∀ n b_min b_max (tuples : ttable) avalues,
            Forall (tuple_ok 3 n b_min b_max) tuples →
            avalues ≡ₚ [1; 2; 2] → mk_tentry avalues 3 ∉ tuples).
  { intros n b_min b_max tuples avalues Hok Hperm Hin.
    rewrite Forall_forall in Hok. destruct (Hok _ Hin) as [_ _ Hlo _ _]. simpl in Hlo.
    rewrite Hperm in Hlo. apply Forall_cons in Hlo as [? _]. lia. }
  split; [|split; [|split]].
  - intros P fuel argv code out avalues Hrun Hperm Hin.
    apply elem_of_printed_tuples in Hin.
    apply Qk_main_inv in Hrun as [(_ & Hnil & _)|(_ & _ & HN & Hb & tuples & Hrun & ->)].
    + rewrite Hnil in Hin. by apply elem_of_nil in Hin.
    + rewrite printed_tuples_print in Hin.
      apply Qk_BuildNTuples_ok in Hrun as (_ & _ & Hok & _); [|lia].
      by eapply Hno.
  - intros fuel prim b_min b_max N tuples printed Hmin Hmax Hrun.
    apply Qk_BuildNTuples_ok in Hrun as (_ & _ & Hok & _); [|lia].
    by eapply Hno.
  - by vm_compute.
  - by vm_compute.
Qed.

(** ** The deduplication of [ptuples.cpp] on tables of the data model *)

Lemma lex_le_antisym x : ∀ y, lex_le x y → lex_le y x → x = y.
Proof.
  induction x as [|u x IH]; intros [|v y]; simpl; try done.
  intros [Huv|[-> Hxy]] [Hvu|[Heq Hyx]]; try lia. f_equal. auto.
Qed.

Lemma tentry_le_antisym e1 e2 : tentry_le e1 e2 → tentry_le e2 e1 → e1 = e2.
Proof.
  intros [H12|[Hb Ha]] [H21|[Hb' Ha']]; try lia.
  destruct e1, e2; simpl in *. f_equal; [by apply lex_le_antisym|done].
Qed.

(** In a sorted table where [b] is determined by the a-values, the entries
    after one with other a-values never return to those a-values; so what
    [dedup_from] keeps has pairwise different a-vectors. *)
Lemma dedup_from_NoDup (l : ttable) : ∀ e0,
  StronglySorted tentry_le (e0 :: l) →
  (∀ e1 e2, e1 ∈ e0 :: l → e2 ∈ e0 :: l → a e1 = a e2 → b e1 = b e2) →
  Forall (fun e => a e ≠ a e0) (dedup_from (a e0) l) ∧
  NoDup (a <$> dedup_from (a e0) l).
Proof.
  induction l as [|e1 l IH]; intros e0 Hs Hdet; simpl.
  - split; constructor.
  - apply StronglySorted_inv in Hs as [Hs1 Hall0].
    apply Forall_cons in Hall0 as [H01 Hall0].
    assert (Hskip : ∀ x, x ∈ e0 :: l → x ∈ e0 :: e1 :: l).
    { intros x Hx. apply elem_of_cons in Hx as [->|Hx]; [by left|by do 2 right]. }
    assert (Htail : ∀ x, x ∈ e1 :: l → x ∈ e0 :: e1 :: l) by (intros x Hx; by right).
    destruct (decide (a e1 = a e0)) as [Heq|Hne].
    + apply IH.
      * constructor; [by apply StronglySorted_inv in Hs1 as [? _]|done].
      * intros x y Hx Hy. apply Hdet; auto.
    + destruct (IH e1 Hs1) as [Hne1 Hnd1]; [intros x y Hx Hy; apply Hdet; auto|].
      assert (Hrest : Forall (fun e => a e ≠ a e0) l).
      { apply StronglySorted_inv in Hs1 as [_ Hall1].
        rewrite Forall_forall in Hall0, Hall1. apply Forall_forall.
        intros e He Hae.
        assert (e = e0).
        { destruct e as [ae be], e0 as [ae0 be0]; simpl in *. f_equal; [done|].
          apply (Hdet (mk_tentry ae be) (mk_tentry ae0 be0)); [|by left|done].
          by do 2 right. }
        subst e. apply Hne. f_equal. apply tentry_le_antisym; [|done]. by apply Hall1. }
      split.
      * constructor; [done|].
        eapply sublist_Forall; [apply dedup_from_sublist|done].
      * simpl. constructor; [|done].
        rewrite list_elem_of_fmap. intros (e & Hae & He).
        rewrite Forall_forall in Hne1. by apply (Hne1 e).
Qed.

Lemma dedup_from_covers (l : ttable) : ∀ prev e,
  e ∈ l → a e = prev ∨ ∃ e', e' ∈ dedup_from prev l ∧ a e' = a e.
Proof.
  induction l as [|e1 l IH]; intros prev e He; [by apply elem_of_nil in He|].
  simpl. apply elem_of_cons in He as [->|He].
  - destruct (decide (a e1 = prev)); [by left|]. right. exists e1. split; [by left|done].
  - destruct (decide (a e1 = prev)) as [Heq|Hne]; [by apply IH|].
    destruct (IH (a e1) e He) as [Hsame|(e' & He' & Hae')].
    + right. exists e1. split; [by left|done].
    + right. exists e'. split; [by right|done].
Qed.

(** X3. The pass of [ptuples.cpp] does what the specification asks of a
    deduplication, on a table of canonical entries of one arity in which
    [b] is determined by the a-values: it returns the first entry of every
    run of the sorted table, no two of its entries have the same a-values,
    and the a-values of every entry of the table are still there. *)
Lemma Ptuples_RemDupTuples_correct n (t : ttable) :
  Forall (canonical n) t →
  (∀ e1 e2, e1 ∈ t → e2 ∈ t → a e1 = a e2 → b e1 = b e2) →
  ∃ t', Ptuples.RemDupTuples t = Ret t' ∧
        t' = dedup_runs (qsort ttable_tentry_cmpfunc t) ∧
        NoDup (a <$> t') ∧
        (∀ e, e ∈ t → ∃ e', e' ∈ t' ∧ a e' = a e) ∧
        (∀ e, e ∈ t' → e ∈ t).
Proof.
  intros Hwf Hdet. eexists. split; [by apply (Ptuples_RemDupTuples_spec n)|].
  split; [done|].
  set (sorted := qsort ttable_tentry_cmpfunc t).
  assert (Hs : StronglySorted tentry_le sorted).
  { apply (Sorted_table_le n); [|apply qsort_table_Sorted].
    apply qsort_Forall. eapply Forall_impl; [exact Hwf|]. by intros e []. }
  assert (Hdet' : ∀ e1 e2, e1 ∈ sorted → e2 ∈ sorted → a e1 = a e2 → b e1 = b e2).
  { intros e1 e2 H1 H2. apply Hdet; by apply (qsort_elem_of ttable_tentry_cmpfunc). }
  assert (Hin : ∀ e, e ∈ t ↔ e ∈ sorted).
  { intros e. symmetry. apply qsort_elem_of. }
  clearbody sorted. destruct sorted as [|e0 l]; simpl.
  - split; [constructor|]. split; intros e He.
    + apply Hin in He. by apply elem_of_nil in He.
    + by apply elem_of_nil in He.
  - destruct (dedup_from_NoDup l e0 Hs Hdet') as [Hne Hnd]. split; [|split].
    + constructor; [|done]. rewrite list_elem_of_fmap. intros (e & Hae & He).
      rewrite Forall_forall in Hne. by apply (Hne e).
    + intros e He. apply Hin, elem_of_cons in He as [->|He].
      * exists e0. split; [by left|done].
      * destruct (dedup_from_covers l (a e0) e He) as [Hsame|(e' & He' & Hae')].
        -- exists e0. split; [by left|done].
        -- exists e'. split; [by right|done].
    + intros e He. apply Hin. apply elem_of_cons in He as [->|He]; [by left|].
      right. eapply elem_of_sublist; [exact He|apply dedup_from_sublist].
Qed.

(** ** The backward scan of GetFirstBIndex *)

(** From the entry that [bsearch] found, the scan stops at an index whose
    entry has the [b] searched for, and every entry from there up to the
    found one has it too; the entry before it has another [b], unless the
    scan stopped at index 1 (or 0), where it does not look further. *)
Lemma scan_back_SS the_table B p :
  Qkptuples.scan_back the_table B (S (S p)) =
  match the_table !! S p with
  | Some e => if b e =? B then Qkptuples.scan_back the_table B (S p) else S (S p)
  | None => S (S p)
  end.
Proof. reflexivity. Qed.

Lemma scan_back_first the_table B : ∀ found e,
  the_table !! found = Some e → b e = B →
  (Qkptuples.scan_back the_table B found ≤ found)%nat ∧
  (∀ k, (Qkptuples.scan_back the_table B found ≤ k ≤ found)%nat →
        b <$> the_table !! k = Some B) ∧
  ((Qkptuples.scan_back the_table B found ≤ 1)%nat ∨
   b <$> the_table !! (Qkptuples.scan_back the_table B found - 1)%nat ≠ Some B).
Proof.
  induction found as [|p IH]; intros e He Hb.
  - simpl. split; [lia|]. split; [|left; lia].
    intros k Hk. replace k with 0%nat by lia. by rewrite He, <- Hb.
  - destruct p as [|p'].
    + simpl. split; [lia|]. split; [|left; lia].
      intros k Hk. replace k with 1%nat by lia. by rewrite He, <- Hb.
    + rewrite scan_back_SS.
      destruct (the_table !! S p') as [e1|] eqn:He1.
      2:{ apply lookup_lt_Some in He. apply lookup_ge_None in He1. lia. }
      destruct (Z.eqb_spec (b e1) B) as [Hb1|Hb1].
      * destruct (IH e1 eq_refl Hb1) as (Hle & Hrun & Hstop).
        split; [lia|]. split; [|done].
        intros k Hk. destruct (decide (k = S (S p'))) as [->|Hne].
        -- by rewrite He, <- Hb.
        -- apply Hrun. lia.
      * split; [lia|]. split.
        -- intros k Hk. replace k with (S (S p')) by lia. by rewrite He, <- Hb.
        -- right. replace (S (S p') - 1)%nat with (S p') by lia.
           rewrite He1. simpl. congruence.
Qed.

(** ** The deduplication of [qkptuples.cpp] *)

(** C4, at the run [qkptuples 4 1 17].  The substitutions make the two
    different tuples (3,4,12,13) and (8,9,12,17).  The pass of
    [qkptuples.cpp] compares the second with the slot of the first after
    that slot was emptied ([a_count = 0]), takes it for a duplicate and
    drops it, so the program prints one line; the pass of [ptuples.cpp]
    keeps both, as do the runs of the sorted table. *)
Theorem RemDupTuples_drops_distinct_tuple :
  (do t <- Qkptuples.Build3Tuples 100 [] false 5 17; Ret (qsort ttable_tentry_cmpfunc t))
    = Ret triples_5_to_17 ∧
  Qkptuples.grow_candidates triples_5_to_17 4 triples_5_to_17
    = Ret [mk_tentry [3; 4; 12] 13; mk_tentry [8; 9; 12] 17] ∧
  Qkptuples.RemDupTuples [mk_tentry [3; 4; 12] 13; mk_tentry [8; 9; 12] 17]
    = Ret [mk_tentry [3; 4; 12] 13] ∧
  @Qkptuples.main decimal_parsers 100 ["qkptuples"; "4"; "1"; "17"]%string
    = Ret (0, [TupleLine (mk_tentry [3; 4; 12] 13)]) ∧
  Ptuples.RemDupTuples [mk_tentry [3; 4; 12] 13; mk_tentry [8; 9; 12] 17]
    = Ret [mk_tentry [3; 4; 12] 13; mk_tentry [8; 9; 12] 17] ∧
  dedup_runs (qsort ttable_tentry_cmpfunc
                [mk_tentry [3; 4; 12] 13; mk_tentry [8; 9; 12] 17])
    = [mk_tentry [3; 4; 12] 13; mk_tentry [8; 9; 12] 17].
Proof. repeat split; by vm_compute. Qed.

(** C6, at a table whose two entries both have [b = 25]: the search finds
    the entry at index 1, the backward scan runs only while [index > 1],
    and the result is 1 although the run starts at index 0. *)
Theorem GetFirstBIndex_on_run_at_0 :
  Qkptuples.GetFirstBIndex [mk_tentry [7; 24] 25; mk_tentry [15; 20] 25] 25 = 1 ∧
  Sorted (cmp_le ttable_tentry_Bonly_cmpfunc) [mk_tentry [7; 24] 25; mk_tentry [15; 20] 25] ∧
  b <$> ([mk_tentry [7; 24] 25; mk_tentry [15; 20] 25] !! 0%nat) = Some 25.
Proof.
  split; [by vm_compute|]. split; [|done].
  repeat constructor; by vm_compute.
Qed.

(** ** Termination of the approximate engine *)

(** A loop whose body lowers a non-negative measure ends, within as many
    turns as the measure allows. *)
Lemma while_loop_total {St : Type} (I : St → Prop) (mu : St → Z)
    (cond : St → outcome bool) (body : St → outcome St) :
  (∀ s, I s → 0 ≤ mu s ∧ ∃ c, cond s = Ret c) →
  (∀ s, I s → cond s = Ret true → ∃ s', body s = Ret s' ∧ I s' ∧ mu s' < mu s) →
  ∀ (n : nat) s, I s → mu s < Z.of_nat n →
    ∃ s', while_loop n cond body s = Ret s' ∧ I s'.
Proof.
  intros Hcond Hbody. induction n as [|n IH]; intros s Hs Hmu.
  - destruct (Hcond s Hs) as [? _]. lia.
  - cbn [while_loop]. destruct (Hcond s Hs) as [_ [c Hc]]. rewrite Hc. cbn [bind].
    destruct c; [|eauto].
    destruct (Hbody s Hs Hc) as (s1 & -> & Hs1 & Hlt). cbn [bind].
    apply IH; [done|lia].
Qed.



Lemma mpz_sqrt_nonneg z : 0 ≤ z → mpz_sqrt z = Ret (Z.sqrt z).
Proof. intros Hz. unfold mpz_sqrt. by destruct (Z.ltb_spec z 0); [lia|]. Qed.

Lemma at_least_1 x : 1 ≤ (if x <? 1 then 1 else x).
Proof. destruct (Z.ltb_spec x 1); lia. Qed.




Lemma copy_loop_total (src : list Z) (f : Z → Z) : ∀ n start dst,
  0 ≤ start →
  (∀ i, start ≤ i < start + Z.of_nat n →
        0 ≤ f i < Z.of_nat (length src) ∧ i < Z.of_nat (length dst)) →
  ∃ dst',
    for_range n start (fun k dst => do x <- arr_get src (f k); arr_set dst k x) dst
      = Ret dst' ∧
    length dst' = length dst.
Proof.
  intros n start dst Hstart Hr.
  apply (for_range_total (fun _ d => length d = length dst)); [|done].
  intros i d Hi Hd. destruct (Hr i Hi) as [Hf Hdst].
  destruct (arr_get_total src (f i) Hf) as (x & -> & _). cbn [bind].
  rewrite arr_set_total by lia. eexists. split; [done|]. by rewrite length_insert.
Qed.

Lemma grow_avalues_total avalues_old (j : nat) t0 t1 :
  (j < length avalues_old)%nat →
  ∃ avalues,
    Qkptuples.grow_avalues (Z.of_nat (S (length avalues_old))) avalues_old (Z.of_nat j)
      [t0; t1] = Ret avalues.
Proof.
  intros Hj. unfold Qkptuples.grow_avalues.
  destruct (copy_loop_total avalues_old (fun k => k) (Z.to_nat (Z.of_nat j)) 0
              (replicate (Z.to_nat (Z.of_nat (S (length avalues_old)))) 0))
    as (av1 & -> & Hl1); [done| |].
  { intros i Hi. rewrite length_replicate. lia. }
  rewrite length_replicate in Hl1. cbn [bind].
  change (arr_get [t0; t1] 0) with (Ret t0). change (arr_get [t0; t1] 1) with (Ret t1).
  cbn [bind]. rewrite arr_set_total by lia. cbn [bind].
  rewrite arr_set_total by (rewrite length_insert; lia). cbn [bind].
  destruct (copy_loop_total avalues_old (fun k => k - 1)
              (Z.to_nat (Z.of_nat (S (length avalues_old)) - (Z.of_nat j + 1 + 1)))
              (Z.of_nat j + 1 + 1)
              (<[Z.to_nat (Z.of_nat j + 1) := t1]> (<[Z.to_nat (Z.of_nat j) := t0]> av1)))
    as (av2 & -> & _); [lia| |eauto].
  intros i Hi. rewrite !length_insert. lia.
Qed.






(** ** The runs on accepted command lines end *)

(** [ptuples] on a command line it accepts, with [b_max >= 2]: given enough
    turns of the odometer loop the run ends with exit code 0. *)
Lemma Ptuples_main_total `{P : Parsers} argv :
  (length argv = 4 ∨ length argv = 5)%nat → 3 ≤ tuple_size argv →
  1 ≤ user_b_min argv ≤ user_b_max argv → 2 ≤ user_b_max argv →
  user_b_max argv ≤ Ptuples.MAXB →
  ∃ fuel out, Ptuples.main fuel argv = Ret (0, out).
Proof.
  intros Hargc HN Hb Hb2 Hmax.
  destruct (Ptuples_BuildNTuples_total (DoOnlyPrimitives argv) _ _ _ Hb Hb2 Hmax HN)
    as (fuel & tuples & Hrun).
  exists fuel. unfold Ptuples.main. cbv zeta.
  assert (negb ((length argv =? 4)%nat || (length argv =? 5)%nat) = false) as ->
    by (destruct Hargc as [-> | ->]; done).
  rewrite !(proj2 (Z.ltb_ge _ _)) by lia.
  rewrite Hrun. cbn [bind]. eauto.
Qed.


(** ** The loads from the square table

    [PtuplesRaw] and [Ptuples] differ in the loads outside the square table
    only: a run of [Ptuples] that returns is a run of [PtuplesRaw]. *)









(** ** The run of [ptuples] with [b_max = 1]

    The square table has no entry then, and every load from it gives a
    word beside it. *)









(** ** Exit codes *)


(** * The exhaustive engine misses nothing *)

Lemma digits_sum_nonneg d : 0 ≤ digits_sum d.
Proof. unfold digits_sum. induction d as [|x d IH]; simpl; [done|]. nia. Qed.

Lemma digits_sum_app l1 l2 : digits_sum (l1 ++ l2) = digits_sum l1 + digits_sum l2.
Proof. unfold digits_sum. by rewrite map_app, sum_squares_app. Qed.

Lemma digits_sum_take_le (j : nat) d : digits_sum (take j d) ≤ digits_sum d.
Proof.
  rewrite <- (take_drop j d) at 2. rewrite digits_sum_app.
  pose proof (digits_sum_nonneg (drop j d)). lia.
Qed.

Lemma digits_sum_take_S (j : nat) d x :
  d !! j = Some x → digits_sum (take (S j) d) = digits_sum (take j d) + (x + 1) * (x + 1).
Proof. intros Hx. by rewrite (take_S_r _ _ x), digits_sum_snoc. Qed.

Lemma digits_sum_last (k : nat) d x :
  length d = S k → d !! k = Some x →
  digits_sum d = digits_sum (take k d) + (x + 1) * (x + 1).
Proof.
  intros Hlen Hx. rewrite <- (digits_sum_take_S _ _ _ Hx). by rewrite take_ge by lia.
Qed.

(** Where the last tumbler jumps to, and what lies below. *)
Lemma skip_ahead_bound B b_min_sqr prev j :
  1 ≤ B < 2 ^ 32 →
  Ptuples.skip_ahead B b_min_sqr prev = Ret (Some j) →
  0 ≤ j < B ∧ ∀ x, 0 ≤ x < j → prev + (x + 1) * (x + 1) < b_min_sqr.
Proof.
  intros HB Hskip.
  destruct (skip_ahead_total B b_min_sqr prev HB) as (r & Hr & Hrange).
  rewrite Hr in Hskip. injection Hskip as ->. split; [by apply Hrange|].
  intros x Hx. unfold Ptuples.skip_ahead in Hr.
  destruct (Z.leb_spec 1 (b_min_sqr - prev)) as [Ht|Ht]; [|discriminate].
  rewrite mpz_sqrt_nonneg in Hr by lia. cbn [bind] in Hr. injection Hr as Hr.
  set (r := Z.sqrt (b_min_sqr - prev)) in *.
  assert (Hr2 : r * r ≤ b_min_sqr - prev).
  { pose proof (Z.sqrt_spec (b_min_sqr - prev) ltac:(lia)) as Hs. cbv zeta in Hs.
    unfold r. lia. }
  assert (Hr0 : 0 ≤ r) by apply Z.sqrt_nonneg.
  assert (Hu : 0 ≤ mpz_get_ui r ≤ r ∧ mpz_get_ui r < two64).
  { unfold mpz_get_ui. rewrite Z.abs_eq by done.
    pose proof (Z.mod_pos_bound r two64 ltac:(by unfold two64)).
    pose proof (Z.mod_le r two64 Hr0 ltac:(by unfold two64)). lia. }
  set (u := mpz_get_ui r) in *. unfold two64 in Hu.
  assert (Hx1 : x + 1 < r).
  { destruct (Z.ltb_spec 0 u).
    - rewrite (to_u64_small (u - 1)) in Hr by (unfold two64; lia).
      destruct (Z.leb_spec B (u - 1)).
      + rewrite to_u64_small in Hr by (unfold two64; lia). lia.
      + lia.
    - destruct (Z.leb_spec B u).
      + rewrite to_u64_small in Hr by (unfold two64; lia). lia.
      + lia. }
  assert ((x + 1) * (x + 1) < r * r) by nia. lia.
Qed.

(** The carry loop passes over hits only after they were saved: a tumbler
    is sent to the end of its range only when its subtotal is already
    above [b_max^2]. *)
Lemma carry_covered B (T : nat) b_min b_max sub idxA idxB tmp i' idxC :
  1 ≤ B < 2 ^ 32 → (1 ≤ T)%nat →
  length idxA = T →
  consistent B idxA sub (Z.of_nat T) →
  length idxB = T →
  (∀ j : nat, (j < T - 1)%nat → idxB !! j = idxA !! j) →
  (∃ v, idxB !! (T - 1)%nat = Some v ∧ 0 ≤ v ≤ B) →
  covered B T b_min b_max idxB tmp →
  Ptuples.carry B (b_max * b_max) sub (Z.of_nat T - 1) idxB = Ret (i', idxC) →
  (0 ≤ i' → covered B T b_min b_max idxC tmp) ∧
  (i' < 0 → covered_all B T b_min b_max tmp).
Proof.
  intros HB HT HlA Hc HlB Hpre Hlast Hcov Hrun. unfold Ptuples.carry in Hrun.
  apply (while_loop_inv (fun '(i, l) =>
           -1 ≤ i ≤ Z.of_nat T - 1 ∧ length l = T ∧
           (∀ j : nat, Z.of_nat j < i → l !! j = idxA !! j) ∧
           (∀ j : nat, i < Z.of_nat j → (j < T)%nat → l !! j = Some 0) ∧
           (0 ≤ i → (∃ v, l !! Z.to_nat i = Some v ∧ 0 ≤ v ≤ B) ∧
                    covered B T b_min b_max l tmp) ∧
           (i < 0 → covered_all B T b_min b_max tmp))) in Hrun.
  - destruct Hrun as [(_ & _ & _ & _ & Hpos & Hneg) _]. split; [|done].
    intros Hi. by apply Hpos.
  - clear Hrun Hcov Hlast Hpre HlB idxB i' idxC.
    intros [i l] [i2 l2] (Hi & Hl & Hpre & Hzero & Hpos & _) Hcond Hbody.
    destruct (Z.leb_spec 0 i) as [Hi0|]; [|discriminate].
    destruct (Hpos Hi0) as [(v & Hv & Hvr) Hcov].
    rewrite (arr_get_at l i (Z.to_nat i) v) in Hcond by (done || lia).
    cbn [bind] in Hcond. injection Hcond as Hcond. apply Z.leb_le in Hcond.
    rewrite to_u64_small in Hcond by (unfold two64; lia).
    assert (v = B) as -> by lia. clear Hcond Hvr.
    set (n := Z.to_nat i) in *.
    assert (Hn : i = Z.of_nat n) by lia.
    assert (HnT : (n < T)%nat) by lia.
    inv_bind_as Hbody l1 Hl1. apply arr_set_Ret in Hl1 as [_ ->]. fold n in Hbody.
    destruct (Z.leb_spec 0 (i - 1)) as [Hi1|Hi1].
    + inv_bind_as Hbody s Hs. inv_bind_as Hbody y Hy. inv_bind_as Hbody l3 Hl3.
      injection Hbody as <- <-.
      set (m := (n - 1)%nat).
      assert (Hm : i - 1 = Z.of_nat m) by lia.
      rewrite Hm in Hs, Hy, Hl3.
      apply arr_get_Ret in Hs as [_ Hs]. rewrite Nat2Z.id in Hs.
      apply arr_get_Ret in Hy as [_ Hy]. rewrite Nat2Z.id in Hy.
      rewrite list_lookup_insert_ne in Hy by lia.
      apply arr_set_Ret in Hl3 as [_ ->]. rewrite Nat2Z.id.
      destruct (Hc m ltac:(lia)) as (y' & Hy' & Hyr & Hsub).
      rewrite Hpre in Hy by lia.
      assert (y' = y) as -> by congruence.
      rewrite Hsub in Hs. injection Hs as <-.
      assert (Htakem : take m l = take m idxA).
      { apply take_prefix_ext. intros j Hj. apply Hpre. lia. }
      assert (Hlm : l !! m = Some y) by (rewrite Hpre by lia; done).
      set (v' := if b_max * b_max <? digits_sum (take (S m) idxA)
                 then to_s64 B else to_s64 (y + 1)).
      assert (Hv' : 0 ≤ v' ≤ B ∧
                    (v' = y + 1 ∨ (v' = B ∧ b_max * b_max < digits_sum (take (S m) idxA)))).
      { unfold v'. destruct (Z.ltb_spec (b_max * b_max) (digits_sum (take (S m) idxA)));
          rewrite to_s64_small by lia; split; try lia; auto. }
      clearbody v'. destruct Hv' as [Hv'r Hv'c].
      split; [lia|]. split; [by rewrite !length_insert|].
      split; [|split; [|split]].
      * intros j Hj. rewrite !list_lookup_insert_ne by lia. apply Hpre. lia.
      * intros j Hj HjT. destruct (decide (j = n)) as [->|Hne].
        -- rewrite list_lookup_insert_ne by lia. by rewrite list_lookup_insert_eq by lia.
        -- rewrite !list_lookup_insert_ne by lia. apply Hzero; lia.
      * intros _. rewrite Hm, Nat2Z.id. split.
        { exists v'. split; [|done]. apply list_lookup_insert_eq.
          rewrite length_insert. lia. }
        intros d [Hdl Hdr] (j & x & y0 & Htake & Hdj & Hlj & Hlt) Hhit.
        assert (HjT : (j < T)%nat).
        { apply lookup_lt_Some in Hlj. rewrite !length_insert in Hlj. lia. }
        assert (Hx0 : 0 ≤ x < B).
        { rewrite Forall_lookup in Hdr. by apply (Hdr j). }
        destruct (lt_eq_lt_dec j m) as [[Hjm|Hjm]|Hjm].
        -- apply Hcov; [done| |done]. exists j, x, y0.
           rewrite !take_insert_ge in Htake by lia.
           rewrite !list_lookup_insert_ne in Hlj by lia. done.
        -- subst j. rewrite list_lookup_insert_eq in Hlj by (rewrite length_insert; lia).
           injection Hlj as <-.
           rewrite !take_insert_ge in Htake by lia.
           destruct (Z.lt_trichotomy x y) as [Hxy|[Hxy|Hxy]].
           ++ apply Hcov; [done| |done]. exists m, x, y. done.
           ++ subst x. destruct (lookup_lt_is_Some_2 d n ltac:(lia)) as [dn Hdn].
              apply Hcov; [done| |done]. exists n, dn, B.
              split; [|split; [done|split; [done|]]].
              ** replace n with (S m) by lia.
                 rewrite (take_S_r d m y), (take_S_r l m y) by done. by rewrite Htake.
              ** rewrite Forall_lookup in Hdr. apply (Hdr n dn Hdn).
           ++ destruct Hv'c as [->|[-> Hover]]; [lia|].
              destruct Hhit as [[_ Hhi] _].
              pose proof (digits_sum_take_le (S m) d) as Hle.
              rewrite (digits_sum_take_S m d x Hdj) in Hle.
              rewrite (digits_sum_take_S m idxA y Hy') in Hover.
              rewrite Htake, Htakem in Hle. nia.
        -- destruct (decide (j = n)) as [->|Hne].
           ++ rewrite list_lookup_insert_ne in Hlj by lia.
              rewrite list_lookup_insert_eq in Hlj by lia. injection Hlj as <-. lia.
           ++ rewrite !list_lookup_insert_ne in Hlj by lia.
              rewrite Hzero in Hlj by lia. injection Hlj as <-. lia.
      * lia.
    + injection Hbody as <- <-.
      assert (n = 0%nat) as Hn0 by lia.
      split; [lia|]. split; [by rewrite length_insert|].
      split; [|split; [|split]].
      * intros j Hj. lia.
      * intros j Hj HjT. destruct (decide (j = n)) as [->|Hne].
        -- by rewrite list_lookup_insert_eq by lia.
        -- rewrite list_lookup_insert_ne by lia. apply Hzero; lia.
      * lia.
      * intros _ d [Hdl Hdr] Hhit.
        destruct (lookup_lt_is_Some_2 d 0 ltac:(lia)) as [d0 Hd0].
        apply Hcov; [done| |done]. exists 0%nat, d0, B.
        rewrite Hn0 in Hv. split; [done|split; [done|split; [done|]]].
        rewrite Forall_lookup in Hdr. apply (Hdr 0%nat d0 Hd0).
  - split; [lia|]. split; [done|]. split; [|split; [|split]].
    + intros j Hj. apply Hpre. lia.
    + intros j Hj HjT. lia.
    + intros _. replace (Z.to_nat (Z.of_nat T - 1)) with (T - 1)%nat by lia. done.
    + lia.
Qed.

(** One turn of the odometer loop: the hits before the new index vector
    are those before the old one, the index vector of this turn, which is
    saved if it is a hit, and index vectors the turn jumps over, none of
    which is a hit. *)
Lemma odometer_step_covered b_min b_max (T : nat) s s' :
  1 ≤ b_min ≤ b_max → b_max ≤ Ptuples.MAXB →
  od_inv (b_max - 1) T b_min b_max s →
  0 ≤ Ptuples.od_i s →
  covered (b_max - 1) T b_min b_max (Ptuples.sqrindextumbler s) (Ptuples.tmp_table s) →
  Ptuples.odometer_step (Ptuples.build_sqrs (b_max - 1)) (b_max - 1) (Z.of_nat T - 1)
    (b_min * b_min) (b_max * b_max) s = Ret s' →
  (0 ≤ Ptuples.od_i s' →
   covered (b_max - 1) T b_min b_max (Ptuples.sqrindextumbler s') (Ptuples.tmp_table s')) ∧
  (Ptuples.od_i s' < 0 → covered_all (b_max - 1) T b_min b_max (Ptuples.tmp_table s')).
Proof.
  unfold Ptuples.MAXB. intros Hb Hmax [Hil Hsl Hi Hc Htmp] Hi0 Hcov Hrun.
  destruct s as [i idx sub tmp]. cbn [Ptuples.od_i Ptuples.sqrindextumbler
    Ptuples.subtotaltumbler Ptuples.tmp_table] in *.
  assert (Hn : b_max - 1 < 2 ^ 32) by lia.
  set (B := b_max - 1) in *.
  unfold Ptuples.odometer_step in Hrun.
  cbn [Ptuples.od_i Ptuples.sqrindextumbler Ptuples.subtotaltumbler Ptuples.tmp_table] in Hrun.
  rewrite (Z.max_r i) in Hrun by lia.
  set (k := (T - 1)%nat).
  assert (Hlast : Z.of_nat T - 1 = Z.of_nat k) by lia.
  rewrite Hlast in Hrun.
  inv_bind_as Hrun sub1 Hsub1.
  replace i with (Z.of_nat (Z.to_nat i)) in Hsub1, Hc by lia.
  apply set_subtotals_consistent in Hsub1 as [Hsl1 Hc1]; [|done|done].
  rewrite Z.max_r in Hc1 by lia.
  inv_bind_as Hrun x Hx. inv_bind_as Hrun sq Hsq. inv_bind_as Hrun prev Hprev.
  inv_bind_as Hrun sub2 Hsub2.
  apply arr_get_Ret in Hx as [_ Hx]. rewrite Nat2Z.id in Hx.
  apply sqrs_read in Hsq as [Hxr ->]; [|done].
  assert (HB : 1 ≤ B < 2 ^ 32) by lia.
  assert (Hk1 : (1 ≤ k)%nat).
  { apply arr_get_Ret in Hprev as [? _]. lia. }
  assert (HT : T = S k) by lia.
  apply (consistent_prev _ _ _ _ _ Hc1) in Hprev.
  apply arr_set_Ret in Hsub2 as [Hks Hsub2]. rewrite Nat2Z.id in Hsub2.
  assert (Hc2 : consistent B idx sub2 (Z.of_nat k + 1)).
  { eapply consistent_set; [exact Hc1|lia|lia|exact Hxr|exact Hprev| |exact Hsub2].
    by rewrite list_insert_id. }
  assert (Hsl2 : length sub2 = T) by (subst sub2; rewrite length_insert; lia).
  inv_bind_as Hrun st Hst.
  assert (Hstate : length (fst st) = T ∧ length (snd st) = T ∧
                   consistent B (fst st) (snd st) (Z.of_nat k + 1) ∧
                   take k (fst st) = take k idx ∧
                   covered B T b_min b_max (fst st) tmp).
  { destruct (Z.eqb_spec x 0) as [Hx0|Hx0].
    - inv_bind_as Hst jump Hjump. destruct jump as [sqrindex|].
      + inv_bind_as Hst idx2 Hidx2. inv_bind_as Hst x2 Hx2. inv_bind_as Hst sq2 Hsq2.
        inv_bind_as Hst sub3 Hsub3. injection Hst as <-. simpl.
        apply skip_ahead_bound in Hjump as [Hjr Hbelow]; [|done].
        rewrite to_s64_small in Hidx2 by lia.
        apply arr_set_Ret in Hidx2 as [_ Hidx2]. rewrite Nat2Z.id in Hidx2.
        apply arr_get_Ret in Hx2 as [_ Hx2]. rewrite Nat2Z.id in Hx2.
        rewrite Hidx2, list_lookup_insert_eq in Hx2 by lia. injection Hx2 as Hx2.
        apply sqrs_read in Hsq2 as [Hx2r ->]; [|done].
        apply arr_set_Ret in Hsub3 as [_ Hsub3]. rewrite Nat2Z.id in Hsub3.
        split; [subst idx2; by rewrite length_insert|].
        split; [subst sub3; by rewrite length_insert|].
        split; [|split].
        * eapply consistent_set;
            [eapply consistent_weaken; [|exact Hc2]; lia|lia|lia|exact Hx2r|exact Hprev| |
             exact Hsub3].
          by rewrite <- Hx2.
        * subst idx2. by rewrite take_insert_ge by lia.
        * subst idx2. intros d [Hdl Hdr] (j & xd & yd & Htake & Hdj & Hlj & Hlt) Hhit.
          assert (HjT : (j < T)%nat).
          { apply lookup_lt_Some in Hlj. rewrite length_insert in Hlj. lia. }
          assert (Hxd : 0 ≤ xd < B).
          { rewrite Forall_lookup in Hdr. by apply (Hdr j). }
          destruct (decide (j = k)) as [->|Hne].
          -- rewrite list_lookup_insert_eq in Hlj by lia. injection Hlj as <-.
             rewrite take_insert_ge in Htake by lia.
             destruct Hhit as [[Hlo _] _].
             rewrite (digits_sum_last k d xd) in Hlo by (done || lia).
             rewrite Htake, <- Hprev in Hlo.
             specialize (Hbelow xd ltac:(lia)). lia.
          -- apply Hcov; [done| |done]. exists j, xd, yd.
             rewrite take_insert_ge in Htake by lia.
             rewrite list_lookup_insert_ne in Hlj by lia. done.
      + injection Hst as <-. simpl. done.
    - injection Hst as <-. simpl. done. }
  clear Hst. destruct st as [idxA subA]. simpl in Hstate.
  destruct Hstate as (HilA & HslA & HcA & HtakeA & HcovA).
  replace (Z.of_nat k + 1) with (Z.of_nat T) in HcA by lia.
  inv_bind_as Hrun total Htotal. inv_bind_as Hrun tmp2 Htmp2.
  inv_bind_as Hrun x3 Hx3. inv_bind_as Hrun idxB HidxB. inv_bind_as Hrun c Hcarry.
  destruct c as [i' idxC]. injection Hrun as <-.
  cbn [Ptuples.od_i Ptuples.sqrindextumbler Ptuples.subtotaltumbler Ptuples.tmp_table].
  apply arr_get_Ret in Htotal as [_ Htotal]. rewrite Nat2Z.id in Htotal.
  destruct (HcA k ltac:(lia)) as (y & Hy & Hyr & Hsk).
  rewrite Hsk in Htotal. injection Htotal as Htotal.
  rewrite take_ge in Htotal by lia.
  apply arr_get_Ret in Hx3 as [_ Hx3]. rewrite Nat2Z.id in Hx3.
  assert (x3 = y) as -> by congruence.
  apply arr_set_Ret in HidxB as [_ HidxB]. rewrite Nat2Z.id in HidxB.
  (* the index vector of this turn *)
  assert (Hsaved : ∀ d, in_table B T d → before d idxA ∨ d = idxA →
                        hit b_min b_max d → entry_of d ∈ tmp2).
  { assert (Hmono : ∀ e, e ∈ tmp → e ∈ tmp2).
    { destruct (negb _ && _); [|by injection Htmp2 as <-].
      unfold Ptuples.SaveToTuple in Htmp2. inv_bind_as Htmp2 b0 Hb0.
      injection Htmp2 as <-. intros e He. unfold MovePTuple.
      apply elem_of_app. by left. }
    intros d Hd [Hbef| ->] Hhit; [by apply Hmono, HcovA|].
    destruct Hhit as [[Hlo Hhi] Hsq]. rewrite Htotal in Hlo, Hhi, Hsq.
    apply Z.ltb_ge in Hlo. apply Z.ltb_ge in Hhi.
    rewrite Hlo, Hhi, Hsq in Htmp2. simpl in Htmp2.
    unfold Ptuples.SaveToTuple in Htmp2. inv_bind_as Htmp2 b0 Hb0.
    apply mpz_sqrt_Ret in Hb0 as [_ ->]. injection Htmp2 as <-.
    unfold MovePTuple. apply elem_of_app. right. apply list_elem_of_singleton.
    unfold entry_of. rewrite Htotal. f_equal. f_equal.
    apply Forall_fmap_ext_1. destruct Hd as [_ Hdr].
    eapply Forall_impl; [exact Hdr|]. simpl.
    intros z Hz. symmetry. apply to_u64_small. unfold two64. lia. }
  (* the last tumbler moves on *)
  set (v := if b_max * b_max <? total then to_s64 B else to_s64 (y + 1)) in *.
  assert (Hv : 0 ≤ v ≤ B ∧ (v = y + 1 ∨ (v = B ∧ b_max * b_max < total))).
  { unfold v. destruct (Z.ltb_spec (b_max * b_max) total);
      rewrite to_s64_small by lia; split; try lia; auto. }
  clearbody v. destruct Hv as [Hvr Hvc].
  assert (HcovB : covered B T b_min b_max idxB tmp2).
  { subst idxB. intros d [Hdl Hdr] (j & xd & yd & Htake & Hdj & Hlj & Hlt) Hhit.
    assert (HjT : (j < T)%nat).
    { apply lookup_lt_Some in Hlj. rewrite length_insert in Hlj. lia. }
    assert (Hxd : 0 ≤ xd < B).
    { rewrite Forall_lookup in Hdr. by apply (Hdr j). }
    destruct (decide (j = k)) as [->|Hne].
    - rewrite list_lookup_insert_eq in Hlj by lia. injection Hlj as <-.
      rewrite take_insert_ge in Htake by lia.
      destruct (Z.lt_trichotomy xd y) as [Hxy|[Hxy|Hxy]].
      + apply Hsaved; [done| |done]. left. exists k, xd, y. done.
      + subst xd. apply Hsaved; [done| |done]. right.
        rewrite <- (take_ge d (S k)), <- (take_ge idxA (S k)) by lia.
        rewrite (take_S_r d k y), (take_S_r idxA k y) by done. by rewrite Htake.
      + destruct Hvc as [->|[-> Hover]]; [lia|].
        destruct Hhit as [[_ Hhi] _].
        rewrite (digits_sum_last k d xd) in Hhi by (done || lia).
        rewrite <- Htotal, (digits_sum_last k idxA y) in Hover by (done || lia).
        rewrite Htake in Hhi. nia.
    - apply Hsaved; [done| |done]. left. exists j, xd, yd.
      rewrite take_insert_ge in Htake by lia.
      rewrite list_lookup_insert_ne in Hlj by lia. done. }
  rewrite <- Hlast in Hcarry.
  eapply (carry_covered B T b_min b_max subA idxA idxB tmp2 i' idxC);
    [done|lia|done|done| | | |done|exact Hcarry].
  - subst idxB. by rewrite length_insert.
  - intros j Hj. subst idxB. apply list_lookup_insert_ne. lia.
  - exists v. split; [|done]. subst idxB. apply list_lookup_insert_eq. lia.
Qed.

(** The odometer loop ends with every hit in the table. *)
Lemma odometer_loop_covered fuel b_min b_max (T : nat) s :
  1 ≤ b_min ≤ b_max → b_max ≤ Ptuples.MAXB →
  while_loop fuel (fun s => Ret (0 <=? Ptuples.od_i s))
    (Ptuples.odometer_step (Ptuples.build_sqrs (b_max - 1)) (b_max - 1) (Z.of_nat T - 1)
       (b_min * b_min) (b_max * b_max))
    (Ptuples.mk_odometer 0 (replicate T 0) (replicate T 0) []) = Ret s →
  (1 ≤ T)%nat →
  covered_all (b_max - 1) T b_min b_max (Ptuples.tmp_table s).
Proof.
  intros Hb Hmax Hloop HT.
  apply (while_loop_inv (fun s =>
           od_inv (b_max - 1) T b_min b_max s ∧
           (0 ≤ Ptuples.od_i s →
            covered (b_max - 1) T b_min b_max (Ptuples.sqrindextumbler s)
              (Ptuples.tmp_table s)) ∧
           (Ptuples.od_i s < 0 →
            covered_all (b_max - 1) T b_min b_max (Ptuples.tmp_table s)))) in Hloop.
  - destruct Hloop as [(_ & _ & Hall) Hcond]. injection Hcond as Hcond.
    apply Z.leb_gt in Hcond. by apply Hall.
  - intros s1 s2 (Hinv & Hcov & _) Hcond Hbody. injection Hcond as Hcond.
    apply Z.leb_le in Hcond. split; [by eapply odometer_step_inv|].
    by eapply odometer_step_covered; [done|done|exact Hinv|done|apply Hcov|exact Hbody].
  - split; [|split].
    + split; cbn [Ptuples.od_i Ptuples.sqrindextumbler Ptuples.subtotaltumbler
                    Ptuples.tmp_table]; try by rewrite length_replicate.
      * lia.
      * intros k Hk. lia.
      * constructor.
    + intros _ d [Hdl Hdr] (j & x & y & _ & Hdj & Hlj & Hlt) _.
      cbn [Ptuples.sqrindextumbler] in Hlj.
      apply lookup_replicate in Hlj as [-> _].
      rewrite Forall_lookup in Hdr. specialize (Hdr j x Hdj). lia.
    + cbn [Ptuples.od_i]. lia.
Qed.

Lemma sum_squares_ge_length l : Forall (fun x => 1 ≤ x) l → Z.of_nat (length l) ≤ sum_squares l.
Proof. induction 1 as [|x l Hx _ IH]; simpl; [done|]. nia. Qed.

Lemma sum_squares_elem l x :
  Forall (fun x => 1 ≤ x) l → x ∈ l → x * x + Z.of_nat (length l) - 1 ≤ sum_squares l.
Proof.
  induction 1 as [|y l Hy Hl IH]; intros Hx; [by apply elem_of_nil in Hx|].
  simpl. apply elem_of_cons in Hx as [->|Hx].
  - pose proof (sum_squares_ge_length l Hl). lia.
  - specialize (IH Hx). nia.
Qed.

(** With two or more a-values, each is below [b]. *)
Lemma tuple_ok_avalues_lt n b_min b_max e :
  (2 ≤ n)%nat → 1 ≤ b_min → tuple_ok 1 n b_min b_max e →
  Forall (fun x => 1 ≤ x < b e) (a e).
Proof.
  intros Hn Hmin [Hlen _ Hlo Hsq Hr]. apply Forall_forall. intros x Hx.
  pose proof (sum_squares_elem _ _ Hlo Hx) as Hle.
  rewrite Forall_forall in Hlo. specialize (Hlo x Hx). split; [done|].
  rewrite Hsq, Hlen in Hle. nia.
Qed.

(** In a table of well-formed tuples the a-values determine the entry. *)
Lemma tuple_ok_determined lo n b_min b_max e1 e2 :
  1 ≤ b_min → tuple_ok lo n b_min b_max e1 → tuple_ok lo n b_min b_max e2 →
  a e1 = a e2 → e1 = e2.
Proof.
  intros Hmin [_ _ _ Hsq1 Hr1] [_ _ _ Hsq2 Hr2] Ha.
  destruct e1 as [a1 b1], e2 as [a2 b2]. simpl in *. subst a2. f_equal. nia.
Qed.

(** A well-formed tuple is the entry of the index vector of its a-values,
    which is a hit. *)
Lemma tuple_ok_hit n b_min b_max e :
  (2 ≤ n)%nat → 1 ≤ b_min → tuple_ok 1 n b_min b_max e →
  in_table (b_max - 1) n (map (fun x => x - 1) (a e)) ∧
  hit b_min b_max (map (fun x => x - 1) (a e)) ∧
  entry_of (map (fun x => x - 1) (a e)) = e.
Proof.
  intros Hn Hmin He. pose proof (tuple_ok_avalues_lt n b_min b_max e Hn Hmin He) as Hlt.
  destruct He as [Hlen Hs Hlo Hsq Hr].
  assert (Hback : map (fun x => x + 1) (map (fun x => x - 1) (a e)) = a e).
  { rewrite map_map. rewrite <- (map_id (a e)) at 2. apply map_ext. intros x. lia. }
  assert (Hsum : digits_sum (map (fun x => x - 1) (a e)) = b e * b e).
  { unfold digits_sum. by rewrite Hback. }
  split; [|split].
  - split; [by rewrite length_map|]. apply Forall_fmap.
    eapply Forall_impl; [exact Hlt|]. simpl. lia.
  - unfold hit. rewrite Hsum. split; [nia|].
    unfold mpz_perfect_square_p. rewrite Z.sqrt_square by lia.
    apply andb_true_iff. split; [apply Z.leb_le; nia|apply Z.eqb_refl].
  - unfold entry_of. rewrite Hback, Hsum, Z.sqrt_square by lia.
    rewrite qsort_avalues_id by done. by destruct e.
Qed.

(** The flag of [TupleIsPrimitive], for two or more a-values. *)
Lemma TupleIsPrimitive_flag (avalues : list Z) (b : Z) :
  (2 ≤ length avalues)%nat →
  TupleIsPrimitive avalues b = (gcd_all avalues b =? 1, []).
Proof.
  destruct avalues as [|a0 [|a1 rest]]; simpl; try lia. intros _.
  pose proof (gcd_loop_spec rest (Z.gcd a0 a1) b) as Hspec.
  destruct (gcd_loop rest (Z.gcd a0 a1) (Z.gcd a0 a1 =? 1)) as [g' ip].
  unfold gcd_all. simpl. by rewrite Z.gcd_assoc, Hspec.
Qed.

(** The loop that ends [BuildNTuples] keeps every entry, or in primitive
    mode the entries whose gcd is 1, in their order. *)
Lemma move_to_final_filter lo n b_min b_max prim tmp :
  (2 ≤ n)%nat →
  Forall (tuple_ok lo n b_min b_max) tmp →
  move_to_final prim tmp []
    = (List.filter (fun e => negb prim || (gcd_all (a e) (b e) =? 1)) tmp, []).
Proof.
  intros Hn Hok. unfold move_to_final.
  enough (Hgen : ∀ final acc,
    fold_left
      (fun '(final_table, printed) e =>
         if prim : bool then
           let '(IsPrimitive, p) := TupleIsPrimitive (a e) (b e) in
           if IsPrimitive : bool then (MovePTuple final_table (a e) (b e), printed ++ p)
           else (final_table, printed ++ p)
         else (MovePTuple final_table (a e) (b e), printed))
      tmp (final, acc)
    = (final ++ List.filter (fun e => negb prim || (gcd_all (a e) (b e) =? 1)) tmp, acc))
    by apply (Hgen [] []).
  induction tmp as [|e tmp IH]; intros final acc; simpl.
  - by rewrite app_nil_r.
  - apply Forall_cons in Hok as [He Hok].
    pose proof (MovePTuple_canonical n final e (tuple_ok_canonical _ _ _ _ _ He)) as Hmove.
    rewrite TupleIsPrimitive_flag by (destruct He; lia).
    rewrite Hmove, app_nil_r. destruct prim; simpl.
    + destruct (gcd_all (a e) (b e) =? 1); simpl.
      * rewrite IH by done. by rewrite <- app_assoc.
      * by rewrite IH.
    + rewrite IH by done. by rewrite <- app_assoc.
Qed.

(** What the exhaustive engine returns for a range [main] accepts: a tuple
    is in the table exactly when it is a well-formed [N]-tuple for the
    range, and in primitive mode has gcd 1. *)
Lemma Ptuples_BuildNTuples_exact fuel prim b_min b_max N tuples printed e :
  1 ≤ b_min ≤ b_max → b_max ≤ Ptuples.MAXB → 3 ≤ N →
  Ptuples.BuildNTuples fuel [] prim b_min b_max N = Ret (tuples, printed) →
  e ∈ tuples ↔
    tuple_ok 1 (Z.to_nat (N - 1)) b_min b_max e ∧
    (prim = true → gcd_all (a e) (b e) = 1).
Proof.
  intros Hb Hmax HN Hrun. unfold Ptuples.BuildNTuples in Hrun.
  rewrite mpz_get_ui_small in Hrun by (unfold Ptuples.MAXB, two64 in *; lia).
  set (T := Z.to_nat (N - 1)) in *.
  replace (N - 1 - 1) with (Z.of_nat T - 1) in Hrun by lia.
  inv_bind_as Hrun s Hloop. inv_bind_as Hrun tmp Hdedup. injection Hrun as Hmove.
  pose proof (odometer_loop_covered _ _ _ _ _ Hb Hmax Hloop ltac:(lia)) as Hall.
  apply odometer_loop_ok in Hloop; [|done|done|lia].
  rewrite (Ptuples_RemDupTuples_spec T) in Hdedup.
  2:{ eapply Forall_impl; [exact Hloop|]. apply tuple_ok_canonical. }
  injection Hdedup as <-.
  set (sorted := qsort ttable_tentry_cmpfunc (Ptuples.tmp_table s)) in *.
  assert (Hsorted : Forall (tuple_ok 1 T b_min b_max) sorted) by by apply qsort_Forall.
  assert (Hdd : Forall (tuple_ok 1 T b_min b_max) (dedup_runs sorted)).
  { eapply sublist_Forall; [apply dedup_runs_sublist|done]. }
  rewrite (move_to_final_filter 1 T b_min b_max) in Hmove by (done || lia).
  injection Hmove as <- <-. rewrite list_elem_of_In, filter_In, <- list_elem_of_In.
  split.
  - intros [He Hkeep]. rewrite Forall_forall in Hdd. split; [by apply Hdd|].
    intros ->. simpl in Hkeep. by apply Z.eqb_eq.
  - intros [He Hprim]. split.
    + destruct (tuple_ok_hit T b_min b_max e ltac:(lia) ltac:(lia) He) as (Hin & Hhit & Hentry).
      specialize (Hall _ Hin Hhit). rewrite Hentry in Hall.
      apply (qsort_elem_of ttable_tentry_cmpfunc) in Hall. fold sorted in Hall.
      assert (∃ e', e' ∈ dedup_runs sorted ∧ a e' = a e) as (e' & He' & Hae').
      { destruct sorted as [|e0 l]; [by apply elem_of_nil in Hall|]. simpl.
        apply elem_of_cons in Hall as [->|Hall].
        - exists e0. split; [by left|done].
        - destruct (dedup_from_covers l (a e0) e Hall) as [Hsame|(e' & He' & Hae')].
          + exists e0. split; [by left|done].
          + exists e'. split; [by right|done]. }
      rewrite Forall_forall in Hdd.
      by rewrite <- (tuple_ok_determined 1 T b_min b_max e' e ltac:(lia) (Hdd _ He') He Hae').
    + destruct prim; [|done]. simpl. apply Z.eqb_eq. by apply Hprim.
Qed.

Lemma List_filter_sublist {A} (f : A → bool) l : sublist (List.filter f l) l.
Proof. induction l as [|x l IH]; simpl; [constructor|]. destruct (f x); by constructor. Qed.

Lemma sublist_fmap_2 {A B} (f : A → B) (l1 l2 : list A) :
  sublist l1 l2 → sublist (f <$> l1) (f <$> l2).
Proof. induction 1; simpl; by constructor. Qed.

Lemma List_filter_all {A} (f : A → bool) l : (∀ x, f x = true) → List.filter f l = l.
Proof. intros Hf. induction l as [|x l IH]; simpl; [done|]. by rewrite Hf, IH. Qed.

(** The first entries of the runs of a sorted table of well-formed tuples
    have pairwise different a-values. *)
Lemma dedup_runs_NoDup lo n b_min b_max (l : ttable) :
  1 ≤ b_min →
  Forall (tuple_ok lo n b_min b_max) l →
  Sorted (cmp_le ttable_tentry_cmpfunc) l →
  NoDup (a <$> dedup_runs l).
Proof.
  intros Hmin Hok Hs.
  assert (Hss : StronglySorted tentry_le l).
  { apply (Sorted_table_le n); [by eapply tuple_ok_arity|done]. }
  destruct l as [|e0 l]; simpl; [constructor|].
  destruct (dedup_from_NoDup l e0 Hss) as [Hne Hnd].
  { intros e1 e2 H1 H2 Ha. rewrite Forall_forall in Hok.
    by rewrite (tuple_ok_determined lo n b_min b_max e1 e2 Hmin (Hok _ H1) (Hok _ H2) Ha). }
  constructor; [|done]. rewrite list_elem_of_fmap. intros (e & Hae & He).
  rewrite Forall_forall in Hne. by apply (Hne e).
Qed.

(** The two modes of the exhaustive engine run the same search: there is
    one working table, and each mode returns its first-of-run entries, all
    of them or those with gcd 1. *)
Lemma Ptuples_BuildNTuples_structure fuel prim b_min b_max N tuples printed :
  1 ≤ b_min ≤ b_max → b_max ≤ Ptuples.MAXB → 3 ≤ N →
  Ptuples.BuildNTuples fuel [] prim b_min b_max N = Ret (tuples, printed) →
  ∃ table,
    Forall (tuple_ok 1 (Z.to_nat (N - 1)) b_min b_max) table ∧
    NoDup (a <$> table) ∧
    ∀ prim', Ptuples.BuildNTuples fuel [] prim' b_min b_max N
             = Ret (List.filter (fun e => negb prim' || (gcd_all (a e) (b e) =? 1)) table, []).
Proof.
  intros Hb Hmax HN Hrun. unfold Ptuples.BuildNTuples in *.
  rewrite mpz_get_ui_small in * by (unfold Ptuples.MAXB, two64 in *; lia).
  set (T := Z.to_nat (N - 1)) in *.
  replace (N - 1 - 1) with (Z.of_nat T - 1) in * by lia.
  inv_bind_as Hrun s Hloop. inv_bind_as Hrun tmp Hdedup. clear Hrun.
  rewrite Hloop. cbn [bind].
  apply odometer_loop_ok in Hloop; [|done|done|lia].
  rewrite (Ptuples_RemDupTuples_spec T) in *.
  2,3: eapply Forall_impl; [exact Hloop|]; apply tuple_ok_canonical.
  injection Hdedup as <-. cbn [bind].
  set (sorted := qsort ttable_tentry_cmpfunc (Ptuples.tmp_table s)) in *.
  assert (Hsorted : Forall (tuple_ok 1 T b_min b_max) sorted) by by apply qsort_Forall.
  assert (Hdd : Forall (tuple_ok 1 T b_min b_max) (dedup_runs sorted)).
  { eapply sublist_Forall; [apply dedup_runs_sublist|done]. }
  exists (dedup_runs sorted). split; [done|]. split.
  - apply (dedup_runs_NoDup 1 T b_min b_max); [lia|done|apply qsort_table_Sorted].
  - intros prim'. by rewrite (move_to_final_filter 1 T b_min b_max) by (done || lia).
Qed.

(** ** Euclid's formula gives primitive triples *)

Lemma gcd_1_of_divide h m n : (h | m) → Z.gcd m n = 1 → Z.gcd h n = 1.
Proof.
  intros Hh Hmn. apply Z.divide_1_r_nonneg; [apply Z.gcd_nonneg|].
  rewrite <- Hmn. apply Z.gcd_greatest; [|apply Z.gcd_divide_r].
  etrans; [apply Z.gcd_divide_l|done].
Qed.

Lemma divide_squares_coprime g m n :
  Z.gcd m n = 1 → (g | m * m) → (g | n * n) → (g | 1).
Proof.
  intros Hmn Hm Hn.
  assert (Hgm : Z.gcd g m = 1).
  { apply Z.divide_1_r_nonneg; [apply Z.gcd_nonneg|].
    rewrite <- Hmn. apply Z.gcd_greatest; [apply Z.gcd_divide_r|].
    apply (Z.gauss _ n n).
    - etrans; [apply Z.gcd_divide_l|done].
    - apply (gcd_1_of_divide _ m); [apply Z.gcd_divide_r|done]. }
  rewrite <- Hgm. apply Z.gcd_greatest; [done|]. by apply (Z.gauss _ m m).
Qed.

Lemma euclid_coprime m n g :
  Z.gcd m n = 1 → Z.odd (m - n) = true →
  (g | m * m - n * n) → (g | m * m + n * n) → (g | 1).
Proof.
  intros Hgcd Hodd Ha Hc.
  assert (Hcodd : Z.odd (m * m + n * n) = true).
  { replace (m * m + n * n) with ((m - n) * (m - n) + 2 * (m * n)) by ring.
    by rewrite Z.odd_add_mul_2, Z.odd_mul, Hodd. }
  assert (Hg2 : Z.gcd g 2 = 1).
  { pose proof (Z.gcd_nonneg g 2) as H0.
    pose proof (Z.gcd_divide_r g 2) as Hd2.
    assert (Hle : Z.gcd g 2 ≤ 2) by (apply Z.divide_pos_le; [lia|done]).
    assert (Z.gcd g 2 ≠ 0) by (intros H; rewrite H in Hd2; destruct Hd2; lia).
    assert (Z.gcd g 2 ≠ 2); [|lia].
    intros H2. pose proof (Z.gcd_divide_l g 2) as Hdl. rewrite H2 in Hdl.
    assert (H2c : (2 | m * m + n * n)) by (by etrans).
    destruct H2c as [q Hq]. rewrite Hq, Z.mul_comm, Z.odd_mul in Hcodd. done. }
  assert (Hm2 : (g | 2 * (m * m))).
  { replace (2 * (m * m)) with ((m * m + n * n) + (m * m - n * n)) by ring.
    by apply Z.divide_add_r. }
  assert (Hn2 : (g | 2 * (n * n))).
  { replace (2 * (n * n)) with ((m * m + n * n) - (m * m - n * n)) by ring.
    by apply Z.divide_sub_r. }
  apply Z.gauss in Hm2; [|done]. apply Z.gauss in Hn2; [|done].
  by apply (divide_squares_coprime g m n).
Qed.

(** The entry [AddPTriple] stores for Euclid's [m > n] with [gcd (m, n) = 1]
    and [m - n] odd has gcd 1. *)
Lemma gcd_all_euclid m n :
  Z.gcd m n = 1 → Z.odd (m - n) = true →
  gcd_all (qsort tentry_avalues_cmpfunc [m * m - n * n; m * n * 2]) (m * m + n * n) = 1.
Proof.
  intros Hgcd Hodd.
  assert (Hone : ∀ g, 0 ≤ g → (g | m * m - n * n) → (g | m * m + n * n) → g = 1).
  { intros g Hg Ha Hc. pose proof (euclid_coprime m n g Hgcd Hodd Ha Hc) as H1.
    by apply Z.divide_1_r_nonneg in H1. }
  assert (Habs : ∀ g x, (g | Z.abs x) → (g | x)) by (intros g x; apply Z.divide_abs_r).
  unfold gcd_all. simpl. destruct (tentry_avalues_cmpfunc _ _); simpl.
  1,2: apply Hone; [apply Z.gcd_nonneg|apply Z.gcd_divide_l|];
       apply Habs; etrans; [apply Z.gcd_divide_r|]; apply Z.gcd_divide_r.
  apply Hone; [apply Z.gcd_nonneg| |].
  - etrans; [apply Z.gcd_divide_r|]. apply Z.gcd_divide_l.
  - apply Habs; etrans; [apply Z.gcd_divide_r|]; apply Z.gcd_divide_r.
Qed.

Lemma odd_plus_2 x : Z.odd (x + 2) = Z.odd x.
Proof. replace (x + 2) with (x + 2 * 1) by lia. apply Z.odd_add_mul_2. Qed.

Lemma m_loop_primitive fuel tuples b_min b_max working_b_min n m m_max t' :
  Z.odd (m - n) = true →
  Forall (fun e => gcd_all (a e) (b e) = 1) tuples →
  Qkptuples.m_loop fuel tuples true b_min b_max working_b_min n (n * n) m m_max = Ret t' →
  Forall (fun e => gcd_all (a e) (b e) = 1) t'.
Proof.
  intros Hodd Ht Hrun. unfold Qkptuples.m_loop in Hrun.
  inv_bind Hrun. injection Hrun as <-.
  apply (while_loop_inv
           (fun '(m, t) => Z.odd (m - n) = true ∧
                           Forall (fun e => gcd_all (a e) (b e) = 1) t)) in Hx.
  - destruct x as [m' t]. by destruct Hx as [[_ ?] _].
  - intros [m2 t] s' [Hm2 Hok] _ Hbody.
    assert (Hnext : Z.odd (m2 + 2 - n) = true).
    { replace (m2 + 2 - n) with (m2 - n + 2) by lia. by rewrite odd_plus_2. }
    destruct (Z.eqb_spec (Z.gcd m2 n) 1) as [Hgcd|Hgcd]; simpl in Hbody.
    2:{ by injection Hbody as <-. }
    destruct (_ <? _). { by injection Hbody as <-. }
    destruct (_ <? _). { by injection Hbody as <-. }
    injection Hbody as <-. split; [done|].
    unfold Qkptuples.AddPTriple, MovePTuple. apply Forall_app. split; [done|].
    apply Forall_singleton. simpl. by apply gcd_all_euclid.
  - done.
Qed.

(** In primitive mode [Build3Tuples] adds only triples of gcd 1: its [m]
    starts at odd distance from [n] and moves in steps of 2, and pairs
    with [gcd (m, n) <> 1] are passed over. *)
Lemma Build3Tuples_primitive fuel tuples b_min b_max t' :
  Forall (fun e => gcd_all (a e) (b e) = 1) tuples →
  Qkptuples.Build3Tuples fuel tuples true b_min b_max = Ret t' →
  Forall (fun e => gcd_all (a e) (b e) = 1) t'.
Proof.
  intros Ht Hrun. unfold Qkptuples.Build3Tuples in Hrun. inv_bind Hrun.
  apply (for_range_inv (fun n t => Forall (fun e => gcd_all (a e) (b e) = 1) t)) in Hrun;
    [done| |done].
  intros n t t1 Hn Hok Hbody.
  inv_bind Hbody. inv_bind Hbody.
  eapply m_loop_primitive; [|exact Hok|exact Hbody].
  apply Z.odd_spec.
  match goal with |- Z.Odd ((if ?c then _ else _) - n) => destruct c end.
  - destruct (Z.eqb_spec ((x0 - 1 - n) mod 2) 0) as [Hmod|Hmod].
    + exists ((x0 - 1 - n) / 2). pose proof (Z.div_mod (x0 - 1 - n) 2 ltac:(lia)). lia.
    + exists ((x0 - 1 - n) / 2). pose proof (Z.div_mod (x0 - 1 - n) 2 ltac:(lia)).
      pose proof (Z.mod_pos_bound (x0 - 1 - n) 2 ltac:(lia)). lia.
  - exists 0. lia.
Qed.

(** In primitive mode every tuple the approximate engine returns has
    gcd 1. *)
Lemma Qk_BuildNTuples_primitive fuel b_min b_max N tuples printed :
  1 ≤ b_min →
  Qkptuples.BuildNTuples fuel [] true b_min b_max N = Ret (tuples, printed) →
  Forall (fun e => gcd_all (a e) (b e) = 1) tuples.
Proof.
  intros Hmin Hrun. unfold Qkptuples.BuildNTuples in Hrun.
  destruct (Z.eqb_spec N 3) as [->|HN].
  { inv_bind_as Hrun t Ht. injection Hrun as <- <-.
    apply qsort_Forall. eapply Build3Tuples_primitive; [|exact Ht]. constructor. }
  inv_bind_as Hrun three Hthree. inv_bind_as Hrun os Hos. inv_bind_as Hrun tables Hloop.
  apply Build3Tuples_ok in Hthree; [|lia|constructor].
  apply (qsort_Forall ttable_tentry_cmpfunc) in Hthree.
  set (threetuple := qsort ttable_tentry_cmpfunc three) in *.
  apply (for_each_inv (Forall (tuple_ok 3 2 b_min b_max))) in Hos; [| |constructor].
  2:{ intros e os1 os2 He Hos1 Hbody.
      rewrite Forall_forall in Hthree. destruct (Hthree _ He) as [Hl Hs Hlo Hsq Hr].
      destruct (Z.leb_spec b_min (b e)); [|by injection Hbody as <-].
      inv_bind_as Hbody a0 Ha0. inv_bind_as Hbody a1 Ha1. injection Hbody as <-.
      apply arr_get_Ret in Ha0 as [_ Ha0]. apply arr_get_Ret in Ha1 as [_ Ha1].
      destruct (a e) as [|x0 [|x1 [|? ?]]]; try done.
      simpl in Ha0, Ha1. injection Ha0 as <-. injection Ha1 as <-.
      apply MovePTuple_ok; try done. lia. }
  apply (for_range_inv (fun ts '(os, bb) =>
           (ts = 4 ∧ bb = None ∧ Forall (tuple_ok 3 2 b_min b_max) os) ∨
           (4 < ts ∧ ∃ t, bb = Some t ∧
              Forall (tuple_ok 3 (Z.to_nat (ts - 2)) b_min b_max) t))) in Hloop.
  - destruct tables as [os' bb]. simpl in Hrun.
    destruct Hloop as [(_ & -> & _)|(HN4 & t & -> & Ht)]; [done|].
    replace (4 + Z.of_nat (Z.to_nat (N - 3)) - 2) with (N - 1) in Ht by lia.
    rewrite (move_to_final_filter 3 (Z.to_nat (N - 1)) b_min b_max) in Hrun by (done || lia).
    injection Hrun as <- <-. apply qsort_Forall.
    apply Forall_forall. intros e He. apply list_elem_of_In, filter_In in He as [_ He].
    simpl in He. by apply Z.eqb_eq.
  - intros ts [os1 bb1] [os2 bb2] Hts Hinv Hbody.
    inv_bind_as Hbody os3 Hsel. inv_bind_as Hbody bb3 Hgrow. injection Hbody as <- <-.
    right. split; [lia|]. exists bb3. split; [done|].
    assert (Hos3 : Forall (tuple_ok 3 (Z.to_nat (ts - 2)) b_min b_max) os3).
    { destruct Hinv as [(-> & -> & Hos1)|(Hts4 & t & -> & Ht)].
      - simpl in Hsel. by injection Hsel as <-.
      - destruct (Z.ltb_spec 4 ts); [|lia]. by injection Hsel as <-. }
    replace ts with (Z.of_nat (Z.to_nat (ts - 2)) + 2) in Hgrow by lia.
    eapply grow_table_ok in Hgrow; [|done..].
    by replace (Z.to_nat (ts + 1 - 2)) with (S (Z.to_nat (ts - 2))) by lia.
  - left. done.
Qed.

(** ** CheckForDuplicateTuple *)

Lemma CheckForDuplicateTuple_take a1 : ∀ a2 n,
  (n ≤ length a1)%nat → (n ≤ length a2)%nat →
  CheckForDuplicateTuple a1 a2 n = Ret (bool_decide (take n a1 = take n a2)).
Proof.
  induction a1 as [|x a1 IH]; intros [|y a2] [|n] H1 H2; simpl in *; try lia; try done.
  destruct (Z.eqb_spec x y) as [->|Hne].
  - rewrite IH by lia. f_equal. apply bool_decide_ext. split; [by intros ->|].
    by intros [= ->].
  - f_equal. symmetry. apply bool_decide_eq_false. by intros [= ? _].
Qed.

Lemma CheckForDuplicateTuple_same a1 a2 :
  length a1 = length a2 →
  CheckForDuplicateTuple a1 a2 (length a1) = Ret (bool_decide (a1 = a2)).
Proof.
  intros Hlen. rewrite CheckForDuplicateTuple_take by lia.
  by rewrite take_ge, (take_ge a2) by lia.
Qed.

(** ** The deduplication pass of [qkptuples.cpp] *)

Lemma sublist_take_S {A} (l : list A) k : sublist (take k l) (take (S k) l).
Proof.
  revert k. induction l as [|x l IH]; intros [|k]; simpl; try constructor.
  - apply sublist_nil_l.
  - apply IH.
Qed.

Lemma StronglySorted_lookup_lt {A} (R : relation A) (l : list A) : ∀ i j x y,
  StronglySorted R l → (i < j)%nat → l !! i = Some x → l !! j = Some y → R x y.
Proof.
  induction l as [|z l IH]; intros i j x y Hs Hij Hi Hj; [by rewrite lookup_nil in Hi|].
  apply StronglySorted_inv in Hs as [Hs Hall].
  destruct j as [|j]; [lia|]. destruct i as [|i]; simpl in *.
  - injection Hi as ->. rewrite Forall_lookup in Hall. by apply (Hall j).
  - apply (IH i j); [done|lia|done|done].
Qed.

(** X8. What the pass of [qkptuples.cpp] does keep, on a table of
    canonical entries of one arity in which [b] is determined by the
    a-values: entries of the sorted table in their order, beginning with
    its first entry, no two of them with the same a-values. *)
Theorem Qk_RemDupTuples_NoDup n (t t' : ttable) :
  Forall (canonical n) t →
  (∀ e1 e2, e1 ∈ t → e2 ∈ t → a e1 = a e2 → b e1 = b e2) →
  Qkptuples.RemDupTuples t = Ret t' →
  NoDup (a <$> t') ∧
  sublist t' (qsort ttable_tentry_cmpfunc t) ∧
  head t' = head (qsort ttable_tentry_cmpfunc t).
Proof.
  intros Hwf Hdet Hrun. unfold Qkptuples.RemDupTuples in Hrun.
  destruct (Z.leb_spec (count t) 1) as [Hc|Hc].
  { injection Hrun as <-. unfold count in Hc.
    destruct t as [|e [|e' t]]; simpl in *; try lia.
    - split; [constructor|done].
    - split; [|done]. constructor; [|constructor]. apply not_elem_of_nil. }
  inv_bind_as Hrun r Hloop. injection Hrun as <-.
  set (sorted := qsort ttable_tentry_cmpfunc t) in *.
  assert (Hs : StronglySorted tentry_le sorted).
  { apply (Sorted_table_le n); [|apply qsort_table_Sorted].
    apply qsort_Forall. eapply Forall_impl; [exact Hwf|]. by intros e []. }
  assert (Hcan : Forall (canonical n) sorted) by by apply qsort_Forall.
  assert (Hdet' : ∀ e1 e2, e1 ∈ sorted → e2 ∈ sorted → a e1 = a e2 → e1 = e2).
  { intros e1 e2 H1 H2 Ha.
    unfold sorted in H1, H2. rewrite qsort_elem_of in H1, H2.
    pose proof (Hdet e1 e2 H1 H2 Ha). destruct e1, e2; simpl in *. congruence. }
  assert (Hlen : (1 < length sorted)%nat).
  { unfold sorted. rewrite length_qsort. unfold count in Hc. lia. }
  clearbody sorted.
  apply (for_range_inv (fun i '(tbl, nt) =>
           sublist nt (take (Z.to_nat i) sorted) ∧
           NoDup (a <$> nt) ∧
           (∀ k, i ≤ Z.of_nat k → tbl !! k = sorted !! k) ∧
           (0 < i → ∃ e, sorted !! (Z.to_nat i - 1)%nat = Some e ∧
                         (tbl !! (Z.to_nat i - 1)%nat = Some e ∨
                          tbl !! (Z.to_nat i - 1)%nat = Some (moved_from e))) ∧
           (0 < i → head nt = head sorted))) in Hloop.
  - destruct r as [tbl nt]. destruct Hloop as (Hsub & Hnd & _ & _ & Hhead). simpl.
    rewrite Z.add_0_l, Nat2Z.id, take_ge in Hsub by lia.
    split; [done|]. split; [done|]. apply Hhead. lia.
  - intros i [tbl nt] [tbl' nt'] Hi (Hsub & Hnd & Htbl & Hprev & Hhead) Hbody.
    set (k := Z.to_nat i) in *.
    assert (Hik : i = Z.of_nat k) by lia.
    replace (Z.to_nat (i + 1)) with (S k) by lia.
    replace (S k - 1)%nat with k by lia.
    destruct (lookup_lt_is_Some_2 sorted k ltac:(lia)) as [e He].
    assert (Htk : tbl !! k = Some e) by (rewrite Htbl by lia; done).
    assert (Hdup : ∃ dup,
              (if 0 <? i
               then do e1 <- arr_get tbl (i - 1);
                    do e2 <- arr_get tbl i;
                    CheckForDuplicateTuple (a e1) (a e2) (Z.to_nat (a_count e1))
               else Ret false) = Ret dup ∧
              (dup = false → ∀ e', e' ∈ nt → a e' ≠ a e) ∧
              (dup = true → 0 < i)).
    { inv_bind_as Hbody dup Hdup. exists dup. split; [done|]. clear Hbody.
      destruct (Z.ltb_spec 0 i) as [Hi0|Hi0].
      2:{ injection Hdup as <-. split; [|done]. intros _ e' He'.
          assert (k = 0%nat) as Hk0 by lia. rewrite Hk0 in Hsub. simpl in Hsub.
          apply sublist_nil_r in Hsub. subst nt. by apply elem_of_nil in He'. }
      split; [|done]. intros -> e' He' Hae.
      destruct (Hprev Hi0) as (ep & Hep & Hslot).
      exfalso. destruct Hslot as [Hslot|Hslot].
      2:{ rewrite (arr_get_at tbl (i - 1) (k - 1)%nat (moved_from ep)) in Hdup
            by (done || lia).
          cbn [bind] in Hdup. rewrite (arr_get_at tbl i k e) in Hdup by done.
          cbn [bind] in Hdup. simpl in Hdup. done. }
      rewrite (arr_get_at tbl (i - 1) (k - 1)%nat ep) in Hdup by (done || lia).
      cbn [bind] in Hdup. rewrite (arr_get_at tbl i k e) in Hdup by done.
      cbn [bind] in Hdup. rewrite a_count_nat in Hdup.
      rewrite Forall_lookup in Hcan.
      destruct (Hcan _ _ Hep) as [Hlp _]. destruct (Hcan _ _ He) as [Hle _].
      rewrite CheckForDuplicateTuple_same in Hdup by congruence.
      injection Hdup as Hdup. apply bool_decide_eq_false in Hdup.
      (* e' is before position k, so e' <= ep <= e, and e' = e *)
      pose proof (elem_of_sublist _ _ _ He' Hsub) as Hin.
      apply list_elem_of_lookup in Hin as [j Hj].
      assert (Hjk : (j < k)%nat).
      { apply lookup_lt_Some in Hj. rewrite length_take in Hj. lia. }
      rewrite lookup_take_lt in Hj by done.
      assert (e' = e) as ->.
      { apply Hdet'; [by eapply list_elem_of_lookup_2|by eapply list_elem_of_lookup_2|done]. }
      assert (Hle1 : tentry_le e ep).
      { destruct (decide (j = (k - 1)%nat)) as [->|Hne].
        - assert (ep = e) as -> by congruence. right. split; [done|].
          clear. induction (a e); simpl; auto.
        - apply (StronglySorted_lookup_lt tentry_le sorted j (k - 1)); [done|lia|done|done]. }
      assert (Hle2 : tentry_le ep e).
      { apply (StronglySorted_lookup_lt tentry_le sorted (k - 1) k); [done|lia|done|done]. }
      apply Hdup. f_equal. by apply tentry_le_antisym. }
    destruct Hdup as (dup & Hdup & Hfresh & Hpos). rewrite Hdup in Hbody.
    cbn [bind] in Hbody. destruct dup.
    + injection Hbody as <- <-. specialize (Hpos eq_refl).
      split; [etrans; [exact Hsub|apply sublist_take_S]|].
      split; [done|]. split; [intros j Hj; apply Htbl; lia|].
      split; [|by intros _; apply Hhead].
      intros _. exists e. split; [done|by left].
    + inv_bind_as Hbody e2 He2. inv_bind_as Hbody tbl2 Hset. injection Hbody as <- <-.
      rewrite (arr_get_at tbl i k e) in He2 by done. injection He2 as <-.
      apply arr_set_Ret in Hset as [_ ->]. fold k.
      rewrite Forall_lookup in Hcan.
      rewrite (MovePTuple_canonical n nt e (Hcan _ _ He)).
      split; [|split; [|split; [|split]]].
      * rewrite (take_S_r _ _ e) by done. by apply sublist_app.
      * rewrite fmap_app. apply NoDup_app. split; [done|]. split.
        -- intros av Hav Hav'. apply list_elem_of_fmap in Hav as (e' & -> & He').
           simpl in Hav'. apply list_elem_of_singleton in Hav'.
           by apply (Hfresh eq_refl e' He').
        -- simpl. constructor; [apply not_elem_of_nil|constructor].
      * intros j Hj. rewrite list_lookup_insert_ne by lia. apply Htbl. lia.
      * intros _. exists e. split; [done|]. right.
        apply list_lookup_insert_eq. by apply lookup_lt_Some in Htk.
      * intros _. destruct (Z.ltb_spec 0 i) as [Hi0|Hi0].
        -- specialize (Hhead Hi0). destruct nt as [|e0 nt]; [|done].
           simpl in Hhead. destruct sorted; [|done]. by rewrite lookup_nil in He.
        -- assert (k = 0%nat) as Hk0 by lia. rewrite Hk0 in Hsub, He. simpl in Hsub.
           apply sublist_nil_r in Hsub. subst nt. simpl.
           destruct sorted; [done|]. simpl in He. by injection He as ->.
  - split; [simpl; constructor|]. split; [constructor|]. split; [done|].
    split; intros; lia.
Qed.

(** ** The search of GetFirstBIndex on a table sorted by [b] *)

Lemma Bonly_StronglySorted (t : ttable) :
  Sorted (cmp_le ttable_tentry_Bonly_cmpfunc) t →
  StronglySorted (fun e1 e2 => b e1 ≤ b e2) t.
Proof.
  intros Hs. apply Sorted_StronglySorted.
  - intros x y z. lia.
  - eapply Sorted_weaken; [|exact Hs]. intros x y Hxy.
    unfold cmp_le, ttable_tentry_Bonly_cmpfunc in Hxy. by apply Z.compare_le_iff.
Qed.

(** The halving search finds an entry with the [b] searched for whenever
    the range it is given holds one. *)
Lemma bsearch_loop_complete (base : ttable) B :
  StronglySorted (fun e1 e2 => b e1 ≤ b e2) base →
  ∀ fuel l u,
    (u ≤ length base)%nat → (u - l < fuel)%nat →
    (∃ j e, base !! j = Some e ∧ b e = B ∧ (l ≤ j < u)%nat) →
    ∃ idx, Qkptuples.bsearch_loop ttable_tentry_Bonly_cmpfunc (mk_tentry [] B) base
             fuel l u = Some idx.
Proof.
  intros Hs. induction fuel as [|fuel IH]; intros l u Hu Hfuel (j & e & Hj & Hb & Hlu);
    [lia|].
  cbn [Qkptuples.bsearch_loop].
  destruct (Nat.ltb_spec l u) as [_|]; [|lia].
  pose proof (Nat.div_mod_eq (l + u) 2) as Hdiv.
  pose proof (Nat.mod_upper_bound (l + u) 2 ltac:(lia)) as Hmod.
  set (idx := ((l + u) / 2)%nat) in *.
  assert (Hidx : (l ≤ idx < u)%nat) by lia.
  destruct (lookup_lt_is_Some_2 base idx ltac:(lia)) as [p Hp]. rewrite Hp.
  unfold ttable_tentry_Bonly_cmpfunc at 1. cbn [b].
  destruct (Z.compare_spec B (b p)) as [Heq|Hlt|Hgt]; [eauto| |].
  - apply IH; [lia|lia|]. exists j, e. split; [done|]. split; [done|].
    destruct (decide (j < idx)%nat); [lia|].
    assert (b p ≤ b e); [|lia].
    destruct (decide (j = idx)) as [Hji|].
    { rewrite Hji in Hj. pose proof (eq_trans (eq_sym Hp) Hj) as [= ->]. lia. }
    apply (StronglySorted_lookup_lt _ base idx j _ _ Hs); [lia|done|done].
  - apply IH; [lia|lia|]. exists j, e. split; [done|]. split; [done|].
    destruct (decide (idx < j)%nat); [lia|].
    assert (b e ≤ b p); [|lia].
    destruct (decide (j = idx)) as [Hji|].
    { rewrite Hji in Hj. pose proof (eq_trans (eq_sym Hp) Hj) as [= ->]. lia. }
    apply (StronglySorted_lookup_lt _ base j idx _ _ Hs); [lia|done|done].
Qed.

(** * ptriples.cpp *)

Lemma Ptriples_k_loop_inv (Q : Ptriples.tentry → Prop) fuel triples m n c_min c_max t' :
  1 ≤ c_min → 1 ≤ n → n < m → Z.gcd m n = 1 → Z.odd (m - n) = true →
  (∀ a0 b0 c0, euclid_triple false c_min c_max a0 b0 c0 →
     Q (Ptriples.mk_tentry (if a0 <? b0 then a0 else b0) (if a0 <? b0 then b0 else a0) c0)) →
  Forall Q triples →
  Ptriples.k_loop fuel triples (m * m - n * n) (m * n * 2) (m * m + n * n) c_min c_max
    = Ret t' →
  Forall Q t'.
Proof.
  intros Hmin Hn Hm Hgcd Hodd HQ Ht Hrun. unfold Ptriples.k_loop in Hrun.
  destruct (Z.eqb_spec (m * m + n * n) 0); [nia|]. inv_bind Hrun. injection Hrun as <-.
  set (c0 := m * m + n * n) in *.
  assert (Hc0 : 0 < c0) by (unfold c0; nia).
  apply (while_loop_inv (fun '(k, kc, t) => kc = c0 * k ∧ Forall Q t)) in Hx.
  - destruct x as [[k kc] t]. by destruct Hx as [[_ ?] _].
  - intros [[k kc] t] s' [-> Hok] Hcond Hbody.
    injection Hcond as Hcond. injection Hbody as <-. split; [done|].
    destruct (Z.ltb_spec (c0 * k) c_min); [done|].
    apply Z.leb_le in Hcond.
    assert (1 ≤ k) by nia.
    unfold Ptriples.AddPTriple. apply Forall_app. split; [done|].
    apply Forall_singleton, HQ. exists m, n, k.
    repeat split; try done; try lia.
  - done.
Qed.

Lemma Ptriples_m_loop_inv (Q : Ptriples.tentry → Prop) fuel triples prim c_min c_max n m
    m_max t' :
  1 ≤ c_min → 1 ≤ n → n < m → Z.odd (m - n) = true →
  (∀ a0 b0 c0, euclid_triple prim c_min c_max a0 b0 c0 →
     Q (Ptriples.mk_tentry (if a0 <? b0 then a0 else b0) (if a0 <? b0 then b0 else a0) c0)) →
  Forall Q triples →
  Ptriples.m_loop fuel triples prim c_min c_max (if prim then c_min else 1)
    n (n * n) m m_max = Ret t' →
  Forall Q t'.
Proof.
  intros Hmin Hn Hm Hodd HQ Ht Hrun. unfold Ptriples.m_loop in Hrun.
  inv_bind Hrun. injection Hrun as <-.
  apply (while_loop_inv
           (fun '(m, t) => n < m ∧ Z.odd (m - n) = true ∧ Forall Q t)) in Hx.
  - destruct x as [m' t]. by destruct Hx as [(_ & _ & ?) _].
  - intros [m2 t] s' (Hm2 & Hodd2 & Hok) _ Hbody.
    assert (Hnext : Z.odd (m2 + 2 - n) = true).
    { replace (m2 + 2 - n) with (m2 - n + 2) by lia. by rewrite odd_plus_2. }
    destruct (Z.eqb_spec (Z.gcd m2 n) 1) as [Hgcd|Hgcd]; simpl in Hbody.
    2:{ injection Hbody as <-. split; [lia|done]. }
    destruct (Z.ltb_spec (m2 * m2 + n * n) (if prim then c_min else 1)).
    { injection Hbody as <-. split; [lia|done]. }
    destruct (Z.ltb_spec c_max (m2 * m2 + n * n)).
    { injection Hbody as <-. split; [lia|done]. }
    destruct prim.
    + injection Hbody as <-. split; [lia|]. split; [done|].
      unfold Ptriples.AddPTriple. apply Forall_app. split; [done|].
      apply Forall_singleton, HQ. exists m2, n, 1.
      repeat split; try done; try lia.
    + inv_bind Hbody. injection Hbody as <-. split; [lia|]. split; [done|].
      by eapply (Ptriples_k_loop_inv Q); [| | | | | |exact Hok|exact Hx0].
  - done.
Qed.

(** Every entry that the loops of [ptriples] add comes from Euclid's
    formula. *)
Lemma Ptriples_n_loop_inv (Q : Ptriples.tentry → Prop) fuel prim c_min c_max t' :
  1 ≤ c_min →
  (∀ a0 b0 c0, euclid_triple prim c_min c_max a0 b0 c0 →
     Q (Ptriples.mk_tentry (if a0 <? b0 then a0 else b0) (if a0 <? b0 then b0 else a0) c0)) →
  Ptriples.n_loop fuel prim c_min c_max = Ret t' →
  Forall Q t'.
Proof.
  intros Hmin HQ Hrun. unfold Ptriples.n_loop in Hrun. inv_bind Hrun.
  apply (for_range_inv (fun n t => Forall Q t)) in Hrun; [done| |constructor].
  intros n t t1 Hn Hok Hbody.
  inv_bind Hbody. inv_bind Hbody.
  apply mpz_sqrt_Ret in Hx0 as [_ ->].
  set (m_min := Z.sqrt _ - 1) in *.
  eapply (Ptriples_m_loop_inv Q); [done| | | |exact HQ|exact Hok|exact Hbody]; [lia| |].
  - destruct (Z.ltb_spec n m_min); [destruct (_ =? 0); lia|lia].
  - apply Z.odd_spec. destruct (Z.ltb_spec n m_min).
    + destruct (Z.eqb_spec ((m_min - n) mod 2) 0) as [Hmod|Hmod].
      * exists ((m_min - n) / 2). pose proof (Z.div_mod (m_min - n) 2 ltac:(lia)). lia.
      * exists ((m_min - n) / 2). pose proof (Z.div_mod (m_min - n) 2 ltac:(lia)).
        pose proof (Z.mod_pos_bound (m_min - n) 2 ltac:(lia)). lia.
    + exists 0. lia.
Qed.

Lemma euclid_triple_ok prim c_min c_max a0 b0 c0 :
  euclid_triple prim c_min c_max a0 b0 c0 →
  triple_ok c_min c_max
    (Ptriples.mk_tentry (if a0 <? b0 then a0 else b0) (if a0 <? b0 then b0 else a0) c0).
Proof.
  intros (m & n & k & Hn & Hm & _ & _ & Hk & _ & -> & -> & -> & Hr).
  assert (3 ≤ m * m - n * n) by nia.
  assert (4 ≤ m * n * 2) by nia.
  split; simpl; [| | |done].
  - destruct (_ <? _); nia.
  - destruct (Z.ltb_spec ((m * m - n * n) * k) (m * n * 2 * k)); lia.
  - destruct (_ <? _); ring.
Qed.

Lemma euclid_triple_primitive c_min c_max a0 b0 c0 :
  euclid_triple true c_min c_max a0 b0 c0 →
  Z.gcd (if a0 <? b0 then a0 else b0) (Z.gcd (if a0 <? b0 then b0 else a0) c0) = 1.
Proof.
  intros (m & n & k & Hn & Hm & Hgcd & Hodd & _ & Hk & -> & -> & -> & _).
  rewrite (Hk eq_refl), !Z.mul_1_r.
  apply Z.divide_1_r_nonneg; [apply Z.gcd_nonneg|].
  apply (euclid_coprime m n _ Hgcd Hodd).
  - destruct (_ <? _).
    + apply Z.gcd_divide_l.
    + etrans; [apply Z.gcd_divide_r|]. apply Z.gcd_divide_l.
  - etrans; [apply Z.gcd_divide_r|]. apply Z.gcd_divide_r.
Qed.

(** The comparator of [ptriples] as an order. *)
Lemma ttable_entry_cmpfunc_total x y :
  Ptriples.ttable_entry_cmpfunc x y = Gt → Ptriples.ttable_entry_cmpfunc y x ≠ Gt.
Proof.
  unfold Ptriples.ttable_entry_cmpfunc.
  destruct (Z.compare_spec (Ptriples.c x) (Ptriples.c y)) as [Hc|Hc|Hc];
    destruct (Z.compare_spec (Ptriples.c y) (Ptriples.c x)) as [Hc'|Hc'|Hc']; try lia;
    try done.
  destruct (Z.compare_spec (Ptriples.b x) (Ptriples.b y)) as [Hb|Hb|Hb];
    destruct (Z.compare_spec (Ptriples.b y) (Ptriples.b x)) as [Hb'|Hb'|Hb']; try lia;
    done.
Qed.

Lemma ttable_entry_cmp_le x y :
  cmp_le Ptriples.ttable_entry_cmpfunc x y → triple_le x y.
Proof.
  unfold cmp_le, Ptriples.ttable_entry_cmpfunc, triple_le.
  destruct (Z.compare_spec (Ptriples.c x) (Ptriples.c y)) as [Hc|Hc|Hc]; [|lia|done].
  destruct (Z.compare_spec (Ptriples.b x) (Ptriples.b y)) as [Hb|Hb|Hb]; [lia|lia|done].
Qed.

Lemma elem_of_printed_triples e out :
  e ∈ printed_triples out ↔ Ptriples.TripleLine e ∈ out.
Proof.
  unfold printed_triples. rewrite list_elem_of_omap. split.
  - intros (item & Hin & Hitem). destruct item; [done|]. by injection Hitem as ->.
  - intros Hin. exists (Ptriples.TripleLine e). done.
Qed.

Lemma printed_triples_lines t : printed_triples (map Ptriples.TripleLine t) = t.
Proof.
  induction t as [|e t IH]; simpl; [done|]. unfold printed_triples in *. simpl.
  by rewrite IH.
Qed.

(** The runs of [ptriples]: a rejected command line, or the sorted table
    of the loops printed line by line. *)
Lemma Ptriples_main_inv `{P : Parsers} fuel argv code out :
  Ptriples.main fuel argv = Ret (code, out) →
  (code = 1 ∧ printed_triples out = [] ∧ out ≠ [] ∧
   (¬ (length argv = 3 ∨ length argv = 4)%nat ∨ Ptriples.user_c_min argv < 1 ∨
    Ptriples.user_c_max argv < Ptriples.user_c_min argv)) ∨
  (code = 0 ∧ (length argv = 3 ∨ length argv = 4)%nat ∧
   1 ≤ Ptriples.user_c_min argv ≤ Ptriples.user_c_max argv ∧
   ∃ triples,
     Ptriples.n_loop fuel (Ptriples.DoOnlyPrimitives argv) (Ptriples.user_c_min argv)
       (Ptriples.user_c_max argv) = Ret triples ∧
     out = map Ptriples.TripleLine (qsort Ptriples.ttable_entry_cmpfunc triples)).
Proof.
  unfold Ptriples.main. intros Hrun.
  destruct (Nat.eqb_spec (length argv) 3) as [H3|H3],
           (Nat.eqb_spec (length argv) 4) as [H4|H4]; simpl in Hrun.
  4:{ injection Hrun as <- <-. left. repeat split; try done. left. lia. }
  all: destruct (Z.ltb_spec (Ptriples.user_c_min argv) 1);
    [injection Hrun as <- <-; left; repeat split; try done; auto|];
    destruct (Z.ltb_spec (Ptriples.user_c_max argv) (Ptriples.user_c_min argv));
    [injection Hrun as <- <-; left; repeat split; try done; auto|];
    inv_bind_as Hrun r Hb; injection Hrun as <- <-;
    right; repeat split; try lia; eauto.
Qed.

Lemma Ptriples_k_loop_total fuel triples a0 b0 c0 c_min c_max :
  0 < c0 → 1 ≤ c_min → (Z.to_nat c_max + 2 ≤ fuel)%nat →
  ∃ t, Ptriples.k_loop fuel triples a0 b0 c0 c_min c_max = Ret t.
Proof.
  intros Hc Hmin Hfuel. unfold Ptriples.k_loop.
  destruct (Z.eqb_spec c0 0); [lia|].
  assert (0 ≤ c_min / c0) by (apply Z.div_pos; lia).
  lazymatch goal with
  | |- ∃ t, bind (while_loop ?fl ?cond ?body ?s0) _ = _ =>
      assert (∃ s', while_loop fl cond body s0 = Ret s' ∧
                    (fun s : Z * Z * Ptriples.ttable => s.1.2 = c0 * s.1.1) s')
        as (r & -> & _);
        [apply (while_loop_total _ (fun s => Z.max 0 (c_max - s.1.2 + 1)))|cbn [bind]; eauto]
  end.
  - intros [[k kc] t] _. split; [lia|eauto].
  - intros [[k kc] t] Hkc Hcond. simpl in Hkc. subst kc.
    injection Hcond as Hcond. apply Z.leb_le in Hcond.
    eexists. split; [reflexivity|]. split; [done|]. simpl. lia.
  - done.
  - simpl. nia.
Qed.

Lemma Ptriples_m_loop_total fuel triples prim c_min c_max wmin n m m_max :
  1 ≤ c_min → 1 ≤ n → n < m → m_max ≤ Z.max 1 c_max →
  (Z.to_nat c_max + 2 ≤ fuel)%nat →
  ∃ t, Ptriples.m_loop fuel triples prim c_min c_max wmin n (n * n) m m_max = Ret t.
Proof.
  intros Hmin Hn Hm Hmax Hfuel. unfold Ptriples.m_loop.
  lazymatch goal with
  | |- ∃ t, bind (while_loop ?fl ?cond ?body ?s0) _ = _ =>
      assert (∃ s', while_loop fl cond body s0 = Ret s' ∧
                    (fun s : Z * Ptriples.ttable => n < s.1) s') as (r & -> & _);
        [apply (while_loop_total _ (fun s => Z.max 0 (m_max - s.1 + 1)))|cbn [bind]; eauto]
  end.
  - intros [m2 t] _. split; [lia|eauto].
  - intros [m2 t] Hm2 Hcond. simpl in Hm2. injection Hcond as Hcond. apply Z.leb_le in Hcond.
    destruct (negb (Z.gcd m2 n =? 1)); [eexists; split; [reflexivity|simpl; lia]|].
    destruct (m2 * m2 + n * n <? wmin); [eexists; split; [reflexivity|simpl; lia]|].
    destruct (c_max <? m2 * m2 + n * n); [eexists; split; [reflexivity|simpl; lia]|].
    destruct prim; [eexists; split; [reflexivity|simpl; lia]|].
    destruct (Ptriples_k_loop_total fuel t (m2 * m2 - n * n) (m2 * n * 2) (m2 * m2 + n * n)
                c_min c_max) as (t2 & ->); [nia|done|done|].
    cbn [bind]. eexists; split; [reflexivity|simpl; lia].
  - done.
  - simpl. lia.
Qed.

(** The loops of [ptriples] end, within [c_max + 2] turns each. *)
Lemma Ptriples_n_loop_total fuel prim c_min c_max :
  1 ≤ c_min → 1 ≤ c_max → (Z.to_nat c_max + 2 ≤ fuel)%nat →
  ∃ t, Ptriples.n_loop fuel prim c_min c_max = Ret t.
Proof.
  intros Hmin Hmax Hfuel. unfold Ptriples.n_loop.
  assert (Hn : 0 ≤ mpz_cdiv_q_2exp_1 c_max).
  { unfold mpz_cdiv_q_2exp_1. pose proof (Z.div_lt_upper_bound (- c_max) 2 0). lia. }
  rewrite (mpz_sqrt_nonneg _ Hn). cbn [bind].
  edestruct (for_range_total (fun _ (_ : Ptriples.ttable) => True)) as (t & -> & _);
    [|done|eauto].
  intros n t Hnr _. cbv beta zeta.
  pose proof (at_least_1 ((if prim then c_min else 1) - n * n)) as H1.
  pose proof (at_least_1 (c_max - n * n)) as H2.
  rewrite !mpz_sqrt_nonneg by lia. cbn [bind].
  set (m_min := Z.sqrt _ - 1). set (m_max := Z.sqrt _).
  edestruct (Ptriples_m_loop_total fuel t prim c_min c_max (if prim then c_min else 1) n
               (if n <? m_min then if (m_min - n) mod 2 =? 0 then m_min + 1 else m_min
                else n + 1) m_max) as (t2 & ->); [done|lia| | |done|eauto].
  - destruct (Z.ltb_spec n m_min); [destruct (_ =? 0); lia|lia].
  - unfold m_max. destruct (Z.ltb_spec (c_max - n * n) 1).
    + change (Z.sqrt 1) with 1. lia.
    + pose proof (Z.sqrt_le_lin (c_max - n * n) ltac:(lia)). nia.
Qed.

(** * Further properties of the programs *)

(** ** ptuples: the output is the set of solutions *)

(** X1. On a command line that [ptuples] accepts, with [b_max >= 2], some
    number of turns of the odometer loop suffices for the run to end with
    exit code 0; and whenever a run ends so, the tuples it prints are
    exactly the solutions: the lines [(a_1,...,a_n,b)] with [n =
    tuple_size - 1] a-values, all at least 1 and in ascending order, whose
    squares sum to [b] squared, with [b] in [[b_min, b_max]], and, under
    [-p], with gcd 1. *)
Theorem ptuples_output_exact `{P : Parsers} argv :
  (length argv = 4 ∨ length argv = 5)%nat → 3 ≤ tuple_size argv →
  1 ≤ user_b_min argv ≤ user_b_max argv →
  2 ≤ user_b_max argv → user_b_max argv ≤ Ptuples.MAXB →
  (∃ fuel out, Ptuples.main fuel argv = Ret (0, out)) ∧
  (∀ fuel code out e,
     Ptuples.main fuel argv = Ret (code, out) →
     TupleLine e ∈ out ↔
       tuple_ok 1 (Z.to_nat (tuple_size argv - 1)) (user_b_min argv) (user_b_max argv) e ∧
       (DoOnlyPrimitives argv = true → gcd_all (a e) (b e) = 1)).
Proof.
  intros Hargc HN Hb Hb2 Hmax. split; [by apply Ptuples_main_total|].
  intros fuel code out e Hrun.
  apply Ptuples_main_inv in Hrun as [(_ & _ & _ & Hbad)|(_ & _ & _ & _ & _ & tuples & Hrun & ->)];
    [lia|].
  rewrite <- elem_of_printed_tuples, printed_tuples_print.
  by apply (Ptuples_BuildNTuples_exact fuel _ _ _ _ tuples []).
Qed.

Lemma ptuples_output_exact_witness :
  (∃ fuel out,
     @Ptuples.main decimal_parsers fuel ["ptuples"; "4"; "1"; "3"]%string = Ret (0, out)) ∧
  (∀ fuel code out e,
     @Ptuples.main decimal_parsers fuel ["ptuples"; "4"; "1"; "3"]%string = Ret (code, out) →
     TupleLine e ∈ out ↔
       tuple_ok 1 (Z.to_nat (@tuple_size decimal_parsers ["ptuples"; "4"; "1"; "3"]%string - 1))
         (@user_b_min decimal_parsers ["ptuples"; "4"; "1"; "3"]%string)
         (@user_b_max decimal_parsers ["ptuples"; "4"; "1"; "3"]%string) e ∧
       (@DoOnlyPrimitives ["ptuples"; "4"; "1"; "3"]%string = true →
        gcd_all (a e) (b e) = 1)).
Proof.
  apply (@ptuples_output_exact decimal_parsers ["ptuples"; "4"; "1"; "3"]%string);
    first [ by left | by vm_compute ].
Defined.

(** X2. [ptuples] never prints the same a-values twice. *)
Theorem ptuples_no_duplicate_lines `{P : Parsers} fuel argv code out :
  Ptuples.main fuel argv = Ret (code, out) →
  NoDup (a <$> printed_tuples out).
Proof.
  intros Hrun.
  apply Ptuples_main_inv in Hrun
    as [(_ & -> & _)|(_ & _ & HN & Hb & Hmax & tuples & Hrun & ->)]; [constructor|].
  rewrite printed_tuples_print.
  destruct (Ptuples_BuildNTuples_structure _ _ _ _ _ _ _ Hb Hmax HN Hrun)
    as (table & _ & Hnd & Hall).
  rewrite Hall in Hrun. injection Hrun as <-.
  eapply sublist_NoDup; [exact Hnd|]. apply sublist_fmap_2, List_filter_sublist.
Qed.

Lemma ptuples_no_duplicate_lines_witness :
  NoDup (a <$> printed_tuples
           [TupleLine (mk_tentry [3; 4] 5); TupleLine (mk_tentry [6; 8] 10);
            TupleLine (mk_tentry [5; 12] 13)]).
Proof.
  apply (@ptuples_no_duplicate_lines decimal_parsers 200
           ["ptuples"; "3"; "1"; "13"]%string 0).
  by vm_compute.
Defined.

(** X4. Primitive mode only filters: for the same range and size, the
    table [BuildNTuples] returns under [-p] is the table it returns
    without [-p] with the entries of gcd other than 1 left out, in the
    same order. *)
Theorem ptuples_primitive_mode_filters fuel b_min b_max N tuples printed :
  1 ≤ b_min ≤ b_max → b_max ≤ Ptuples.MAXB → 3 ≤ N →
  Ptuples.BuildNTuples fuel [] false b_min b_max N = Ret (tuples, printed) →
  Ptuples.BuildNTuples fuel [] true b_min b_max N
    = Ret (List.filter (fun e => gcd_all (a e) (b e) =? 1) tuples, []).
Proof.
  intros Hb Hmax HN Hrun.
  destruct (Ptuples_BuildNTuples_structure _ _ _ _ _ _ _ Hb Hmax HN Hrun)
    as (table & _ & _ & Hall).
  rewrite (Hall false) in Hrun. simpl in Hrun.
  rewrite List_filter_all in Hrun by done. injection Hrun as <- <-.
  by rewrite (Hall true).
Qed.

Lemma ptuples_primitive_mode_filters_witness :
  Ptuples.BuildNTuples 200 [] true 1 10 3
    = Ret (List.filter (fun e => gcd_all (a e) (b e) =? 1)
             [mk_tentry [3; 4] 5; mk_tentry [6; 8] 10], []).
Proof.
  apply (ptuples_primitive_mode_filters 200 1 10 3
           [mk_tentry [3; 4] 5; mk_tentry [6; 8] 10] []).
  - lia.
  - unfold Ptuples.MAXB. lia.
  - lia.
  - vm_compute. reflexivity.
Defined.

(** ** qkptuples: what the approximate program prints *)

(** X5. Every tuple [qkptuples] prints has [tuple_size - 1] a-values, each
    at least 3, and under [-p] its gcd is 1: for triples because Euclid's
    formula is used with [gcd (m, n) = 1] and [m - n] odd, for larger
    tuples because [TupleIsPrimitive] filters the table. *)
Theorem qkptuples_output_shape `{P : Parsers} fuel argv code out e :
  Qkptuples.main fuel argv = Ret (code, out) →
  TupleLine e ∈ out →
  length (a e) = Z.to_nat (tuple_size argv - 1) ∧
  Forall (fun x => 3 ≤ x) (a e) ∧
  (DoOnlyPrimitives argv = true → gcd_all (a e) (b e) = 1).
Proof.
  intros Hrun He. apply elem_of_printed_tuples in He.
  apply Qk_main_inv in Hrun
    as [(_ & Hnil & _)|(_ & _ & HN & Hb & tuples & Hrun & ->)].
  { rewrite Hnil in He. by apply elem_of_nil in He. }
  rewrite printed_tuples_print in He.
  pose proof Hrun as Hrun'.
  apply Qk_BuildNTuples_ok in Hrun' as (_ & _ & Hok & _); [|lia].
  rewrite Forall_forall in Hok. destruct (Hok _ He) as [Hlen _ Hlo _ _].
  split; [done|]. split; [done|]. intros Hp. rewrite Hp in Hrun.
  apply Qk_BuildNTuples_primitive in Hrun; [|lia].
  rewrite Forall_forall in Hrun. by apply Hrun.
Qed.

Lemma qkptuples_output_shape_witness :
  length [3; 4; 12] = Z.to_nat (@tuple_size decimal_parsers
                                  ["qkptuples"; "-p"; "4"; "1"; "30"]%string - 1) ∧
  Forall (fun x => 3 ≤ x) [3; 4; 12] ∧
  (@DoOnlyPrimitives ["qkptuples"; "-p"; "4"; "1"; "30"]%string = true →
   gcd_all [3; 4; 12] 13 = 1).
Proof.
  apply (@qkptuples_output_shape decimal_parsers 100
           ["qkptuples"; "-p"; "4"; "1"; "30"]%string 0
           [TupleLine (mk_tentry [3; 4; 12] 13); TupleLine (mk_tentry [9; 12; 20] 25)]
           (mk_tentry [3; 4; 12] 13)).
  - vm_compute. reflexivity.
  - left.
Defined.

(** X6. Whatever [qkptuples] prints, [ptuples] prints too for the same
    command line. *)
Theorem qkptuples_subset_of_ptuples `{P : Parsers} fuel fuel' argv out out' e :
  Qkptuples.main fuel argv = Ret (0, out) →
  Ptuples.main fuel' argv = Ret (0, out') →
  TupleLine e ∈ out → TupleLine e ∈ out'.
Proof.
  intros Hqk Hp He.
  apply Ptuples_main_inv in Hp
    as [(Hc & _)|(_ & _ & HN & Hb & Hmax & tuples' & Hp & ->)]; [done|].
  rewrite <- elem_of_printed_tuples, printed_tuples_print.
  apply (Ptuples_BuildNTuples_exact fuel' (DoOnlyPrimitives argv) (user_b_min argv)
           (user_b_max argv) (tuple_size argv) tuples' [] e Hb Hmax HN Hp).
  apply elem_of_printed_tuples in He.
  apply Qk_main_inv in Hqk
    as [(Hc & _)|(_ & _ & _ & _ & tuples & Hqk & ->)]; [done|].
  rewrite printed_tuples_print in He.
  pose proof Hqk as Hqk'.
  apply Qk_BuildNTuples_ok in Hqk' as (_ & _ & Hok & _); [|lia].
  rewrite Forall_forall in Hok. split.
  - destruct (Hok _ He) as [? ? Hlo ? ?]. split; try done.
    eapply Forall_impl; [exact Hlo|]. simpl. lia.
  - intros Hprim. rewrite Hprim in Hqk.
    apply Qk_BuildNTuples_primitive in Hqk; [|lia].
    rewrite Forall_forall in Hqk. by apply Hqk.
Qed.

Lemma qkptuples_subset_of_ptuples_witness :
  TupleLine (mk_tentry [3; 4; 12] 13) ∈
    [TupleLine (mk_tentry [2; 3; 6] 7); TupleLine (mk_tentry [1; 4; 8] 9);
     TupleLine (mk_tentry [4; 4; 7] 9); TupleLine (mk_tentry [2; 6; 9] 11);
     TupleLine (mk_tentry [6; 6; 7] 11); TupleLine (mk_tentry [3; 4; 12] 13)].
Proof.
  apply (@qkptuples_subset_of_ptuples decimal_parsers 100 3000
           ["qkptuples"; "-p"; "4"; "7"; "13"]%string
           [TupleLine (mk_tentry [3; 4; 12] 13)]).
  - vm_compute. reflexivity.
  - vm_compute. reflexivity.
  - left.
Defined.

(** X7. On a table sorted by [b], [GetFirstBIndex] returns -1 exactly when
    no entry has the [b] searched for; otherwise it returns the index of
    an entry with that [b], and no entry from index 1 up to there has it:
    the result is the first index of the run, or, when the run begins at
    index 0, index 0 or 1. *)
Theorem GetFirstBIndex_sorted (the_table : ttable) (B : Z) :
  Sorted (cmp_le ttable_tentry_Bonly_cmpfunc) the_table →
  (Qkptuples.GetFirstBIndex the_table B = -1 ↔ ∀ e, e ∈ the_table → b e ≠ B) ∧
  (Qkptuples.GetFirstBIndex the_table B ≠ -1 →
   ∃ r : nat,
     Qkptuples.GetFirstBIndex the_table B = Z.of_nat r ∧
     b <$> the_table !! r = Some B ∧
     ∀ j e, (1 ≤ j < r)%nat → the_table !! j = Some e → b e < B).
Proof.
  intros Hsorted. apply Bonly_StronglySorted in Hsorted.
  unfold Qkptuples.GetFirstBIndex, Qkptuples.bsearch.
  destruct (Qkptuples.bsearch_loop _ _ _ _ _ _) as [found|] eqn:Hs.
  - apply bsearch_loop_found in Hs as (p & Hp & Hc).
    unfold ttable_tentry_Bonly_cmpfunc in Hc. simpl in Hc. apply Z.compare_eq in Hc.
    symmetry in Hc.
    destruct (scan_back_first the_table B found p Hp Hc) as (Hle & Hrun & Hstop).
    set (r := Qkptuples.scan_back the_table B found) in *.
    split.
    + split; [lia|]. intros Hnone. exfalso. apply (Hnone p); [|done].
      by eapply list_elem_of_lookup_2.
    + intros _. exists r. split; [done|]. split; [apply Hrun; lia|].
      intros j e Hj He. unfold ttable in *.
      destruct Hstop as [Hr1|Hprev]; [lia|].
      pose proof (Hrun r ltac:(lia)) as Hr.
      destruct (the_table !! r) as [er|] eqn:Her; [|done]. injection Hr as Hr.
      destruct (lookup_lt_is_Some_2 the_table (r - 1)) as [q Hq].
      { apply lookup_lt_Some in Her. lia. }
      rewrite Hq in Hprev. simpl in Hprev.
      assert (Hqr : b q ≤ B).
      { rewrite <- Hr.
        apply (StronglySorted_lookup_lt _ the_table (r - 1) r _ _ Hsorted); [lia|done|done]. }
      assert (b q ≠ B) by congruence.
      assert (b e ≤ b q); [|lia].
      destruct (decide (j = (r - 1)%nat)) as [Hjr|Hjr].
      * rewrite Hjr in He. pose proof (eq_trans (eq_sym He) Hq) as [= ->]. lia.
      * apply (StronglySorted_lookup_lt _ the_table j (r - 1) _ _ Hsorted); [lia|done|done].
  - split; [|done]. split; [|done]. intros _ e He HeB.
    apply list_elem_of_lookup in He as [j Hj].
    destruct (bsearch_loop_complete the_table B Hsorted (S (length the_table)) 0
                (length the_table)) as [idx Hidx]; [lia|lia| |].
    + exists j, e. split; [done|]. split; [done|]. apply lookup_lt_Some in Hj. lia.
    + rewrite Hidx in Hs. done.
Qed.

Lemma GetFirstBIndex_sorted_witness :
  (Qkptuples.GetFirstBIndex
     [mk_tentry [3; 4] 5; mk_tentry [6; 8] 10; mk_tentry [7; 24] 25; mk_tentry [15; 20] 25]
     25 = -1 ↔
   ∀ e, e ∈ [mk_tentry [3; 4] 5; mk_tentry [6; 8] 10; mk_tentry [7; 24] 25;
             mk_tentry [15; 20] 25] → b e ≠ 25) ∧
  (Qkptuples.GetFirstBIndex
     [mk_tentry [3; 4] 5; mk_tentry [6; 8] 10; mk_tentry [7; 24] 25; mk_tentry [15; 20] 25]
     25 ≠ -1 →
   ∃ r : nat,
     Qkptuples.GetFirstBIndex
       [mk_tentry [3; 4] 5; mk_tentry [6; 8] 10; mk_tentry [7; 24] 25;
        mk_tentry [15; 20] 25] 25 = Z.of_nat r ∧
     b <$> [mk_tentry [3; 4] 5; mk_tentry [6; 8] 10; mk_tentry [7; 24] 25;
            mk_tentry [15; 20] 25] !! r = Some 25 ∧
     ∀ j e, (1 ≤ j < r)%nat →
       [mk_tentry [3; 4] 5; mk_tentry [6; 8] 10; mk_tentry [7; 24] 25;
        mk_tentry [15; 20] 25] !! j = Some e → b e < 25).
Proof.
  apply (GetFirstBIndex_sorted
           [mk_tentry [3; 4] 5; mk_tentry [6; 8] 10; mk_tentry [7; 24] 25;
            mk_tentry [15; 20] 25] 25).
  repeat constructor; by vm_compute.
Defined.

(** ** The shared table code *)

(** X9. [CheckForDuplicateTuple] on [count] a-values: when both arrays hold
    that many it answers whether their first [count] a-values are the
    same, so with [count = 0] every pair counts as a duplicate; the loop
    stops at the first difference without reading further; and when the
    arrays agree up to the end of the shorter one, which has fewer than
    [count] a-values, the loop reads past the end of an array. *)
Theorem CheckForDuplicateTuple_spec (avalues1 avalues2 : list Z) (count : nat) :
  ((count ≤ length avalues1)%nat → (count ≤ length avalues2)%nat →
   CheckForDuplicateTuple avalues1 avalues2 count
     = Ret (bool_decide (take count avalues1 = take count avalues2))) ∧
  (∀ k x y, (k < count)%nat → take k avalues1 = take k avalues2 →
     avalues1 !! k = Some x → avalues2 !! k = Some y → x ≠ y →
     CheckForDuplicateTuple avalues1 avalues2 count = Ret false) ∧
  ((length avalues1 `min` length avalues2 < count)%nat →
   take (length avalues1 `min` length avalues2) avalues1
     = take (length avalues1 `min` length avalues2) avalues2 →
   CheckForDuplicateTuple avalues1 avalues2 count = Fault).
Proof.
  split; [apply CheckForDuplicateTuple_take|]. split.
  - revert avalues2 count. induction avalues1 as [|u a1 IH];
      intros [|v a2] [|n] k x y Hk Htake H1 H2 Hxy; simpl in *; try done; try lia.
    destruct k as [|k]; simpl in *.
    + injection H1 as ->. injection H2 as ->. by destruct (Z.eqb_spec x y).
    + injection Htake as -> Htake. rewrite Z.eqb_refl.
      apply (IH a2 n k x y); [lia|done..].
  - revert avalues2 count. induction avalues1 as [|u a1 IH];
      intros [|v a2] [|n] Hlt Htake; simpl in *; try done; try lia.
    injection Htake as -> Htake. rewrite Z.eqb_refl. apply IH; [lia|done].
Qed.

(** X11. [ttable_tentry_cmpfunc] as the order [qsort] is given: swapping
    the arguments reverses the answer; two entries with equally many
    a-values compare equal only when they are the same entry; and since
    only the a-values that both entries have are compared, an entry
    compares equal to one with the same [b] whose a-values extend its
    own. *)
Theorem ttable_tentry_cmpfunc_order (entry1 entry2 : tentry) :
  ttable_tentry_cmpfunc entry2 entry1 = CompOpp (ttable_tentry_cmpfunc entry1 entry2) ∧
  (length (a entry1) = length (a entry2) →
   (ttable_tentry_cmpfunc entry1 entry2 = Eq ↔ entry1 = entry2)) ∧
  (b entry1 = b entry2 → a entry1 `prefix_of` a entry2 →
   ttable_tentry_cmpfunc entry1 entry2 = Eq).
Proof.
  split; [apply ttable_tentry_cmpfunc_opp|].
  assert (Hrefl : ∀ l l', avalues_cmp_loop l (l ++ l') = Eq).
  { induction l as [|x l IH]; intros l'; simpl; [done|]. by rewrite Z.compare_refl. }
  split.
  - intros Hlen. split.
    + unfold ttable_tentry_cmpfunc. intros Hcmp.
      destruct (Z.compare_spec (b entry1) (b entry2)) as [Hb| |]; try done.
      destruct entry1 as [a1 b1], entry2 as [a2 b2]. simpl in *. f_equal; [|done].
      clear Hb. revert a2 Hlen Hcmp.
      induction a1 as [|x a1 IH]; intros [|y a2] Hlen Hcmp; simpl in *; try done.
      destruct (Z.compare_spec x y) as [->| |]; try done. f_equal. apply IH; [lia|done].
    + intros ->. unfold ttable_tentry_cmpfunc. rewrite Z.compare_refl.
      rewrite <- (app_nil_r (a entry2)) at 2. apply Hrefl.
  - intros Hb [l' Hl']. unfold ttable_tentry_cmpfunc.
    rewrite Hb, Z.compare_refl, Hl'. apply Hrefl.
Qed.

(** X10. A first argument other than [-p] on a command line of five words
    (four for [ptriples]) is passed over without a diagnostic: the run is
    that of the command line without it. *)
Theorem first_argument_not_p `{P : Parsers} fuel prog x n lo hi :
  x ≠ "-p"%string →
  Ptuples.main fuel [prog; x; n; lo; hi] = Ptuples.main fuel [prog; n; lo; hi] ∧
  Qkptuples.main fuel [prog; x; n; lo; hi] = Qkptuples.main fuel [prog; n; lo; hi] ∧
  Ptriples.main fuel [prog; x; lo; hi] = Ptriples.main fuel [prog; lo; hi].
Proof.
  intros Hx. apply String.eqb_neq in Hx.
  unfold Ptuples.main, Qkptuples.main, Ptriples.main, DoOnlyPrimitives,
    Ptriples.DoOnlyPrimitives, tuple_size, user_b_min, user_b_max,
    Ptriples.user_c_min, Ptriples.user_c_max, arg.
  simpl. by rewrite Hx.
Qed.

Lemma first_argument_not_p_witness :
  @Ptuples.main decimal_parsers 50 ["ptuples"; "-q"; "3"; "1"; "5"]%string
    = @Ptuples.main decimal_parsers 50 ["ptuples"; "3"; "1"; "5"]%string ∧
  @Qkptuples.main decimal_parsers 50 ["ptuples"; "-q"; "3"; "1"; "5"]%string
    = @Qkptuples.main decimal_parsers 50 ["ptuples"; "3"; "1"; "5"]%string ∧
  @Ptriples.main decimal_parsers 50 ["ptuples"; "-q"; "1"; "5"]%string
    = @Ptriples.main decimal_parsers 50 ["ptuples"; "1"; "5"]%string.
Proof.
  apply (@first_argument_not_p decimal_parsers 50 "ptuples" "-q" "3" "1" "5")%string.
  discriminate.
Defined.

Lemma Ptuples_RemDupTuples_correct_witness :
  ∃ t', Ptuples.RemDupTuples
          [mk_tentry [6; 8] 10; mk_tentry [3; 4] 5; mk_tentry [3; 4] 5] = Ret t' ∧
        t' = dedup_runs (qsort ttable_tentry_cmpfunc
                           [mk_tentry [6; 8] 10; mk_tentry [3; 4] 5; mk_tentry [3; 4] 5]) ∧
        NoDup (a <$> t') ∧
        (∀ e, e ∈ [mk_tentry [6; 8] 10; mk_tentry [3; 4] 5; mk_tentry [3; 4] 5] →
              ∃ e', e' ∈ t' ∧ a e' = a e) ∧
        (∀ e, e ∈ t' → e ∈ [mk_tentry [6; 8] 10; mk_tentry [3; 4] 5; mk_tentry [3; 4] 5]).
Proof.
  apply (Ptuples_RemDupTuples_correct 2).
  - repeat constructor; simpl; lia.
  - intros e1 e2 H1 H2.
    repeat (apply elem_of_cons in H1 as [->|H1]);
      repeat (apply elem_of_cons in H2 as [->|H2]);
      try done; by (apply elem_of_nil in H1 || apply elem_of_nil in H2).
Defined.

Lemma Qk_RemDupTuples_NoDup_witness :
  NoDup (a <$> [mk_tentry [3; 4] 5; mk_tentry [6; 8] 10]) ∧
  sublist [mk_tentry [3; 4] 5; mk_tentry [6; 8] 10]
    (qsort ttable_tentry_cmpfunc
       [mk_tentry [5; 12] 13; mk_tentry [6; 8] 10; mk_tentry [3; 4] 5; mk_tentry [3; 4] 5]) ∧
  head [mk_tentry [3; 4] 5; mk_tentry [6; 8] 10]
    = head (qsort ttable_tentry_cmpfunc
              [mk_tentry [5; 12] 13; mk_tentry [6; 8] 10; mk_tentry [3; 4] 5;
               mk_tentry [3; 4] 5]).
Proof.
  apply (Qk_RemDupTuples_NoDup 2).
  - repeat constructor; simpl; lia.
  - intros e1 e2 H1 H2.
    repeat (apply elem_of_cons in H1 as [->|H1]);
      repeat (apply elem_of_cons in H2 as [->|H2]);
      try done; by (apply elem_of_nil in H1 || apply elem_of_nil in H2).
  - vm_compute. reflexivity.
Defined.

(** ** ptriples *)

(** X12. Every line [(a,b,c)] that [ptriples] prints is a Pythagorean
    triple with [3 <= a <= b] and [c] in the range of the command line;
    under [-p] its gcd is 1. *)
Theorem ptriples_output_sound `{P : Parsers} fuel argv code out e :
  Ptriples.main fuel argv = Ret (code, out) →
  Ptriples.TripleLine e ∈ out →
  triple_ok (Ptriples.user_c_min argv) (Ptriples.user_c_max argv) e ∧
  (Ptriples.DoOnlyPrimitives argv = true →
   Z.gcd (Ptriples.a e) (Z.gcd (Ptriples.b e) (Ptriples.c e)) = 1).
Proof.
  intros Hrun He. apply elem_of_printed_triples in He.
  apply Ptriples_main_inv in Hrun
    as [(_ & Hnil & _)|(_ & _ & Hb & triples & Hrun & ->)].
  { rewrite Hnil in He. by apply elem_of_nil in He. }
  rewrite printed_triples_lines, qsort_elem_of in He.
  split.
  - eapply (Ptriples_n_loop_inv (triple_ok _ _)) in Hrun; [|lia|apply euclid_triple_ok].
    rewrite Forall_forall in Hrun. by apply Hrun.
  - intros Hp. rewrite Hp in Hrun.
    eapply (Ptriples_n_loop_inv
              (fun e => Z.gcd (Ptriples.a e) (Z.gcd (Ptriples.b e) (Ptriples.c e)) = 1))
      in Hrun; [|lia|apply euclid_triple_primitive].
    rewrite Forall_forall in Hrun. by apply Hrun.
Qed.

Lemma ptriples_output_sound_witness :
  triple_ok (@Ptriples.user_c_min decimal_parsers ["ptriples"; "-p"; "1"; "13"]%string)
            (@Ptriples.user_c_max decimal_parsers ["ptriples"; "-p"; "1"; "13"]%string)
            (Ptriples.mk_tentry 5 12 13) ∧
  (Ptriples.DoOnlyPrimitives ["ptriples"; "-p"; "1"; "13"]%string = true →
   Z.gcd 5 (Z.gcd 12 13) = 1).
Proof.
  apply (@ptriples_output_sound decimal_parsers 50 ["ptriples"; "-p"; "1"; "13"]%string 0
           [Ptriples.TripleLine (Ptriples.mk_tentry 3 4 5);
            Ptriples.TripleLine (Ptriples.mk_tentry 5 12 13)]
           (Ptriples.mk_tentry 5 12 13)).
  - vm_compute. reflexivity.
  - right. left.
Defined.

(** X13. The lines of [ptriples] are in order of [c] and then of [b].
    Its comparator never looks at [a] (it compares [c] a second time
    instead), yet no two printed lines with different legs compare equal:
    for a Pythagorean triple [b] and [c] determine [a]. *)
Theorem ptriples_output_sorted `{P : Parsers} fuel argv code out :
  Ptriples.main fuel argv = Ret (code, out) →
  StronglySorted triple_le (printed_triples out) ∧
  ∀ e1 e2, e1 ∈ printed_triples out → e2 ∈ printed_triples out →
           Ptriples.ttable_entry_cmpfunc e1 e2 = Eq → e1 = e2.
Proof.
  intros Hrun.
  apply Ptriples_main_inv in Hrun
    as [(_ & -> & _)|(_ & _ & Hb & triples & Hrun & ->)].
  { split; [constructor|]. intros e1 e2 H1. by apply elem_of_nil in H1. }
  rewrite printed_triples_lines. split.
  - apply Sorted_StronglySorted.
    + intros x y z. unfold triple_le. lia.
    + eapply Sorted_weaken; [apply ttable_entry_cmp_le|].
      apply qsort_Sorted, ttable_entry_cmpfunc_total.
  - eapply (Ptriples_n_loop_inv (triple_ok _ _)) in Hrun; [|lia|apply euclid_triple_ok].
    rewrite Forall_forall in Hrun.
    intros e1 e2 H1 H2 Hcmp.
    apply (proj1 (qsort_elem_of _ _ _)) in H1. apply (proj1 (qsort_elem_of _ _ _)) in H2.
    destruct (Hrun _ H1) as [Hl1 _ Hs1 _]. destruct (Hrun _ H2) as [Hl2 _ Hs2 _].
    unfold Ptriples.ttable_entry_cmpfunc in Hcmp.
    destruct (Z.compare_spec (Ptriples.c e1) (Ptriples.c e2)) as [Hc| |]; try done.
    destruct (Z.compare_spec (Ptriples.b e1) (Ptriples.b e2)) as [Hbb| |]; try done.
    destruct e1 as [a1 b1 c1], e2 as [a2 b2 c2]. simpl in *. subst. f_equal. nia.
Qed.

Lemma ptriples_output_sorted_witness :
  StronglySorted triple_le
    (printed_triples [Ptriples.TripleLine (Ptriples.mk_tentry 15 20 25);
                      Ptriples.TripleLine (Ptriples.mk_tentry 7 24 25)]) ∧
  ∀ e1 e2,
    e1 ∈ printed_triples [Ptriples.TripleLine (Ptriples.mk_tentry 15 20 25);
                          Ptriples.TripleLine (Ptriples.mk_tentry 7 24 25)] →
    e2 ∈ printed_triples [Ptriples.TripleLine (Ptriples.mk_tentry 15 20 25);
                          Ptriples.TripleLine (Ptriples.mk_tentry 7 24 25)] →
    Ptriples.ttable_entry_cmpfunc e1 e2 = Eq → e1 = e2.
Proof.
  apply (@ptriples_output_sorted decimal_parsers 50 ["ptriples"; "21"; "25"]%string 0).
  vm_compute. reflexivity.
Defined.

(** X14. [ptriples] answers a command line with a wrong argument count,
    [c_min < 1] or [c_min > c_max] by exit code 1 and a diagnostic without
    any triple line; on every other command line its loops end, within
    [c_max + 2] turns each, and it exits with code 0 having printed triple
    lines only. *)
Theorem ptriples_exit_codes `{P : Parsers} fuel argv :
  ((¬ (length argv = 3 ∨ length argv = 4)%nat ∨ Ptriples.user_c_min argv < 1 ∨
    Ptriples.user_c_max argv < Ptriples.user_c_min argv) →
   ∃ out, Ptriples.main fuel argv = Ret (1, out) ∧ out ≠ [] ∧ printed_triples out = []) ∧
  ((length argv = 3 ∨ length argv = 4)%nat →
   1 ≤ Ptriples.user_c_min argv ≤ Ptriples.user_c_max argv →
   (Z.to_nat (Ptriples.user_c_max argv) + 2 ≤ fuel)%nat →
   ∃ out, Ptriples.main fuel argv = Ret (0, out) ∧
          out = map Ptriples.TripleLine (printed_triples out)).
Proof.
  split.
  - intros Hbad. unfold Ptriples.main.
    destruct (Nat.eqb_spec (length argv) 3) as [H3|H3],
             (Nat.eqb_spec (length argv) 4) as [H4|H4]; simpl.
    4:{ eexists. split; [reflexivity|done]. }
    all: destruct (Z.ltb_spec (Ptriples.user_c_min argv) 1);
      [eexists; split; [reflexivity|done]|];
      destruct (Z.ltb_spec (Ptriples.user_c_max argv) (Ptriples.user_c_min argv));
      [eexists; split; [reflexivity|done]|];
      lia.
  - intros Hargc Hb Hfuel.
    destruct (Ptriples_n_loop_total fuel (Ptriples.DoOnlyPrimitives argv)
                (Ptriples.user_c_min argv) (Ptriples.user_c_max argv)) as (t & Ht);
      [lia|lia|done|].
    unfold Ptriples.main. cbv zeta.
    assert (negb ((length argv =? 3)%nat || (length argv =? 4)%nat) = false) as ->
      by (destruct Hargc as [-> | ->]; done).
    rewrite !(proj2 (Z.ltb_ge _ _)) by lia.
    rewrite Ht. cbn [bind]. eexists. split; [reflexivity|].
    by rewrite printed_triples_lines.
Qed.

(** ** Parts of the two engines *)

(** X15. [NumDupsAhead] at an entry of a table of one arity returns the
    number of entries right after it that repeat its a-values, and reads
    no slot outside the table. *)
Theorem NumDupsAhead_counts_run (n k : nat) (the_table : ttable) e rest :
  drop k the_table = e :: rest →
  Forall (fun e => length (a e) = n) (e :: rest) →
  Ptuples.NumDupsAhead the_table (Z.of_nat k) = Ret (Z.of_nat (run_len (a e) rest)).
Proof.
  intros Hdrop Harity. unfold Ptuples.NumDupsAhead.
  rewrite (NumDupsAhead_loop n the_table (S (length the_table)) k 0 e rest Hdrop Harity).
  - cbn [bind snd]. f_equal.
  - assert (length (drop k the_table) = S (length rest)) as Hlen by by rewrite Hdrop.
    rewrite length_drop in Hlen. lia.
Qed.

Lemma NumDupsAhead_counts_run_witness :
  Ptuples.NumDupsAhead
    [mk_tentry [3; 4] 5; mk_tentry [6; 8] 10; mk_tentry [6; 8] 10; mk_tentry [6; 8] 10;
     mk_tentry [5; 12] 13] (Z.of_nat 1)
  = Ret (Z.of_nat (run_len [6; 8]
                     [mk_tentry [6; 8] 10; mk_tentry [6; 8] 10; mk_tentry [5; 12] 13])).
Proof.
  apply (NumDupsAhead_counts_run 2 1
           [mk_tentry [3; 4] 5; mk_tentry [6; 8] 10; mk_tentry [6; 8] 10;
            mk_tentry [6; 8] 10; mk_tentry [5; 12] 13]
           (mk_tentry [6; 8] 10)).
  - reflexivity.
  - repeat constructor.
Defined.

(** X16. The substitution step of the approximate engine builds, from the
    a-values of a tuple and an index [j] into them, the a-values with the
    one at [j] replaced by the two legs of a triple: the a-values before
    [j], the two legs, the a-values after [j]. *)
Theorem grow_avalues_splice avalues_old (j : nat) t0 t1 :
  (j < length avalues_old)%nat →
  Qkptuples.grow_avalues (Z.of_nat (S (length avalues_old))) avalues_old (Z.of_nat j)
    [t0; t1]
  = Ret (take j avalues_old ++ [t0; t1] ++ drop (S j) avalues_old).
Proof.
  intros Hj. destruct (grow_avalues_total avalues_old j t0 t1 Hj) as (av & Hrun).
  rewrite Hrun. f_equal. by apply grow_avalues_spec.
Qed.

Lemma grow_avalues_splice_witness :
  Qkptuples.grow_avalues (Z.of_nat (S (length [3; 4; 13]))) [3; 4; 13] (Z.of_nat 2) [5; 12]
  = Ret (take 2 [3; 4; 13] ++ [5; 12] ++ drop (S 2) [3; 4; 13]).
Proof. apply (grow_avalues_splice [3; 4; 13] 2 5 12). simpl. lia. Defined.

(** X17. The odometer loop of the exhaustive engine needs no more than
    [(b_max - 1) ^ (N - 1)] turns: with more fuel than that [BuildNTuples]
    returns its table, for every range that [main] accepts with
    [b_max >= 2]. *)
Theorem ptuples_turns_bound fuel prim b_min b_max N :
  1 ≤ b_min ≤ b_max → 2 ≤ b_max → b_max ≤ Ptuples.MAXB → 3 ≤ N →
  (b_max - 1) ^ (N - 1) < Z.of_nat fuel →
  ∃ tuples, Ptuples.BuildNTuples fuel [] prim b_min b_max N = Ret (tuples, []).
Proof.
  intros Hb Hb2 Hmax HN Hfuel. pose proof Hmax as Hmax'. unfold Ptuples.MAXB in Hmax'.
  set (T := Z.to_nat (N - 1)).
  replace (N - 1) with (Z.of_nat T) in Hfuel by lia.
  unfold Ptuples.BuildNTuples.
  rewrite mpz_get_ui_small by (unfold two64; lia).
  fold T. replace (N - 1 - 1) with (Z.of_nat T - 1) by lia.
  destruct (odometer_loop_total (b_max - 1) T (b_min * b_min) (b_max * b_max)
              ltac:(lia) ltac:(lia) fuel
              (Ptuples.mk_odometer 0 (replicate T 0) (replicate T 0) []))
    as (s & Hloop).
  - split; cbn [Ptuples.od_i Ptuples.sqrindextumbler Ptuples.subtotaltumbler];
      try by rewrite length_replicate.
    + lia.
    + apply Forall_replicate. lia.
  - cbn [Ptuples.od_i Ptuples.sqrindextumbler]. intros _.
    assert (Hz : value (b_max - 1) (replicate T 0) = 0).
    { unfold value. clear. induction T as [|T IH]; simpl; [done|]. by rewrite Z.mul_0_l. }
    rewrite Hz. lia.
  - assert (0 ≤ (b_max - 1) ^ Z.of_nat T) by (apply Z.pow_nonneg; lia). lia.
  - rewrite Hloop. cbn [bind].
    apply odometer_loop_ok in Hloop; [|done|done|lia].
    rewrite (Ptuples_RemDupTuples_spec T).
    2:{ eapply Forall_impl; [exact Hloop|]. apply tuple_ok_canonical. }
    cbn [bind].
    rewrite (move_to_final_filter 1 T b_min b_max); [eauto|lia|].
    eapply sublist_Forall; [apply dedup_runs_sublist|]. by apply qsort_Forall.
Qed.

Lemma ptuples_turns_bound_witness :
  ∃ tuples, Ptuples.BuildNTuples 17 [] false 1 5 3 = Ret (tuples, []).
Proof.
  apply (ptuples_turns_bound 17 false 1 5 3); unfold Ptuples.MAXB; simpl; lia.
Defined.

(** X18. The pass of [qkptuples.cpp] never keeps two neighbours of the
    sorted table: the slot of a kept entry is emptied before the next
    entry is compared with it, and the comparison over zero a-values
    reports a duplicate.  So it returns at most half of the entries,
    rounded up, whatever they are. *)
Theorem Qk_RemDupTuples_at_most_half (t t' : ttable) :
  Qkptuples.RemDupTuples t = Ret t' →
  (2 * length t' ≤ length t + 1)%nat.
Proof.
  intros Hrun. unfold Qkptuples.RemDupTuples in Hrun.
  destruct (Z.leb_spec (count t) 1) as [Hc|Hc].
  { injection Hrun as <-. unfold count in Hc. lia. }
  inv_bind_as Hrun r Hloop. injection Hrun as <-.
  rewrite <- (length_qsort ttable_tentry_cmpfunc t).
  set (sorted := qsort ttable_tentry_cmpfunc t) in *. clearbody sorted.
  apply (for_range_inv (fun i '(tbl, nt) =>
           (2 * length nt ≤ Z.to_nat i + 1)%nat ∧
           (0 < i →
            (∃ e, tbl !! (Z.to_nat i - 1)%nat = Some e ∧ a e = []) ∨
            (2 * length nt ≤ Z.to_nat i)%nat))) in Hloop.
  - destruct r as [tbl nt]. destruct Hloop as [Hlen _]. simpl. lia.
  - intros i [tbl nt] [tbl' nt'] Hi [Hlen Hprev] Hbody.
    inv_bind_as Hbody dup Hdup. destruct dup.
    + injection Hbody as <- <-.
      destruct (Z.ltb_spec 0 i) as [Hi0|]; [|done].
      destruct (Hprev Hi0) as [(e & He & Hae)|Hhalf].
      * split; [lia|]. intros _. right. lia.
      * split; [lia|]. intros _. right. lia.
    + inv_bind_as Hbody e He. inv_bind_as Hbody tbl2 Hset. injection Hbody as <- <-.
      apply arr_set_Ret in Hset as [Hir ->].
      assert (Hhalf : (2 * length nt ≤ Z.to_nat i)%nat).
      { destruct (Z.ltb_spec 0 i) as [Hi0|]; [|lia].
        destruct (Hprev Hi0) as [(e1 & He1 & Hae)|Hhalf]; [|done].
        rewrite (arr_get_at tbl (i - 1) (Z.to_nat i - 1)%nat e1) in Hdup by (done || lia).
        cbn [bind] in Hdup. inv_bind_as Hdup e2 He2.
        unfold a_count in Hdup. rewrite Hae in Hdup. simpl in Hdup. done. }
      unfold MovePTuple. rewrite length_app. simpl.
      split; [lia|]. intros _. left. exists (moved_from e).
      replace (Z.to_nat (i + 1) - 1)%nat with (Z.to_nat i) by lia.
      split; [|done]. apply list_lookup_insert_eq. lia.
  - split; [simpl; lia|]. lia.
Qed.

Lemma Qk_RemDupTuples_at_most_half_witness :
  (2 * length [mk_tentry [3; 4; 12]%Z 13%Z] ≤
   length [mk_tentry [3; 4; 12]%Z 13%Z; mk_tentry [8; 9; 12]%Z 17%Z] + 1)%nat.
Proof.
  apply (Qk_RemDupTuples_at_most_half
           [mk_tentry [3; 4; 12] 13; mk_tentry [8; 9; 12] 17] [mk_tentry [3; 4; 12] 13]).
  vm_compute. reflexivity.
Defined.
